(** * Meteor demo: trajectory, impact and prediction engine

    A shallow embedding of the physics of [main.js] and [src/app.js]:
    the per-frame meteor update of [animate], the spawn operation
    [shootMeteor] and the aiming preview [updatePredictedImpact].

    JavaScript numbers are read as real numbers, so [NaN], infinities and
    rounding are outside the model.  The three.js [Vector3] methods the
    code calls are modelled by their documented arithmetic. *)

From Stdlib Require Import Reals Lra Lia List Bool Arith.
Import ListNotations.
Open Scope R_scope.

(** ** three.js [Vector3], as values *)

Module Vector3.

Record t : Type := mk { x : R; y : R; z : R }.

Definition zero : t := mk 0 0 0.

Definition add (a b : t) : t := mk (x a + x b) (y a + y b) (z a + z b).
Definition sub (a b : t) : t := mk (x a - x b) (y a - y b) (z a - z b).
Definition multiplyScalar (a : t) (s : R) : t := mk (x a * s) (y a * s) (z a * s).

(** [divideScalar(s)] is [multiplyScalar(1 / s)]. *)
Definition divideScalar (a : t) (s : R) : t := multiplyScalar a (1 / s).

Definition lengthSq (a : t) : R := x a * x a + y a * y a + z a * z a.
Definition length (a : t) : R := sqrt (lengthSq a).

(** JavaScript [n || d] on a number: [d] when [n] is zero. *)
Definition orElse (n d : R) : R := if Req_dec_T n 0 then d else n.

(** [normalize()] is [divideScalar(length() || 1)]. *)
Definition normalize (a : t) : t := divideScalar a (orElse (length a) 1).

End Vector3.

Abbreviation Vec := Vector3.t.
Import Vector3.

(** ** Constants shared by [main.js] and the [App] constructor *)

Definition G : R := 6.67430e-11.
Definition earthMass : R := 5.972e24.
Definition earthRadiusMeters : R := 6371000.
Definition SCENE_SCALE : R := 1e6.
Definition earthRadius : R := 6371 / 1000.
Definition gravityStrength : R := 0.02.

(** ** Meteors and the values shown on impact *)

Record Meteor : Type := mkMeteor {
  position : Vec;              (* mesh.position, scene units *)
  velocity : option Vec;       (* scene units per frame *)
  physVelocity : option Vec;   (* m/s *)
  active : bool;
  mass : R;
  area : R;
  size : R;
  ttl : option R;              (* [None] is JavaScript's undefined *)
  fading : bool;
  opacity : R                  (* mesh.material.opacity *)
}.

Record ImpactReport : Type := mkImpact {
  impactPoint : Vec;
  ke : R;
  keTons : R
}.

Definition setPosition (m : Meteor) (p : Vec) : Meteor :=
  mkMeteor p (velocity m) (physVelocity m) (active m) (mass m) (area m)
           (size m) (ttl m) (fading m) (opacity m).
Definition setVelocity (m : Meteor) (v : option Vec) : Meteor :=
  mkMeteor (position m) v (physVelocity m) (active m) (mass m) (area m)
           (size m) (ttl m) (fading m) (opacity m).
Definition setPhysVelocity (m : Meteor) (v : option Vec) : Meteor :=
  mkMeteor (position m) (velocity m) v (active m) (mass m) (area m)
           (size m) (ttl m) (fading m) (opacity m).
Definition setActive (m : Meteor) (b : bool) : Meteor :=
  mkMeteor (position m) (velocity m) (physVelocity m) b (mass m) (area m)
           (size m) (ttl m) (fading m) (opacity m).
Definition setTtl (m : Meteor) (t : option R) : Meteor :=
  mkMeteor (position m) (velocity m) (physVelocity m) (active m) (mass m)
           (area m) (size m) t (fading m) (opacity m).
Definition setFading (m : Meteor) (b : bool) : Meteor :=
  mkMeteor (position m) (velocity m) (physVelocity m) (active m) (mass m)
           (area m) (size m) (ttl m) b (opacity m).
Definition setOpacity (m : Meteor) (o : R) : Meteor :=
  mkMeteor (position m) (velocity m) (physVelocity m) (active m) (mass m)
           (area m) (size m) (ttl m) (fading m) o.

(** A vector the code dereferences without a guard; every spawn path sets
    both velocities, so the default is never used on a spawned meteor. *)
Definition deref (v : option Vec) : Vec :=
  match v with Some a => a | None => zero end.

(** The energy shown after an impact, shared by both files:
    [physVelocity] when the meteor has one, else the scene velocity
    scaled to m/s, else 0; [mass || 1]. *)
Definition speedAtImpact (m : Meteor) : R :=
  match physVelocity m with
  | Some pv => length pv
  | None => match velocity m with
            | Some v => length v * SCENE_SCALE
            | None => 0
            end
  end.

Definition impactEnergy (m : Meteor) (pos : Vec) : ImpactReport :=
  let s := speedAtImpact m in
  let e := 0.5 * orElse (mass m) 1 * s * s in
  mkImpact pos e (e / 4.184e9).

(** The game-like gravity step of the non-realistic branch, identical in
    [main.js] and [app.js]; [r] is the length of [pos] read at the top of
    the callback. *)
Definition arcadeStep (simSpeed : R) (pos vel : Vec) : Vec * Vec :=
  let r := length pos in
  let gravityAccel := multiplyScalar (normalize pos) (- gravityStrength / (r * r)) in
  let vel' := add vel (multiplyScalar gravityAccel simSpeed) in
  let pos' := add pos (multiplyScalar vel' simSpeed) in
  (pos', vel').

(** The bounded [for] loop of the aiming preview, shared by the two
    branches of [main.js] and by [app.js]: run [body], stop with a hit
    when [hit] yields a point, stop empty-handed when [escaped], give up
    after [steps] iterations.  The second component counts the
    iterations performed. *)
Fixpoint forSteps (body : Vec * Vec -> Vec * Vec) (hit : Vec -> option Vec)
         (escaped : Vec -> bool) (steps : nat) (s : Vec * Vec) : option Vec * nat :=
  match steps with
  | O => (None, O)
  | S n =>
      let s' := body s in
      match hit (fst s') with
      | Some hitPos => (Some hitPos, 1%nat)
      | None =>
          if escaped (fst s') then (None, 1%nat)
          else let '(res, k) := forSteps body hit escaped n s' in (res, S k)
      end
  end.

(** ** [main.js] *)

Module MainJs.

(** Air density as computed inside both [accel] closures:
    [Math.max(0, rho0 * Math.exp(-h/H))] with [rho0 = 1.225], [H = 8000]. *)
Definition rho0 : R := 1.225.
Definition H : R := 8000.
Definition Cd : R := 1.0.

Definition atmosphericDensity (h : R) : R := Rmax 0 (rho0 * exp (- h / H)).

(** [accel] of [animate]: gravity plus drag of the meteor being stepped. *)
Definition accel (m : Meteor) (p vlocal : Vec) : Vec :=
  let rmag := length p in
  let g := multiplyScalar p (- G * earthMass / (rmag * rmag * rmag)) in
  let h := rmag - earthRadiusMeters in
  let rho := atmosphericDensity h in
  let vMag := Rmax 1e-6 (length vlocal) in
  let drag := multiplyScalar vlocal (- 0.5 * rho * vMag * Cd * area m / mass m) in
  add g drag.

(** One RK4 update of the realistic branch: from the position in meters
    and [physVelocity] to the new pair. *)
Definition rk4Step (acc : Vec -> Vec -> Vec) (dt : R) (posMeters vel : Vec) : Vec * Vec :=
  let k1v := multiplyScalar (acc posMeters vel) dt in
  let k1x := multiplyScalar vel dt in
  let p2 := add posMeters (multiplyScalar k1x 0.5) in
  let v2 := add vel (multiplyScalar k1v 0.5) in
  let k2v := multiplyScalar (acc p2 v2) dt in
  let k2x := multiplyScalar v2 dt in
  let p3 := add posMeters (multiplyScalar k2x 0.5) in
  let v3 := add vel (multiplyScalar k2v 0.5) in
  let k3v := multiplyScalar (acc p3 v3) dt in
  let k3x := multiplyScalar v3 dt in
  let p4 := add posMeters k3x in
  let v4 := add vel k3v in
  let k4v := multiplyScalar (acc p4 v4) dt in
  let k4x := multiplyScalar v4 dt in
  let dx := multiplyScalar
              (add (add (add k1x (multiplyScalar k2x 2)) (multiplyScalar k3x 2)) k4x)
              (1 / 6) in
  let dv := multiplyScalar
              (add (add (add k1v (multiplyScalar k2v 2)) (multiplyScalar k3v 2)) k4v)
              (1 / 6) in
  (add posMeters dx, add vel dv).

(** The realistic branch on one meteor. *)
Definition realisticStep (simSpeed : R) (m : Meteor) : Meteor :=
  let posMeters := multiplyScalar (position m) SCENE_SCALE in
  let vel := deref (physVelocity m) in
  let dt := 0.02 * simSpeed in
  let '(posMeters', vel') := rk4Step (accel m) dt posMeters vel in
  setPosition (setPhysVelocity m (Some vel'))
              (multiplyScalar posMeters' (1 / SCENE_SCALE)).

(** The non-realistic branch on one meteor. *)
Definition gameStep (simSpeed : R) (m : Meteor) : Meteor :=
  let '(pos', vel') := arcadeStep simSpeed (position m) (deref (velocity m)) in
  setPosition (setVelocity m (Some vel')) pos'.

(** The [meteors.forEach] callback of [animate]: the updated meteor and
    the impact it reports, if any.  [r] is read before the step and
    tested after it. *)
Definition animateMeteor (realistic : bool) (simSpeed : R) (m : Meteor)
  : Meteor * option ImpactReport :=
  if negb (active m) then (m, None) else
  let r := length (position m) in
  let m1 := if realistic then realisticStep simSpeed m else gameStep simSpeed m in
  if Rlt_dec r (earthRadius + 0.2)
  then (setActive m1 false, Some (impactEnergy m1 (position m1)))
  else (m1, None).

(** [shootMeteor()]: the diameter is the constant [size = 0.5]; [speed]
    is the parsed value of the speed slider. *)
Definition shootMeteor (speed : R) (cameraPos cursorPos : Vec)
           (meteors : list Meteor) : list Meteor :=
  let size := 0.5 in
  let dir := normalize (sub cursorPos cameraPos) in
  let density := 3000 in
  let volume := (4 / 3) * PI * (size / 2) ^ 3 in
  let mass := density * volume in
  let area := PI * (size / 2) ^ 2 in
  let physVelocity := multiplyScalar dir (speed * SCENE_SCALE) in
  meteors ++
  [mkMeteor cameraPos (Some (multiplyScalar dir speed)) (Some physVelocity)
            true mass area size None false 1].

(** *** [updatePredictedImpact] *)

Definition steps : nat := 2000.

(** [accel] of the realistic preview: the drag factor is
    [-0.5 * rho * vmag * Cd * 1.0 / 1.0], area and mass left out. *)
Definition accelPredict (p vv : Vec) : Vec :=
  let rmag := length p in
  let g := multiplyScalar p (- G * earthMass / (rmag * rmag * rmag)) in
  let h := rmag - earthRadiusMeters in
  let rho := atmosphericDensity h in
  let vmag := Rmax 1e-6 (length vv) in
  let drag := multiplyScalar vv (- 0.5 * rho * vmag * Cd * 1.0 / 1.0) in
  add g drag.

Definition hitMeters (pM : Vec) : option Vec :=
  let rScene := length pM / SCENE_SCALE in
  if Rlt_dec rScene (earthRadius + 0.2)
  then Some (multiplyScalar pM (1 / SCENE_SCALE)) else None.

Definition escapedMeters (pM : Vec) : bool :=
  let rScene := length pM / SCENE_SCALE in
  if Rlt_dec 1e6 rScene then true else false.

(** The inline acceleration of the scene-unit preview. *)
Definition accelScene (p : Vec) : Vec :=
  multiplyScalar (normalize p) (- gravityStrength / (length p * length p)).

Definition hitScene (pos : Vec) : option Vec :=
  if Rlt_dec (length pos) (earthRadius + 0.2) then Some pos else None.

Definition escapedScene (pos : Vec) : bool :=
  if Rlt_dec 1e4 (length pos) then true else false.

Definition realisticBody (dt : R) (s : Vec * Vec) : Vec * Vec :=
  rk4Step accelPredict dt (fst s) (snd s).

Definition sceneBody (dt : R) (s : Vec * Vec) : Vec * Vec :=
  rk4Step (fun p _ => accelScene p) dt (fst s) (snd s).

(** The state the loop starts from: the camera position and the launch
    velocity, in meters for the realistic branch. *)
Definition previewStart (realistic : bool) (speed : R)
           (cameraPos cursorPos : Vec) : Vec * Vec :=
  let origin := cameraPos in
  let dir := normalize (sub cursorPos cameraPos) in
  let vel := multiplyScalar dir speed in
  if realistic
  then (multiplyScalar origin SCENE_SCALE, multiplyScalar vel SCENE_SCALE)
  else (origin, vel).

(** The preview as a function of what it reads: the model flag, the
    speed sliders, the camera and cursor positions.  The result is
    [hitPos] with the iteration count. *)
Definition predictRun (realistic : bool) (simSpeed speed : R)
           (cameraPos cursorPos : Vec) : option Vec * nat :=
  let dt := 0.02 * simSpeed in
  if realistic then
    forSteps (realisticBody dt) hitMeters escapedMeters steps
             (previewStart true speed cameraPos cursorPos)
  else
    forSteps (sceneBody dt) hitScene escapedScene steps
             (previewStart false speed cameraPos cursorPos).

Definition updatePredictedImpact (realistic : bool) (simSpeed speed : R)
           (cameraPos cursorPos : Vec) : option Vec :=
  fst (predictRun realistic simSpeed speed cameraPos cursorPos).

End MainJs.

(** ** [src/app.js] *)

Module AppJs.

(** What the [App] object holds for the simulation. *)
Record App : Type := mkApp {
  meteors : list Meteor;
  impactCount : nat;
  simSpeed : R;
  realistic : bool;
  paused : bool;
  cameraPosition : Vec;
  cursorPosition : Vec;
  markerPosition : Vec;        (* predictedImpactMarker.position *)
  markerVisible : bool;        (* predictedImpactMarker.visible *)
  impactEnergyShown : option (R * R)
}.

Definition setMeteors (a : App) (ms : list Meteor) : App :=
  mkApp ms (impactCount a) (simSpeed a) (realistic a) (paused a)
        (cameraPosition a) (cursorPosition a) (markerPosition a)
        (markerVisible a) (impactEnergyShown a).

(** [shootMeteor()]; [speedInput] and [sizeInput] are the parsed values
    of the two sliders, [None] when the element is missing. *)
Definition shootMeteor (speedInput sizeInput : option R) (a : App) : App :=
  let speed := match speedInput with Some s => s | None => 0.05 end in
  let size := match sizeInput with Some s => s | None => 0.5 end in
  let meteorPosition := cameraPosition a in
  let dir0 := normalize (sub (cursorPosition a) (cameraPosition a)) in
  let dir := if markerVisible a
             then normalize (sub (markerPosition a) meteorPosition)
             else dir0 in
  let density := 3000 in
  let volume := (4 / 3) * PI * (size / 2) ^ 3 in
  let mass := density * volume in
  let area := PI * (size / 2) ^ 2 in
  let physVelocity := multiplyScalar dir (speed * SCENE_SCALE) in
  let sceneVelocity := multiplyScalar dir (speed * 0.6) in
  setMeteors a
    (meteors a ++
     [mkMeteor meteorPosition (Some sceneVelocity) (Some physVelocity) true
               mass area size (Some 800) false 1.0]).

(** The realistic branch: semi-implicit Euler under gravity alone. *)
Definition realisticStep (simSpeed : R) (m : Meteor) : Meteor :=
  let posMeters := multiplyScalar (position m) SCENE_SCALE in
  let dtInt := 0.02 * simSpeed in
  let rmag := length posMeters in
  let g := multiplyScalar posMeters (- G * earthMass / (rmag * rmag * rmag)) in
  let pv := add (deref (physVelocity m)) (multiplyScalar g dtInt) in
  let posMeters' := add posMeters (multiplyScalar pv dtInt) in
  setPosition (setPhysVelocity m (Some pv))
              (multiplyScalar posMeters' (1 / SCENE_SCALE)).

Definition gameStep (simSpeed : R) (m : Meteor) : Meteor :=
  let '(pos', vel') := arcadeStep simSpeed (position m) (deref (velocity m)) in
  setPosition (setVelocity m (Some vel')) pos'.

(** TTL countdown and fade-out. *)
Definition ageMeteor (dt : R) (m : Meteor) : Meteor :=
  let t := match ttl m with None => 8.0 | Some t => t - dt end in
  let m1 := setTtl m (Some t) in
  let m2 := if Rle_dec t 0 then setFading m1 true else m1 in
  if fading m2 then
    let o := Rmax 0 (orElse (opacity m2) 1 - 0.5 * dt) in
    let m3 := setOpacity m2 o in
    if Rle_dec o 0 then setActive m3 false else m3
  else m2.

(** The [meteors.forEach] callback of [animate]; [dt] is the frame time
    in seconds scaled by [simSpeed].  The tumble only turns the mesh and
    is left out. *)
Definition animateMeteor (realistic : bool) (simSpeed dt : R) (m : Meteor)
  : Meteor * option ImpactReport :=
  if negb (active m) then (m, None) else
  let r := length (position m) in
  let m1 := if realistic then realisticStep simSpeed m else gameStep simSpeed m in
  let m2 := ageMeteor dt m1 in
  if Rlt_dec r (earthRadius + 0.2)
  then (setActive m2 false, Some (impactEnergy m2 (position m2)))
  else (m2, None).

(** Frame time: [dt = (dtMs / 1000) * simSpeed]. *)
Definition frameDt (simSpeed dtMs : R) : R := (dtMs / 1000) * simSpeed.

(** *** [updatePredictedImpact] *)

Definition steps : nat := 2000.

(** The loop body is the same update as the game-like step, with
    [dt = 0.02 * simSpeed] as the factor. *)
Definition eulerBody (dt : R) (s : Vec * Vec) : Vec * Vec :=
  arcadeStep dt (fst s) (snd s).

Definition hitScene (pos : Vec) : option Vec :=
  if Rlt_dec (length pos) (earthRadius + 0.2) then Some pos else None.

Definition escapedScene (pos : Vec) : bool :=
  if Rlt_dec 1e4 (length pos) then true else false.

Definition previewStart (speedInput : option R) (cameraPos cursorPos : Vec)
  : Vec * Vec :=
  let speed := match speedInput with Some s => s | None => 0.05 end in
  let origin := cameraPos in
  let dir := normalize (sub cursorPos cameraPos) in
  (origin, multiplyScalar dir speed).

Definition predictRun (simSpeed : R) (speedInput : option R)
           (cameraPos cursorPos : Vec) : option Vec * nat :=
  let dt := 0.02 * simSpeed in
  forSteps (eulerBody dt) hitScene escapedScene steps
           (previewStart speedInput cameraPos cursorPos).

Definition updatePredictedImpact (simSpeed : R) (speedInput : option R)
           (cameraPos cursorPos : Vec) : option Vec :=
  fst (predictRun simSpeed speedInput cameraPos cursorPos).

End AppJs.

(** ** Reference definitions, in the words of the specification *)

Module Spec.

(** The speed the Impact Resolver is described to use: the SI velocity
    under the Realistic model, the display velocity rescaled to SI under
    the Arcade model. *)
Definition authoritativeSpeed (realistic : bool) (m : Meteor) : R :=
  if realistic then length (deref (physVelocity m))
  else length (deref (velocity m)) * SCENE_SCALE.

(** Central Body Model: density with the altitude clamped at 0, and
    gravity toward the origin. *)
Definition atmosphericDensity (altitudeMeters : R) : R :=
  if Rle_dec 0 altitudeMeters
  then MainJs.rho0 * exp (- altitudeMeters / MainJs.H)
  else MainJs.rho0.

Definition altitude (positionSI : Vec) : R := length positionSI - earthRadiusMeters.

Definition gravitationalAcceleration (positionSI : Vec) : Vec :=
  multiplyScalar positionSI
    (- G * earthMass / (length positionSI * length positionSI * length positionSI)).

(** [dragAcceleration = -0.5 * rho(altitude(x)) * |v| * Cd * crossSectionM2
    / massKg * v], with [Cd = 1.0]. *)
Definition dragAcceleration (rho : R -> R) (m : Meteor) (xSI v : Vec) : Vec :=
  multiplyScalar v
    (- 0.5 * rho (altitude xSI) * length v * 1.0 * area m / mass m).

(** The coupled system [dx/dt = v], [dv/dt = a(x, v)]. *)
Definition coupled (a : Vec -> Vec -> Vec) (y : Vec * Vec) : Vec * Vec :=
  (snd y, a (fst y) (snd y)).

Definition derivative (m : Meteor) : Vec * Vec -> Vec * Vec :=
  coupled (fun xSI v =>
             add (gravitationalAcceleration xSI)
                 (dragAcceleration atmosphericDensity m xSI v)).

Definition padd (a b : Vec * Vec) : Vec * Vec :=
  (add (fst a) (fst b), add (snd a) (snd b)).
Definition pscale (c : R) (a : Vec * Vec) : Vec * Vec :=
  (multiplyScalar (fst a) c, multiplyScalar (snd a) c).

(** One step of the classical fourth-order Runge-Kutta method for
    [y' = f y]: four evaluations of [f], combined with the weights 1/6,
    2/6, 2/6, 1/6. *)
Definition rk4 (f : Vec * Vec -> Vec * Vec) (dt : R) (y : Vec * Vec) : Vec * Vec :=
  let k1 := f y in
  let k2 := f (padd y (pscale (dt / 2) k1)) in
  let k3 := f (padd y (pscale (dt / 2) k2)) in
  let k4 := f (padd y (pscale dt k3)) in
  padd y (pscale dt
            (padd (padd (padd (pscale (1 / 6) k1) (pscale (2 / 6) k2))
                        (pscale (2 / 6) k3))
                  (pscale (1 / 6) k4))).

(** Semi-implicit Euler: the velocity first, the position with the new
    velocity. *)
Definition semiImplicitEuler (a : Vec -> Vec) (dt : R) (y : Vec * Vec) : Vec * Vec :=
  let v' := add (snd y) (multiplyScalar (a (fst y)) dt) in
  (add (fst y) (multiplyScalar v' dt), v').

(** The contract of the Ballistic Predictor, for a loop that starts at
    [s0], steps with [body], measures the distance to the center with
    [dist], hands out [conv] of the position and gives up beyond [far]:
    [out] is the result with the number of steps taken.  Step [k] of the
    run is undecided when it neither comes within the impact radius nor
    goes beyond [far]. *)
Definition previewContract (body : Vec * Vec -> Vec * Vec) (dist : Vec -> R)
           (conv : Vec -> Vec) (far : R) (s0 : Vec * Vec)
           (out : option Vec * nat) : Prop :=
  let pos k := fst (Nat.iter k body s0) in
  let undecided k :=
    forall j, (1 <= j <= k)%nat ->
              ~ dist (pos j) < earthRadius + 0.2 /\ ~ far < dist (pos j) in
  (snd out <= 2000)%nat
  /\ (forall hitPos,
        fst out = Some hitPos <->
        exists k, (k < 2000)%nat /\ undecided k
                  /\ dist (pos (S k)) < earthRadius + 0.2
                  /\ hitPos = conv (pos (S k)))
  /\ ((exists k, (k < 2000)%nat /\ undecided k /\ far < dist (pos (S k))) ->
      fst out = None)
  /\ (undecided 2000%nat -> fst out = None).

End Spec.

(** ** Impact events and scenarios *)

(** A frame of either file's [animate] in which meteor [m] is found
    inside the impact radius: [m'] is the meteor as the callback leaves it
    and [rep] what it displays. *)
Definition emitsImpact (realistic : bool) (simSpeed dt : R)
           (m m' : Meteor) (rep : ImpactReport) : Prop :=
  MainJs.animateMeteor realistic simSpeed m = (m', Some rep)
  \/ AppJs.animateMeteor realistic simSpeed dt m = (m', Some rep).

(** A meteor just above the surface, falling at 0.05 scene units per
    frame, launched at 50 km/s. *)
Definition lowMeteor : Meteor :=
  mkMeteor (mk 0 0 6.5) (Some (mk 0 0 (-0.05))) (Some (mk 0 0 (-50000)))
           true 196 0.2 0.5 None false 1.

(** A meteor at rest in SI terms, 629 km above the surface. *)
Definition restMeteor : Meteor :=
  mkMeteor (mk 0 0 7) (Some (mk 0 0 (-0.05))) (Some zero)
           true 196 0.2 0.5 (Some 800) false 1.

Definition emptyApp : AppJs.App :=
  AppJs.mkApp [] 0 1 false false (mk 0 3 15) (mk 0 0 10) zero false None.

(** An [App] whose camera hangs 129 km above the surface, with the cursor
    on the center of the Earth. *)
Definition closeApp : AppJs.App :=
  AppJs.mkApp [] 0 1 false false (mk 0 0 6.5) zero zero false None.

(** ** Runs of the simulation *)

(** The game-like step repeated from rest at [p0], as [animate] does frame
    after frame while the meteor is live. *)
Definition infall (s : R) (p0 : Vec) (n : nat) : Vec * Vec :=
  Nat.iter n (fun st => arcadeStep s (fst st) (snd st)) (p0, zero).

(** Simulated seconds spent by a list of frames of [app.js], each given by
    its length in milliseconds. *)
Fixpoint simTime (simSpeed : R) (frames : list R) : R :=
  match frames with
  | [] => 0
  | dtMs :: rest => AppJs.frameDt simSpeed dtMs + simTime simSpeed rest
  end.

(** One meteor of [app.js] through a list of frames, with the impacts it
    reports. *)
Fixpoint flight (realistic : bool) (simSpeed : R) (frames : list R) (m : Meteor)
  : Meteor * list ImpactReport :=
  match frames with
  | [] => (m, [])
  | dtMs :: rest =>
      let '(m1, rep) :=
        AppJs.animateMeteor realistic simSpeed (AppJs.frameDt simSpeed dtMs) m in
      let '(m2, reps) := flight realistic simSpeed rest m1 in
      (m2, match rep with Some r => r :: reps | None => reps end)
  end.

(** The meteor is at least [earthRadius + 0.2] from the center at the start
    of each of the frames. *)
Definition keepsClear (realistic : bool) (simSpeed : R) (frames : list R)
           (m : Meteor) : Prop :=
  forall k, (k < List.length frames)%nat ->
            earthRadius + 0.2
            <= length (position (fst (flight realistic simSpeed (firstn k frames) m))).

(** A meteor 15 scene units out, at rest, with one second to live. *)
Definition fadingMeteor : Meteor :=
  mkMeteor (mk 0 0 15) (Some zero) (Some zero) true 196 0.2 0.5 (Some 1) false 1.


(** ** The object store

    [Vector3] objects live in a store and are passed by reference; the
    methods below mutate their receiver in place, as three.js does.  A
    reference is the allocation index of the object. *)

Module Store.

Definition Ref := nat.
Definition Heap := list Vec.

Definition lookup (h : Heap) (r : Ref) : Vec := nth r h Vector3.zero.

Fixpoint update (h : Heap) (r : Ref) (v : Vec) : Heap :=
  match h, r with
  | [], _ => []
  | _ :: t, O => v :: t
  | a :: t, S r' => a :: update t r' v
  end.

(** Computations over the store. *)
Definition M (A : Type) : Type := Heap -> A * Heap.

Definition ret {A : Type} (a : A) : M A := fun h => (a, h).
Definition bind {A B : Type} (m : M A) (f : A -> M B) : M B :=
  fun h => let '(a, h') := m h in f a h'.

Definition alloc (v : Vec) : M Ref := fun h => (List.length h, h ++ [v]).
Definition read (r : Ref) : M Vec := fun h => (lookup h r, h).
Definition write (r : Ref) (v : Vec) : M unit := fun h => (tt, update h r v).

End Store.
Import Store.

Notation "x <- c1 ;; c2" := (bind c1 (fun x => c2))
  (at level 61, c1 at next level, right associativity).
Notation "c1 ;;; c2" := (bind c1 (fun _ => c2))
  (at level 61, right associativity).

(** The [Vector3] methods on references; each returns its receiver, as
    the chained calls of the source rely on. *)
Module V3.

Definition clone (r : Ref) : M Ref := v <- read r ;; alloc v.
Definition copy (r s : Ref) : M Ref := v <- read s ;; write r v ;;; ret r.
Definition add (r s : Ref) : M Ref :=
  a <- read r ;; b <- read s ;; write r (Vector3.add a b) ;;; ret r.
Definition sub (r s : Ref) : M Ref :=
  a <- read r ;; b <- read s ;; write r (Vector3.sub a b) ;;; ret r.
Definition multiplyScalar (r : Ref) (k : R) : M Ref :=
  a <- read r ;; write r (Vector3.multiplyScalar a k) ;;; ret r.
Definition normalize (r : Ref) : M Ref :=
  a <- read r ;; write r (Vector3.normalize a) ;;; ret r.
Definition length (r : Ref) : M R := a <- read r ;; ret (Vector3.length a).

End V3.

(** A live meteor as an object: its three vectors by reference, its other
    fields by value. *)
Record MeteorObj : Type := mkMeteorObj {
  positionRef : Ref;
  velocityRef : Ref;
  physVelocityRef : Ref;
  fields : Meteor
}.

(** The meteor an object stands for in a given store. *)
Definition snapshot (h : Heap) (o : MeteorObj) : Meteor :=
  setPosition
    (setVelocity
       (setPhysVelocity (fields o) (Some (lookup h (physVelocityRef o))))
       (Some (lookup h (velocityRef o))))
    (lookup h (positionRef o)).

(** What the preview can reach: the store, the live meteors, the camera
    and cursor positions and the predicted-impact marker. *)
Record Scene : Type := mkScene {
  heap : Heap;
  liveMeteors : list MeteorObj;
  cameraPosition : Ref;
  cursorPosition : Ref;
  markerPosition : Ref;
  markerVisible : bool
}.

(** The [PredictionResult] a scene shows. *)
Definition prediction (s : Scene) : option Vec :=
  if markerVisible s then Some (lookup (heap s) (markerPosition s)) else None.

(** The bounded [for] loop of the preview over the store. *)
Fixpoint forStepsObj (body : Ref -> Ref -> M unit) (hit : Ref -> M (option Ref))
         (escaped : Ref -> M bool) (steps : nat) (pos v : Ref) : M (option Ref) :=
  match steps with
  | O => ret None
  | S n =>
      body pos v ;;;
      found <- hit pos ;;
      match found with
      | Some hitPos => ret (Some hitPos)
      | None =>
          gone <- escaped pos ;;
          if gone then ret None else forStepsObj body hit escaped n pos v
      end
  end.

(** The end of [updatePredictedImpact]: place the marker on the hit, or
    hide it. *)
Definition showPrediction (s : Scene) (out : option Ref * Heap) : Scene :=
  match fst out with
  | Some hitPos =>
      mkScene (snd (V3.copy (markerPosition s) hitPos (snd out)))
              (liveMeteors s) (cameraPosition s) (cursorPosition s)
              (markerPosition s) true
  | None =>
      mkScene (snd out) (liveMeteors s) (cameraPosition s) (cursorPosition s)
              (markerPosition s) false
  end.

(** ** [main.js], [updatePredictedImpact] on objects *)

Module MainJsObj.

(** [accel] of the realistic preview. *)
Definition accel (p vv : Ref) : M Ref :=
  rmag <- V3.length p ;;
  g <- V3.clone p ;;
  g <- V3.multiplyScalar g (- G * earthMass / (rmag * rmag * rmag)) ;;
  let h := rmag - earthRadiusMeters in
  let rho := MainJs.atmosphericDensity h in
  vlen <- V3.length vv ;;
  let vmag := Rmax 1e-6 vlen in
  drag <- V3.clone vv ;;
  drag <- V3.multiplyScalar drag (- 0.5 * rho * vmag * MainJs.Cd * 1.0 / 1.0) ;;
  V3.add g drag.

(** The inline acceleration of the scene-unit branch; it reads the
    position only. *)
Definition accelScene (p _v : Ref) : M Ref :=
  t <- V3.clone p ;;
  t <- V3.normalize t ;;
  l1 <- V3.length p ;;
  l2 <- V3.length p ;;
  V3.multiplyScalar t (- gravityStrength / (l1 * l2)).

(** The RK4 update written out in both branches. *)
Definition rk4Body (acc : Ref -> Ref -> M Ref) (dt : R) (pM vM : Ref) : M unit :=
  a1 <- acc pM vM ;;
  k1v <- V3.clone a1 ;; k1v <- V3.multiplyScalar k1v dt ;;
  k1x <- V3.clone vM ;; k1x <- V3.multiplyScalar k1x dt ;;
  p2 <- V3.clone pM ;; t <- V3.clone k1x ;; t <- V3.multiplyScalar t 0.5 ;;
  p2 <- V3.add p2 t ;;
  v2 <- V3.clone vM ;; t <- V3.clone k1v ;; t <- V3.multiplyScalar t 0.5 ;;
  v2 <- V3.add v2 t ;;
  a2 <- acc p2 v2 ;;
  k2v <- V3.clone a2 ;; k2v <- V3.multiplyScalar k2v dt ;;
  k2x <- V3.clone v2 ;; k2x <- V3.multiplyScalar k2x dt ;;
  p3 <- V3.clone pM ;; t <- V3.clone k2x ;; t <- V3.multiplyScalar t 0.5 ;;
  p3 <- V3.add p3 t ;;
  v3 <- V3.clone vM ;; t <- V3.clone k2v ;; t <- V3.multiplyScalar t 0.5 ;;
  v3 <- V3.add v3 t ;;
  a3 <- acc p3 v3 ;;
  k3v <- V3.clone a3 ;; k3v <- V3.multiplyScalar k3v dt ;;
  k3x <- V3.clone v3 ;; k3x <- V3.multiplyScalar k3x dt ;;
  p4 <- V3.clone pM ;; p4 <- V3.add p4 k3x ;;
  v4 <- V3.clone vM ;; v4 <- V3.add v4 k3v ;;
  a4 <- acc p4 v4 ;;
  k4v <- V3.clone a4 ;; k4v <- V3.multiplyScalar k4v dt ;;
  k4x <- V3.clone v4 ;; k4x <- V3.multiplyScalar k4x dt ;;
  dx <- V3.clone k1x ;;
  t <- V3.clone k2x ;; t <- V3.multiplyScalar t 2 ;; dx <- V3.add dx t ;;
  t <- V3.clone k3x ;; t <- V3.multiplyScalar t 2 ;; dx <- V3.add dx t ;;
  dx <- V3.add dx k4x ;; dx <- V3.multiplyScalar dx (1 / 6) ;;
  dv <- V3.clone k1v ;;
  t <- V3.clone k2v ;; t <- V3.multiplyScalar t 2 ;; dv <- V3.add dv t ;;
  t <- V3.clone k3v ;; t <- V3.multiplyScalar t 2 ;; dv <- V3.add dv t ;;
  dv <- V3.add dv k4v ;; dv <- V3.multiplyScalar dv (1 / 6) ;;
  V3.add pM dx ;;;
  V3.add vM dv ;;;
  ret tt.

(** The body of the scene-unit loop; its first statement reads a length
    that is not used. *)
Definition sceneBody (dt : R) (pos v : Ref) : M unit :=
  _r <- V3.length pos ;;
  rk4Body accelScene dt pos v.

Definition hitMeters (pM : Ref) : M (option Ref) :=
  l <- V3.length pM ;;
  let rScene := l / SCENE_SCALE in
  if Rlt_dec rScene (earthRadius + 0.2)
  then c <- V3.clone pM ;;
       hitPos <- V3.multiplyScalar c (1 / SCENE_SCALE) ;;
       ret (Some hitPos)
  else ret None.

Definition escapedMeters (pM : Ref) : M bool :=
  l <- V3.length pM ;;
  let rScene := l / SCENE_SCALE in
  ret (if Rlt_dec 1e6 rScene then true else false).

Definition hitScene (pos : Ref) : M (option Ref) :=
  l <- V3.length pos ;;
  if Rlt_dec l (earthRadius + 0.2)
  then hitPos <- V3.clone pos ;; ret (Some hitPos)
  else ret None.

Definition escapedScene (pos : Ref) : M bool :=
  l <- V3.length pos ;;
  ret (if Rlt_dec 1e4 l then true else false).

(** From the top of [updatePredictedImpact] to the end of the loop: the
    reference held by [hitPos]. *)
Definition predictHit (realistic : bool) (simSpeed speed : R)
           (camera cursor : Ref) : M (option Ref) :=
  origin <- V3.clone camera ;;
  d <- V3.clone cursor ;;
  d <- V3.sub d camera ;;
  dir <- V3.normalize d ;;
  vel <- V3.multiplyScalar dir speed ;;
  pos <- V3.clone origin ;;
  v <- V3.clone vel ;;
  if realistic then
    originM <- V3.clone origin ;;
    originM <- V3.multiplyScalar originM SCENE_SCALE ;;
    velM <- V3.clone v ;;
    velM <- V3.multiplyScalar velM SCENE_SCALE ;;
    pM <- V3.clone originM ;;
    vM <- V3.clone velM ;;
    let dt := 0.02 * simSpeed in
    forStepsObj (rk4Body accel dt) hitMeters escapedMeters MainJs.steps pM vM
  else
    let dt := 0.02 * simSpeed in
    forStepsObj (sceneBody dt) hitScene escapedScene MainJs.steps pos v.

Definition updatePredictedImpact (realistic : bool) (simSpeed speed : R)
           (s : Scene) : Scene :=
  showPrediction s
    (predictHit realistic simSpeed speed (cameraPosition s) (cursorPosition s)
                (heap s)).

End MainJsObj.

(** ** [src/app.js], [updatePredictedImpact] on objects *)

Module AppJsObj.

Definition eulerBody (dt : R) (pos v : Ref) : M unit :=
  r <- V3.length pos ;;
  t <- V3.clone pos ;;
  t <- V3.normalize t ;;
  accel <- V3.multiplyScalar t (- gravityStrength / (r * r)) ;;
  a <- V3.multiplyScalar accel dt ;;
  V3.add v a ;;;
  t <- V3.clone v ;;
  t <- V3.multiplyScalar t dt ;;
  V3.add pos t ;;;
  ret tt.

Definition hitScene (pos : Ref) : M (option Ref) :=
  l <- V3.length pos ;;
  if Rlt_dec l (earthRadius + 0.2)
  then hitPos <- V3.clone pos ;; ret (Some hitPos)
  else ret None.

Definition escapedScene (pos : Ref) : M bool :=
  l <- V3.length pos ;;
  ret (if Rlt_dec 1e4 l then true else false).

Definition predictHit (simSpeed : R) (speedInput : option R)
           (camera cursor : Ref) : M (option Ref) :=
  let speed := match speedInput with Some s => s | None => 0.05 end in
  origin <- V3.clone camera ;;
  d <- V3.clone cursor ;;
  d <- V3.sub d camera ;;
  dir <- V3.normalize d ;;
  pos <- V3.clone origin ;;
  v <- V3.multiplyScalar dir speed ;;
  let dt := 0.02 * simSpeed in
  forStepsObj (eulerBody dt) hitScene escapedScene AppJs.steps pos v.

Definition updatePredictedImpact (simSpeed : R) (speedInput : option R)
           (s : Scene) : Scene :=
  showPrediction s
    (predictHit simSpeed speedInput (cameraPosition s) (cursorPosition s)
                (heap s)).

End AppJsObj.

(** ** Store code against value code *)

(** [h'] extends [h] and agrees with it on every object of [h] outside
    [written]. *)
Definition frame (h h' : Heap) (written : list Ref) : Prop :=
  (List.length h <= List.length h')%nat
  /\ forall l, (l < List.length h)%nat -> ~ In l written -> lookup h' l = lookup h l.

Definition refinesBody (bodyObj : Ref -> Ref -> M unit)
           (body : Vec * Vec -> Vec * Vec) : Prop :=
  forall h p q u h',
    (p < List.length h)%nat -> (q < List.length h)%nat -> p <> q ->
    bodyObj p q h = (u, h') ->
    frame h h' [p; q]
    /\ (lookup h' p, lookup h' q) = body (lookup h p, lookup h q).

(** [res] holds a fresh reference to [v], or nothing. *)
Definition holds (h h' : Heap) (res : option Ref) (v : option Vec) : Prop :=
  match v with
  | Some a => exists r, res = Some r /\ (List.length h <= r < List.length h')%nat
                        /\ lookup h' r = a
  | None => res = None
  end.

Definition refinesHit (hitObj : Ref -> M (option Ref)) (hit : Vec -> option Vec) : Prop :=
  forall h p res h',
    (p < List.length h)%nat ->
    hitObj p h = (res, h') ->
    frame h h' [] /\ holds h h' res (hit (lookup h p)).

Definition refinesEscaped (escapedObj : Ref -> M bool) (escaped : Vec -> bool) : Prop :=
  forall h p, escapedObj p h = (escaped (lookup h p), h).

(** A well-formed scene: every reference it holds is allocated, and the
    marker's position is an object of its own.  The vectors of a meteor
    may be shared with the camera or the cursor. *)
Definition wellFormed (s : Scene) : Prop :=
  (cameraPosition s < List.length (heap s))%nat
  /\ (cursorPosition s < List.length (heap s))%nat
  /\ (markerPosition s < List.length (heap s))%nat
  /\ cameraPosition s <> markerPosition s
  /\ cursorPosition s <> markerPosition s
  /\ forall o, In o (liveMeteors s) ->
               (positionRef o < List.length (heap s))%nat
               /\ (velocityRef o < List.length (heap s))%nat
               /\ (physVelocityRef o < List.length (heap s))%nat
               /\ positionRef o <> markerPosition s
               /\ velocityRef o <> markerPosition s
               /\ physVelocityRef o <> markerPosition s.

(** A scene with one meteor in flight, which shares its position object
    with the camera. *)
Definition exampleScene : Scene :=
  mkScene [Vector3.mk 0 3 15; Vector3.mk 0 0 10; Vector3.zero;
           Vector3.mk 0 0 (-0.05); Vector3.mk 0 0 (-50000)]
          [mkMeteorObj 0%nat 3%nat 4%nat lowMeteor] 0%nat 1%nat 2%nat false.
(** ** Visual size of a meteor and of its impact ([src/app.js]) *)

(** [Math.pow(x, y)] for a base [x >= 0] and an exponent [y >= 0], the
    only way the code calls it with a fractional exponent: [0] to a
    positive power is [0], anything to the power [0] is [1]. *)
Definition Math_pow (x y : R) : R :=
  if Req_dec_T y 0 then 1
  else if Req_dec_T x 0 then 0
  else Rpower x y.

Module VisualRadius.

(** The anchor table [{ m, area }] that [createMeteorMesh] and
    [createImpact] both write out: a diameter in meters and the area of a
    country in km^2. *)
Record Anchor : Type := mkAnchor { m : R; area : R }.

Definition anchors : list Anchor :=
  [ mkAnchor 0.1 468;
    mkAnchor 75.0 78866;
    mkAnchor 100.0 243610;
    mkAnchor 10000.0 881913;
    mkAnchor 40000.0 2149690;
    mkAnchor 80000.0 9596961 ].

(** [anchors.map(a => Math.sqrt(a.area / Math.PI) / 1000.0)]. *)
Definition anchorRadii : list R :=
  map (fun a => sqrt (area a / PI) / 1000.0) anchors.

Definition anchorAt (i : nat) : Anchor := nth i anchors (mkAnchor 0 0).
Definition radiusAt (i : nat) : R := nth i anchorRadii 0.

Definition minM : R := m (anchorAt 0).
Definition maxM : R := m (anchorAt (List.length anchors - 1)).

(** The search loop
    [for (i = 0; i < anchors.length - 1; i++)
       if (m >= anchors[i].m && m <= anchors[i+1].m) { seg = i; break; }]
    started at index [i] with [n] iterations left; [seg] is [0] when no
    segment matches. *)
Fixpoint findSegment (mm : R) (i n : nat) : nat :=
  match n with
  | O => 0%nat
  | S n' =>
      if Rle_dec (m (anchorAt i)) mm then
        if Rle_dec mm (m (anchorAt (S i))) then i
        else findSegment mm (S i) n'
      else findSegment mm (S i) n'
  end.

Definition gammas : list R := [1.4; 1.05; 0.95; 0.95; 0.98].
Definition gammaAt (i : nat) : R := nth i gammas 0.

(** [Math.max(minM, Math.min(maxM, sizeMeters))]. *)
Definition clampM (sizeMeters : R) : R := Rmax minM (Rmin maxM sizeMeters).

(** [visualRadiusBase] of [createMeteorMesh], [visualBase] of
    [createImpact], as a function of the diameter handed to the mapping. *)
Definition visualRadiusBase (sizeMeters : R) : R :=
  let mm := clampM sizeMeters in
  if Rle_dec mm (m (anchorAt 0)) then radiusAt 0
  else if Rle_dec (m (anchorAt (List.length anchors - 1))) mm
       then radiusAt (List.length anchorRadii - 1)
  else
    let seg := findSegment mm 0 (List.length anchors - 1) in
    let m0 := m (anchorAt seg) in
    let m1 := m (anchorAt (S seg)) in
    let r0 := radiusAt seg in
    let r1 := radiusAt (S seg) in
    let u := (mm - m0) / Rmax 1e-6 (m1 - m0) in
    let gamma := orElse (gammaAt (Nat.min (List.length gammas - 1) seg)) 1.0 in
    let uAdj := Math_pow u gamma in
    r0 + (r1 - r0) * uAdj.

(** [createMeteorMesh]: the factor handed to [mesh.scale.setScalar]. *)
Definition VISUAL_AMPLIFIER : R := 1.0.

Definition meshScale (sizeMeters : R) : R :=
  let visualRadius := visualRadiusBase sizeMeters * VISUAL_AMPLIFIER in
  Rmax visualRadius 0.005.

(** [createImpact(position, size = 1)]: the diameter is first passed
    through [Math.max(0.01, size || 1)]; [None] is an omitted argument. *)
Definition impactSizeMeters (size : option R) : R :=
  Rmax 0.01 (orElse (match size with Some s => s | None => 1 end) 1).

Definition visualBase (size : option R) : R :=
  visualRadiusBase (impactSizeMeters size).

Definition ringInner (size : option R) : R := visualBase size * 0.25.
Definition ringOuter (size : option R) : R := visualBase size * 1.35.

End VisualRadius.

(** ** The scene of [main.js]: meteors, impact rings and the counter *)

(** [Vector3.addScalar(s)]. *)
Definition addScalar (a : Vec) (s : R) : Vec := mk (x a + s) (y a + s) (z a + s).

(** The sum of a list of numbers: the simulated time of a list of frame
    times, or the slider values of a list of frames added up. *)
Fixpoint total (l : list R) : R :=
  match l with
  | [] => 0
  | a :: rest => a + total rest
  end.

Module MainJsWorld.

(** An entry of [impactEffects]: the ring mesh with its position, its
    scale and the opacity of its material. *)
Record Effect : Type := mkEffect {
  ringPosition : Vec;
  ringScale : Vec;
  ringOpacity : R
}.

(** [createImpact(position)]. *)
Definition createImpact (pos : Vec) : Effect :=
  let normal := normalize pos in
  mkEffect (multiplyScalar normal (earthRadius + 0.01)) (mk 1 1 1) 0.8.

(** The globals the simulation keeps between frames. *)
Record World : Type := mkWorld {
  meteors : list Meteor;
  impactEffects : list Effect;
  impactCount : nat;
  impactEnergyShown : option (R * R);
  markerPosition : Vec;
  markerVisible : bool
}.

Definition initial : World := mkWorld [] [] 0 None zero false.

(** The reports of one pass of [meteors.forEach], in list order. *)
Fixpoint reports (rs : list (Meteor * option ImpactReport)) : list ImpactReport :=
  match rs with
  | [] => []
  | (_, Some rep) :: rest => rep :: reports rest
  | (_, None) :: rest => reports rest
  end.

(** The [impactEffects.forEach] callback. *)
Definition animateEffect (simSpeed : R) (e : Effect) : Effect :=
  mkEffect (ringPosition e) (addScalar (ringScale e) (0.05 * simSpeed))
           (ringOpacity e - 0.02 * simSpeed).

Definition visible (e : Effect) : bool :=
  if Rlt_dec 0 (ringOpacity e) then true else false.

(** One call of [animate()]: the preview, the meteors, the impacts they
    cause, the rings, and the two [filter]s.  [speed] is the speed slider,
    [cameraPos] and [cursorPos] what the camera and the cursor hold. *)
Definition animate (realistic : bool) (simSpeed speed : R)
           (cameraPos cursorPos : Vec) (w : World) : World :=
  let hitPos := MainJs.updatePredictedImpact realistic simSpeed speed
                                             cameraPos cursorPos in
  let rs := map (MainJs.animateMeteor realistic simSpeed) (meteors w) in
  let reps := reports rs in
  let effects := impactEffects w ++ map (fun rep => createImpact (impactPoint rep)) reps in
  mkWorld (filter active (map fst rs))
          (filter visible (map (animateEffect simSpeed) effects))
          (impactCount w + List.length reps)
          (match rev reps with
           | rep :: _ => Some (ke rep, keTons rep)
           | [] => impactEnergyShown w
           end)
          (match hitPos with Some p => p | None => markerPosition w end)
          (match hitPos with Some _ => true | None => false end).

(** The [onclick] handler of the reset button. *)
Definition reset (w : World) : World :=
  mkWorld [] [] 0 (impactEnergyShown w) (markerPosition w) (markerVisible w).

(** [spawnSelectedAsteroid()] once the details are in: [size] in meters,
    [approach] in kilometers, [velocity] in km/s. *)
Definition spawnSelectedAsteroid (size approach velocity : R)
           (ms : list Meteor) : list Meteor :=
  let approachMeters := approach * 1000 in
  let pos := mk 0 0 (approachMeters / SCENE_SCALE) in
  let dir := normalize (mk 0 0 (-1)) in
  let density := 3000 in
  let volume := (4 / 3) * PI * (size / 2) ^ 3 in
  let mass := density * volume in
  let area := PI * (size / 2) ^ 2 in
  let physVel := multiplyScalar dir (velocity * 1000) in
  ms ++ [mkMeteor pos (Some (multiplyScalar dir (velocity / 50))) (Some physVel)
                  true mass area size None false 1].

(** What happens to the scene, one event at a time. *)
Inductive Event : Type :=
| Fire (speed : R) (cameraPos cursorPos : Vec)
| SpawnAsteroid (size approach velocity : R)
| Reset
| Frame (realistic : bool) (simSpeed speed : R) (cameraPos cursorPos : Vec).

Definition setMeteors (w : World) (ms : list Meteor) : World :=
  mkWorld ms (impactEffects w) (impactCount w) (impactEnergyShown w)
          (markerPosition w) (markerVisible w).

Definition handle (w : World) (e : Event) : World :=
  match e with
  | Fire speed cameraPos cursorPos =>
      setMeteors w (MainJs.shootMeteor speed cameraPos cursorPos (meteors w))
  | SpawnAsteroid size approach velocity =>
      setMeteors w (spawnSelectedAsteroid size approach velocity (meteors w))
  | Reset => reset w
  | Frame realistic simSpeed speed cameraPos cursorPos =>
      animate realistic simSpeed speed cameraPos cursorPos w
  end.

Definition run (events : list Event) : World := fold_left handle events initial.

(** Meteors put into the scene since the last reset. *)
Definition launchedAfter (n : nat) (e : Event) : nat :=
  match e with
  | Fire _ _ _ | SpawnAsteroid _ _ _ => S n
  | Reset => 0%nat
  | Frame _ _ _ _ _ => n
  end.

Definition launched (events : list Event) : nat := fold_left launchedAfter events 0%nat.

(** The bookkeeping of the scene: [n] meteors are accounted for, each
    either live in [meteors] or counted as an impact. *)
Definition accounted (n : nat) (w : World) : Prop :=
  (impactCount w + List.length (meteors w))%nat = n
  /\ Forall (fun m => active m = true) (meteors w).

(** One ring through consecutive frames, each given by the value of the
    simulation-speed slider: [None] once the ring has been filtered out. *)
Fixpoint ringFlight (speeds : list R) (e : Effect) : option Effect :=
  match speeds with
  | [] => Some e
  | s :: rest =>
      let e' := animateEffect s e in
      if visible e' then ringFlight rest e' else None
  end.

End MainJsWorld.

(** ** The scene of [src/app.js]: impact effects and whole frames *)

(** JavaScript [v || d] on a field that may be missing. *)
Definition orUndef (v : option R) (d : R) : R :=
  match v with Some a => orElse a d | None => d end.

(** [Math.floor]. *)
Definition floor (r : R) : Z := Int_part r.

(** [Vector3.setLength(l)]: [normalize().multiplyScalar(l)]. *)
Definition setLength (a : Vec) (l : R) : Vec := multiplyScalar (normalize a) l.

Module AppJsWorld.

(** The mushroom group: its position, its scale, and for each mesh in it
    the stored [_baseOpacity] with the current opacity of its material. *)
Record Mushroom : Type := mkMushroom {
  groupPosition : Vec;
  groupScale : R;
  materials : list (R * R)
}.

(** An entry of [impactEffects].  The ring's vertices, which [animate]
    rebuilds from [basePositions], [u] and [v], are not part of the
    record. *)
Record Effect : Type := mkEffect {
  ringOpacity : R;                  (* mesh.material.opacity *)
  ringInScene : bool;               (* mesh.parent *)
  axis : Vec;
  center : Vec;
  spin : R;
  spinAngle : option R;
  scale : R;
  growRate : option R;
  maxBaseRadius : R;
  domeHeight : R;
  age : option R;
  totalLife : option R;
  mushroomGroup : option Mushroom;
  mushroomLife : option R;
  mushroomRiseSpeed : option R;
  mushroomMaxLift : option R;
  mushroomBaseScale : option R;
  mushroomLiftSoFar : option R      (* _mushroomLiftSoFar *)
}.

(** [createImpact(position, size = 1)].  [maxRadius] is the largest
    in-plane radius among the vertices of the extruded ring, and
    [mushroomBuilt] tells whether the [try] block that builds the mushroom
    ran to its end. *)
Definition createImpact (pos : Vec) (size : option R)
           (maxRadius : R) (mushroomBuilt : bool) : Effect :=
  let normal := normalize pos in
  let visualBase := VisualRadius.visualBase size in
  let cloudBase := visualBase in
  let fluffCount := Z.max 6 (floor (6 + cloudBase * 3)) in
  let group :=
    mkMushroom (setLength pos (earthRadius + 0.001)) 1.05
               ((0.9, 0.9) :: (0.96, 0.96) :: (0.96, 0.96)
                :: repeat (0.96, 0.96) (Z.to_nat fluffCount + 4)) in
  mkEffect 0.95 true normal pos 0 None 1 None maxRadius
           (Rmax 0.02 (Rmin 2.0 (maxRadius * 0.75)))
           None None
           (if mushroomBuilt then Some group else None)
           (if mushroomBuilt then Some (7.5 + Rmin 15.0 (visualBase * 10.0)) else None)
           (if mushroomBuilt then Some (Rmax 0.0001 (visualBase * 0.035)) else None)
           (if mushroomBuilt then Some (Rmax 0.02 (visualBase * 0.7)) else None)
           (if mushroomBuilt then Some (cloudBase * 1.1) else None)
           None.

(** The mushroom part of the [impactEffects.forEach] callback: the new
    group and the new [_mushroomLiftSoFar]. *)
Definition animateMushroom (dt age' life norm : R) (e : Effect) (g : Mushroom)
  : option Mushroom * option R :=
  let slerp := 1 - Math_pow (Rmax 0 (age' / life)) 0.5 in
  let scaleFactor := 0.6 + slerp * 0.4 in
  let riseSpeed := orUndef (mushroomRiseSpeed e) 0.002 in
  let liftSoFar := orUndef (mushroomLiftSoFar e) 0 in
  let deltaLift := riseSpeed * dt in
  let newLift := Rmin (orUndef (mushroomMaxLift e) 0.1) (liftSoFar + deltaLift) in
  let liftDeltaApplied := newLift - liftSoFar in
  let moved := if Req_dec_T liftDeltaApplied 0 then groupPosition g
               else add (groupPosition g) (multiplyScalar (axis e) liftDeltaApplied) in
  let lift' := if Req_dec_T liftDeltaApplied 0 then mushroomLiftSoFar e
               else Some newLift in
  let faded := map (fun bo => (fst bo, Rmax 0 (orElse (fst bo) 1.0 * norm)))
                   (materials g) in
  let g' := mkMushroom moved scaleFactor faded in
  (if Rle_dec life age' then None else Some g', lift').

(** The [impactEffects.forEach] callback; [dt] is the frame time in
    seconds scaled by [simSpeed]. *)
Definition animateEffect (simSpeed dt : R) (e : Effect) : Effect :=
  let rate := orUndef (growRate e) 0.25 in
  let scale' := orElse (scale e) 1 + rate * dt in
  let spinAngle' := orUndef (spinAngle e) 0 + spin e * simSpeed in
  let age' := orUndef (age e) 0 + dt in
  let life := orUndef (totalLife e) 2.0 in
  let remaining := Rmax 0 (life - age') in
  let norm := remaining / life in
  let '(group', lift') :=
    match mushroomGroup e with
    | Some g => animateMushroom dt age' life norm e g
    | None => (None, mushroomLiftSoFar e)
    end in
  mkEffect norm
           (if Rle_dec norm 0 then false else ringInScene e)
           (axis e) (center e) (spin e) (Some spinAngle') scale' (growRate e)
           (maxBaseRadius e) (domeHeight e) (Some age') (totalLife e)
           group' (mushroomLife e) (mushroomRiseSpeed e) (mushroomMaxLift e)
           (mushroomBaseScale e) lift'.

(** The test of [impactEffects.filter]: a visible ring, or a mushroom. *)
Definition kept (e : Effect) : bool :=
  (if Rlt_dec 0 (ringOpacity e) then true else false)
  || (match mushroomGroup e with Some _ => true | None => false end).

(** One effect through consecutive unpaused frames, each given by its
    [dt]: [None] once the effect has been filtered out. *)
Fixpoint effectFlight (simSpeed : R) (dts : list R) (e : Effect) : option Effect :=
  match dts with
  | [] => Some e
  | dt :: rest =>
      let e' := animateEffect simSpeed dt e in
      if kept e' then effectFlight simSpeed rest e' else None
  end.

(** The simulation state of the [App] object with its effects. *)
Record World : Type := mkWorld {
  app : AppJs.App;
  impactEffects : list Effect
}.

Definition initial (cameraPos cursorPos : Vec) : World :=
  mkWorld (AppJs.mkApp [] 0 1 false false cameraPos cursorPos zero false None) [].

(** What a frame reads from outside the [App] object: the time since the
    last frame in milliseconds, the speed slider, and, as functions of the
    diameter of the meteor that hits, the two values [createImpact] takes
    from the meshes it builds. *)
Record FrameInput : Type := mkFrameInput {
  dtMs : R;
  speedInput : option R;
  maxRadiusOf : R -> R;
  mushroomBuiltFor : R -> bool
}.

(** One call of [animate(time)]. *)
Definition animate (i : FrameInput) (w : World) : World :=
  let a := app w in
  let dt := AppJs.frameDt (AppJs.simSpeed a) (dtMs i) in
  let hitPos := AppJs.updatePredictedImpact (AppJs.simSpeed a) (speedInput i)
                  (AppJs.cameraPosition a) (AppJs.cursorPosition a) in
  let markerPosition' := match hitPos with
                         | Some p => p
                         | None => AppJs.markerPosition a
                         end in
  let markerVisible' := match hitPos with Some _ => true | None => false end in
  if AppJs.paused a then
    mkWorld (AppJs.mkApp (AppJs.meteors a) (AppJs.impactCount a) (AppJs.simSpeed a)
                         (AppJs.realistic a) (AppJs.paused a)
                         (AppJs.cameraPosition a) (AppJs.cursorPosition a)
                         markerPosition' markerVisible' (AppJs.impactEnergyShown a))
            (impactEffects w)
  else
    let rs := map (AppJs.animateMeteor (AppJs.realistic a) (AppJs.simSpeed a) dt)
                  (AppJs.meteors a) in
    let hits := filter (fun r => match snd r with Some _ => true | None => false end) rs in
    let created := map (fun r => createImpact (position (fst r)) (Some (size (fst r)))
                                              (maxRadiusOf i (size (fst r)))
                                              (mushroomBuiltFor i (size (fst r)))) hits in
    let effects := impactEffects w ++ created in
    mkWorld (AppJs.mkApp (filter active (map fst rs))
                         (AppJs.impactCount a + List.length hits)
                         (AppJs.simSpeed a) (AppJs.realistic a) (AppJs.paused a)
                         (AppJs.cameraPosition a) (AppJs.cursorPosition a)
                         markerPosition' markerVisible'
                         (match rev hits with
                          | (_, Some rep) :: _ => Some (ke rep, keTons rep)
                          | _ => AppJs.impactEnergyShown a
                          end))
            (filter kept (map (animateEffect (AppJs.simSpeed a) dt) effects)).

(** [resetScene()]. *)
Definition resetScene (w : World) : World :=
  let a := app w in
  mkWorld (AppJs.mkApp [] 0 (AppJs.simSpeed a) (AppJs.realistic a) (AppJs.paused a)
                       (AppJs.cameraPosition a) (AppJs.cursorPosition a)
                       (AppJs.markerPosition a) (AppJs.markerVisible a)
                       (AppJs.impactEnergyShown a))
          [].

(** What the ray cast of [spawnSelectedAsteroid] finds: a hit on the
    Earth or on a meteor, or no hit and then the point of the aiming plane
    when the ray meets it, or an exception. *)
Inductive Raycast : Type :=
| Hits (hitPoint : Vec)
| Misses (planePoint : option Vec)
| Throws.

(** [spawnPos] of [spawnSelectedAsteroid]; [forward] is the camera's
    viewing direction. *)
Definition spawnPosition (cameraPos forward : Vec) (ray : Raycast) : Vec :=
  match ray with
  | Hits hitPoint =>
      let backOff := Rmin (length (sub cameraPos hitPoint) * 0.25) 5 in
      add (multiplyScalar (normalize (sub hitPoint cameraPos)) (- backOff)) hitPoint
  | Misses planePoint =>
      let ip := match planePoint with Some p => p | None => zero end in
      add ip (multiplyScalar (normalize (sub cameraPos ip)) (- 0.5))
  | Throws => add cameraPos (multiplyScalar forward 1.2)
  end.

(** [spawnSelectedAsteroid()] once the details are in: [size] in meters,
    [velocity] in km/s; [lookDir] is [(0, 0, -1)] turned by the camera's
    quaternion. *)
Definition spawnSelectedAsteroid (size velocity : R) (lookDir : Vec)
           (ray : Raycast) (a : AppJs.App) : AppJs.App :=
  let forward := normalize lookDir in
  let spawnPos := spawnPosition (AppJs.cameraPosition a) forward ray in
  let aimDir := if AppJs.markerVisible a
                then normalize (sub (AppJs.markerPosition a) spawnPos)
                else forward in
  let density := 3000 in
  let volume := (4 / 3) * PI * (size / 2) ^ 3 in
  let mass := density * volume in
  let area := PI * (size / 2) ^ 2 in
  let physVel := multiplyScalar aimDir (velocity * 1000) in
  let sceneVel := multiplyScalar aimDir (velocity * (1 / SCENE_SCALE) * 0.6) in
  AppJs.setMeteors a
    (AppJs.meteors a ++
     [mkMeteor spawnPos (Some sceneVel) (Some physVel) true mass area size
               None false 1]).

(** What happens to the scene, one event at a time. *)
Inductive Event : Type :=
| Fire (speedInput sizeInput : option R)
| SpawnAsteroid (size velocity : R) (lookDir : Vec) (ray : Raycast)
| ResetScene
| Animate (i : FrameInput)
| TogglePause
| ToggleRealism
| SetSimSpeed (v : R)
| MoveCursor (p : Vec)
| MoveCamera (p : Vec).

Definition setApp (w : World) (a : AppJs.App) : World := mkWorld a (impactEffects w).

Definition handle (w : World) (e : Event) : World :=
  let a := app w in
  match e with
  | Fire speedInput sizeInput => setApp w (AppJs.shootMeteor speedInput sizeInput a)
  | SpawnAsteroid size velocity lookDir ray =>
      setApp w (spawnSelectedAsteroid size velocity lookDir ray a)
  | ResetScene => resetScene w
  | Animate i => animate i w
  | TogglePause =>
      setApp w (AppJs.mkApp (AppJs.meteors a) (AppJs.impactCount a) (AppJs.simSpeed a)
                            (AppJs.realistic a) (negb (AppJs.paused a))
                            (AppJs.cameraPosition a) (AppJs.cursorPosition a)
                            (AppJs.markerPosition a) (AppJs.markerVisible a)
                            (AppJs.impactEnergyShown a))
  | ToggleRealism =>
      setApp w (AppJs.mkApp (AppJs.meteors a) (AppJs.impactCount a) (AppJs.simSpeed a)
                            (negb (AppJs.realistic a)) (AppJs.paused a)
                            (AppJs.cameraPosition a) (AppJs.cursorPosition a)
                            (AppJs.markerPosition a) (AppJs.markerVisible a)
                            (AppJs.impactEnergyShown a))
  | SetSimSpeed v =>
      setApp w (AppJs.mkApp (AppJs.meteors a) (AppJs.impactCount a) v
                            (AppJs.realistic a) (AppJs.paused a)
                            (AppJs.cameraPosition a) (AppJs.cursorPosition a)
                            (AppJs.markerPosition a) (AppJs.markerVisible a)
                            (AppJs.impactEnergyShown a))
  | MoveCursor p =>
      setApp w (AppJs.mkApp (AppJs.meteors a) (AppJs.impactCount a) (AppJs.simSpeed a)
                            (AppJs.realistic a) (AppJs.paused a)
                            (AppJs.cameraPosition a) p
                            (AppJs.markerPosition a) (AppJs.markerVisible a)
                            (AppJs.impactEnergyShown a))
  | MoveCamera p =>
      setApp w (AppJs.mkApp (AppJs.meteors a) (AppJs.impactCount a) (AppJs.simSpeed a)
                            (AppJs.realistic a) (AppJs.paused a)
                            p (AppJs.cursorPosition a)
                            (AppJs.markerPosition a) (AppJs.markerVisible a)
                            (AppJs.impactEnergyShown a))
  end.

Definition run (events : list Event) (w : World) : World := fold_left handle events w.

(** Meteors put into the scene since the last reset. *)
Definition launchedAfter (n : nat) (e : Event) : nat :=
  match e with
  | Fire _ _ | SpawnAsteroid _ _ _ _ => S n
  | ResetScene => 0%nat
  | _ => n
  end.

Definition launched (events : list Event) : nat := fold_left launchedAfter events 0%nat.

(** At most [n] meteors are live or counted as impacts, and every meteor
    in the list is live. *)
Definition accounted (n : nat) (w : World) : Prop :=
  (AppJs.impactCount (app w) + List.length (AppJs.meteors (app w)) <= n)%nat
  /\ Forall (fun m => active m = true) (AppJs.meteors (app w)).

End AppJsWorld.

(** ** Helpers of [createMeteorMesh] ([src/app.js]) *)

(** JavaScript's 32-bit integer operators on integers: [ToUint32],
    [ToInt32], [a << k], [a >>> k] and [a ^ b]. *)
Definition toUint32 (n : Z) : Z := (n mod 2 ^ 32)%Z.
Definition toInt32 (n : Z) : Z := ((n + 2 ^ 31) mod 2 ^ 32 - 2 ^ 31)%Z.
Definition shl (a k : Z) : Z := toInt32 (Z.shiftl (toInt32 a) k).
Definition ushr (a k : Z) : Z := Z.shiftr (toUint32 a) k.
Definition xor (a b : Z) : Z := toInt32 (Z.lxor (toInt32 a) (toInt32 b)).

Module MakeRNG.

(** The three assignments to [_s] in the closure [makeRNG] returns
    (xorshift32). *)
Definition next (s : Z) : Z :=
  let s1 := xor s (shl s 13) in
  let s2 := xor s1 (ushr s1 17) in
  xor s2 (shl s2 5).

(** One call of the closure: the number returned,
    [(_s >>> 0) / 0x100000000], and the state left in [_s]. *)
Definition rng (s : Z) : R * Z :=
  let s' := next s in
  (IZR (ushr s' 0) / 4294967296, s').

(** The state after [n] calls. *)
Definition stateAfter (n : nat) (s : Z) : Z := Nat.iter n next s.

End MakeRNG.

(** [smoothstep(edge0, edge1, x)]. *)
Definition smoothstep (edge0 edge1 xx : R) : R :=
  let t := Rmax 0 (Rmin 1 ((xx - edge0) / (edge1 - edge0))) in
  t * t * (3 - 2 * t).

(** ** Screen coordinates ([main.js] and [src/app.js]) *)

(** [onMouseMove]: the pointer in normalized device coordinates. *)
Definition mouseOf (clientX clientY innerWidth innerHeight : R) : R * R :=
  ((clientX / innerWidth) * 2 - 1, - (clientY / innerHeight) * 2 + 1).

(** [updateLabels]: the pixel at which a label is put, from the projected
    position of its anchor. *)
Definition labelPixel (vx vy innerWidth innerHeight : R) : R * R :=
  ((vx * 0.5 + 0.5) * innerWidth, (- vy * 0.5 + 0.5) * innerHeight).

(** * Properties *)

(** ** Vector arithmetic *)

Lemma vec_ext (a b : Vec) : x a = x b -> y a = y b -> z a = z b -> a = b.
Proof. destruct a, b; simpl; intros; subst; reflexivity. Qed.

Lemma lengthSq_nonneg (a : Vec) : 0 <= lengthSq a.
Proof. unfold lengthSq. nra. Qed.

Lemma length_nonneg (a : Vec) : 0 <= length a.
Proof. apply sqrt_pos. Qed.

Lemma length_sq (a : Vec) : length a * length a = lengthSq a.
Proof. apply sqrt_sqrt, lengthSq_nonneg. Qed.

Lemma length_axis (c : R) : length (mk 0 0 c) = Rabs c.
Proof.
  unfold length, lengthSq; simpl.
  replace (0 * 0 + 0 * 0 + c * c) with (Rsqr c) by (unfold Rsqr; ring).
  apply sqrt_Rsqr_abs.
Qed.

Lemma length_axis_pos (c : R) : 0 <= c -> length (mk 0 0 c) = c.
Proof. intros; rewrite length_axis; apply Rabs_pos_eq; assumption. Qed.

Lemma length_axis_neg (c : R) : c <= 0 -> length (mk 0 0 c) = - c.
Proof. intros; rewrite length_axis; apply Rabs_left1; assumption. Qed.

Lemma orElse_nonzero (n d : R) : n <> 0 -> orElse n d = n.
Proof. intros; unfold orElse; destruct (Req_dec_T n 0); [contradiction | reflexivity]. Qed.

Lemma orElse_nonneg (n d : R) : 0 <= n -> 0 <= d -> 0 <= orElse n d.
Proof. intros; unfold orElse; destruct (Req_dec_T n 0); assumption. Qed.

Lemma normalize_axis (c : R) : 0 < c -> normalize (mk 0 0 c) = mk 0 0 1.
Proof.
  intros Hc. unfold normalize, divideScalar, multiplyScalar.
  rewrite length_axis_pos by lra. rewrite orElse_nonzero by lra. simpl.
  apply vec_ext; simpl; field; lra.
Qed.

(** ** Air density *)

Lemma atmosphericDensity_exp (h : R) :
  MainJs.atmosphericDensity h = MainJs.rho0 * exp (- h / MainJs.H).
Proof.
  unfold MainJs.atmosphericDensity. apply Rmax_right.
  apply Rmult_le_pos; [unfold MainJs.rho0; lra | left; apply exp_pos].
Qed.

Lemma atmosphericDensity_below_surface (h : R) :
  h < 0 -> MainJs.rho0 < MainJs.atmosphericDensity h.
Proof.
  intros Hneg. rewrite atmosphericDensity_exp.
  assert (Hpos : - h / MainJs.H <> 0) by (unfold MainJs.H; lra).
  pose proof (exp_ineq1 _ Hpos) as Hexp.
  assert (0 < - h / MainJs.H) by (unfold MainJs.H; lra).
  unfold MainJs.rho0 in *. nra.
Qed.

(** C7, as amended: for every altitude, of either sign, the density used
    by both [accel] closures is [rho0 * exp(-altitude / H)]: only the
    result is clamped at 0, the altitude is not; the density is never
    negative, and below the surface it is larger than [rho0]. *)
Theorem C7_density_unclamped_altitude (h : R) :
  MainJs.atmosphericDensity h = MainJs.rho0 * exp (- h / MainJs.H)
  /\ 0 <= MainJs.atmosphericDensity h
  /\ (h < 0 -> MainJs.rho0 < MainJs.atmosphericDensity h).
Proof.
  split; [apply atmosphericDensity_exp|]. split.
  - unfold MainJs.atmosphericDensity. apply Rmax_l.
  - apply atmosphericDensity_below_surface.
Qed.

(** C7, counterexample: 8000 m below the surface the density is not
    [rho0]. *)
Lemma C7_density_below_surface :
  -8000 < 0 /\ MainJs.atmosphericDensity (-8000) <> MainJs.rho0.
Proof.
  split; [lra|].
  pose proof (atmosphericDensity_below_surface (-8000)) as Hgt.
  assert (MainJs.rho0 < MainJs.atmosphericDensity (-8000)) by (apply Hgt; lra).
  lra.
Qed.

(** ** Impact energy *)

Lemma mass_main_step (realistic : bool) (simSpeed : R) (m : Meteor) :
  mass (if realistic then MainJs.realisticStep simSpeed m
        else MainJs.gameStep simSpeed m) = mass m.
Proof.
  destruct realistic.
  - unfold MainJs.realisticStep.
    destruct (MainJs.rk4Step _ _ _ _); reflexivity.
  - unfold MainJs.gameStep. destruct (arcadeStep _ _ _); reflexivity.
Qed.

Lemma mass_ageMeteor (dt : R) (m : Meteor) : mass (AppJs.ageMeteor dt m) = mass m.
Proof.
  unfold AppJs.ageMeteor.
  repeat match goal with
         | |- context [if ?c then _ else _] => destruct c; simpl
         end; reflexivity.
Qed.

Lemma mass_app_step (realistic : bool) (simSpeed : R) (m : Meteor) :
  mass (if realistic then AppJs.realisticStep simSpeed m
        else AppJs.gameStep simSpeed m) = mass m.
Proof.
  destruct realistic.
  - reflexivity.
  - unfold AppJs.gameStep. destruct (arcadeStep _ _ _); reflexivity.
Qed.

Lemma impactEnergy_nonneg (m : Meteor) (pos : Vec) :
  0 <= mass m -> 0 <= ke (impactEnergy m pos).
Proof.
  intros Hm. unfold impactEnergy; simpl.
  pose proof (orElse_nonneg (mass m) 1 Hm ltac:(lra)) as Ho.
  assert (0 <= speedAtImpact m * speedAtImpact m) by nra.
  nra.
Qed.

(** What an emitted report is made of. *)
Lemma emitsImpact_inv (realistic : bool) (simSpeed dt : R)
      (m m' : Meteor) (rep : ImpactReport) :
  emitsImpact realistic simSpeed dt m m' rep ->
  exists m1, rep = impactEnergy m1 (position m1)
             /\ m' = setActive m1 false
             /\ mass m1 = mass m
             /\ (m1 = (if realistic then MainJs.realisticStep simSpeed m
                       else MainJs.gameStep simSpeed m)
                 \/ m1 = AppJs.ageMeteor dt
                           (if realistic then AppJs.realisticStep simSpeed m
                            else AppJs.gameStep simSpeed m)).
Proof.
  intros [He | He].
  - unfold MainJs.animateMeteor in He.
    destruct (negb (active m)); [discriminate|].
    destruct (Rlt_dec _ _); [|discriminate].
    injection He as <- <-. eexists; repeat split; [apply mass_main_step | left; reflexivity].
  - unfold AppJs.animateMeteor in He.
    destruct (negb (active m)); [discriminate|].
    destruct (Rlt_dec _ _); [|discriminate].
    injection He as <- <-. eexists; repeat split;
      [rewrite mass_ageMeteor; apply mass_app_step | right; reflexivity].
Qed.

Lemma impactEnergy_nonpos (m : Meteor) (pos : Vec) :
  mass m < 0 -> ke (impactEnergy m pos) <= 0.
Proof.
  intros Hm. unfold impactEnergy; simpl.
  rewrite orElse_nonzero by lra.
  assert (0 <= speedAtImpact m * speedAtImpact m) by nra.
  nra.
Qed.

(** The mass [shootMeteor] and [spawnSelectedAsteroid] compute from a
    diameter has the sign of the diameter. *)
Lemma spawn_mass_sign (d : R) :
  (0 <= d -> 0 <= 3000 * ((4 / 3) * PI * (d / 2) ^ 3))
  /\ (0 < d -> 0 < 3000 * ((4 / 3) * PI * (d / 2) ^ 3))
  /\ (d < 0 -> 3000 * ((4 / 3) * PI * (d / 2) ^ 3) < 0).
Proof.
  pose proof PI_RGT_0 as Hpi.
  replace ((d / 2) ^ 3) with (d * d * d / 8) by (simpl; field).
  repeat split; intros Hd.
  - assert (0 <= d * d * d) by (apply Rmult_le_pos; nra).
    assert (0 <= PI * (d * d * d)) by (apply Rmult_le_pos; lra). lra.
  - assert (0 < d * d * d) by (apply Rmult_lt_0_compat; nra).
    assert (0 < PI * (d * d * d)) by (apply Rmult_lt_0_compat; lra). lra.
  - assert (0 < (- d) * (- d) * (- d)) by (apply Rmult_lt_0_compat; nra).
    assert (0 < PI * ((- d) * (- d) * (- d))) by (apply Rmult_lt_0_compat; lra). lra.
Qed.

(** C5, as amended: every impact report of either file shows the TNT
    equivalent [ke / 4.184e9]; its kinetic energy is non-negative when the
    meteor's mass is non-negative and never positive when the mass is
    negative.  The mass has the sign of the diameter the meteor was
    spawned with: positive for every meteor of [main.js], where the
    diameter is the constant 0.5, and for [app.js] the sign of the value
    of the size slider. *)
Theorem C5_impact_energy (realistic : bool) (simSpeed dt : R)
        (m m' : Meteor) (rep : ImpactReport) :
  emitsImpact realistic simSpeed dt m m' rep ->
  keTons rep = ke rep / 4.184e9
  /\ ke rep = 0.5 * orElse (mass m) 1 * speedAtImpact m' * speedAtImpact m'
  /\ (0 <= mass m -> 0 <= ke rep)
  /\ (mass m < 0 -> ke rep <= 0)
  /\ (forall speedInput sizeInput a m0,
         AppJs.meteors (AppJs.shootMeteor speedInput sizeInput a)
         = AppJs.meteors a ++ [m0] ->
         let d := match sizeInput with Some d => d | None => 0.5 end in
         (0 <= d -> 0 <= mass m0) /\ (d < 0 -> mass m0 < 0))
  /\ (forall speed cameraPos cursorPos ms m0,
         MainJs.shootMeteor speed cameraPos cursorPos ms = ms ++ [m0] ->
         0 < mass m0).
Proof.
  intros He.
  destruct (emitsImpact_inv _ _ _ _ _ _ He) as (m1 & -> & -> & Hmass & _).
  split; [reflexivity|].
  split; [rewrite <- Hmass; reflexivity|].
  split; [intros Hm; apply impactEnergy_nonneg; lra|].
  split; [intros Hm; apply impactEnergy_nonpos; lra|].
  split.
  - intros speedInput sizeInput a m0 Hm0. cbv zeta.
    unfold AppJs.shootMeteor, AppJs.setMeteors in Hm0. cbn [AppJs.meteors] in Hm0.
    apply app_inv_head in Hm0. injection Hm0 as <-. cbn [mass].
    destruct (spawn_mass_sign (match sizeInput with Some s => s | None => 0.5 end))
      as (H0 & _ & H1).
    split; assumption.
  - intros speed cameraPos cursorPos ms m0 Hm0.
    unfold MainJs.shootMeteor in Hm0.
    apply app_inv_head in Hm0. injection Hm0 as <-. cbn [mass].
    destruct (spawn_mass_sign 0.5) as (_ & H0 & _). apply H0. lra.
Qed.

Lemma lowMeteor_impacts :
  MainJs.animateMeteor false 1 lowMeteor
  = (setActive (MainJs.gameStep 1 lowMeteor) false,
     Some (impactEnergy (MainJs.gameStep 1 lowMeteor)
                        (position (MainJs.gameStep 1 lowMeteor)))).
Proof.
  unfold MainJs.animateMeteor. simpl negb. cbv iota.
  destruct (Rlt_dec _ _) as [_ | Hn]; [reflexivity|].
  exfalso; apply Hn. simpl position.
  rewrite length_axis_pos by lra. unfold earthRadius. lra.
Qed.

(** C5, witness: the low meteor of the scenario, in the game-like model. *)
Lemma C5_impact_energy_witness :
  let rep := impactEnergy (MainJs.gameStep 1 lowMeteor)
                          (position (MainJs.gameStep 1 lowMeteor)) in
  keTons rep = ke rep / 4.184e9 /\ 0 <= ke rep.
Proof.
  destruct (C5_impact_energy false 1 0 lowMeteor
              (setActive (MainJs.gameStep 1 lowMeteor) false)
              (impactEnergy (MainJs.gameStep 1 lowMeteor)
                            (position (MainJs.gameStep 1 lowMeteor)))
              (or_introl lowMeteor_impacts))
    as (Ht & _ & Hpos & _).
  split; [exact Ht | apply Hpos; simpl; lra].
Defined.

Lemma normalize_axis_neg (c : R) : c < 0 -> normalize (mk 0 0 c) = mk 0 0 (-1).
Proof.
  intros Hc. unfold normalize, divideScalar, multiplyScalar.
  rewrite length_axis_neg by lra. rewrite orElse_nonzero by lra. simpl.
  apply vec_ext; simpl; field; lra.
Qed.

(** A live meteor of [app.js] found inside the impact radius, under the
    game-like model. *)
Lemma app_impact_report (s dt : R) (m : Meteor) :
  active m = true -> length (position m) < earthRadius + 0.2 ->
  AppJs.animateMeteor false s dt m
  = (setActive (AppJs.ageMeteor dt (AppJs.gameStep s m)) false,
     Some (impactEnergy (AppJs.ageMeteor dt (AppJs.gameStep s m))
                        (position (AppJs.ageMeteor dt (AppJs.gameStep s m))))).
Proof.
  intros Ha Hr. unfold AppJs.animateMeteor. rewrite Ha. cbn [negb].
  destruct (Rlt_dec _ _) as [_ | Hn]; [reflexivity | contradiction].
Qed.

Lemma physVelocity_app_game (s dt : R) (m : Meteor) :
  physVelocity (AppJs.ageMeteor dt (AppJs.gameStep s m)) = physVelocity m.
Proof.
  unfold AppJs.ageMeteor, AppJs.gameStep. destruct (arcadeStep _ _ _).
  repeat match goal with
         | |- context [if ?c then _ else _] => destruct c; simpl
         end; reflexivity.
Qed.

(** C5, counterexample: the size slider at -1 and the speed slider at
    0.05, fired from 129 km above the surface: the meteor is inside the
    impact radius in its first frame, and the energy of the impact it
    reports is negative. *)
Lemma C5_negative_diameter_negative_energy :
  exists m m' rep,
    AppJs.meteors (AppJs.shootMeteor (Some 0.05) (Some (-1)) closeApp) = [m]
    /\ emitsImpact false 1 0.016 m m' rep
    /\ ke rep < 0.
Proof.
  eexists. eexists. eexists. split; [reflexivity|]. split.
  - right. apply app_impact_report; [reflexivity|].
    cbn [position closeApp AppJs.cameraPosition].
    rewrite length_axis_pos by lra. unfold earthRadius. lra.
  - unfold impactEnergy. cbn [ke]. unfold speedAtImpact.
    rewrite physVelocity_app_game, mass_ageMeteor.
    rewrite (mass_app_step false).
    cbn [mass physVelocity closeApp AppJs.cameraPosition AppJs.cursorPosition
         AppJs.markerVisible].
    destruct (spawn_mass_sign (-1)) as (_ & _ & Hneg). specialize (Hneg ltac:(lra)).
    rewrite orElse_nonzero by lra.
    replace (sub zero (mk 0 0 6.5)) with (mk 0 0 (-6.5))
      by (apply vec_ext; simpl; lra).
    rewrite normalize_axis_neg by lra.
    replace (multiplyScalar (mk 0 0 (-1)) (0.05 * SCENE_SCALE))
      with (mk 0 0 (-50000)) by (apply vec_ext; unfold SCENE_SCALE; simpl; lra).
    rewrite length_axis_neg by lra. nra.
Qed.

(** ** Which speed the impact energy uses *)

Lemma arcadeStep_axis (s c w : R) :
  0 < c ->
  arcadeStep s (mk 0 0 c) (mk 0 0 w)
  = (mk 0 0 (c + (w + - gravityStrength / (c * c) * s) * s),
     mk 0 0 (w + - gravityStrength / (c * c) * s)).
Proof.
  intros Hc. unfold arcadeStep.
  rewrite normalize_axis by assumption. rewrite length_axis_pos by lra.
  f_equal; apply vec_ext; simpl; ring.
Qed.

Lemma gameStep_axis (s c w : R) (m : Meteor) :
  position m = mk 0 0 c -> velocity m = Some (mk 0 0 w) -> 0 < c ->
  MainJs.gameStep s m
  = setPosition
      (setVelocity m (Some (mk 0 0 (w + - gravityStrength / (c * c) * s))))
      (mk 0 0 (c + (w + - gravityStrength / (c * c) * s) * s)).
Proof.
  intros Hp Hv Hc. unfold MainJs.gameStep. rewrite Hp, Hv. simpl deref.
  rewrite arcadeStep_axis by assumption. reflexivity.
Qed.

Lemma speedAtImpact_setActive (m : Meteor) (b : bool) :
  speedAtImpact (setActive m b) = speedAtImpact m.
Proof. reflexivity. Qed.

(** C6, as amended: the speed behind every impact energy is the length of
    the meteor's [physVelocity] whenever the meteor has one, under either
    model; the scene velocity scaled by [SCENE_SCALE] is used only for a
    meteor without [physVelocity].  Under the realistic model that is the
    integrated SI velocity; under the game-like model [physVelocity] is
    the value the meteor already carried, since that step never writes it. *)
Theorem C6_impact_speed_source (realistic : bool) (simSpeed dt : R)
        (m m' : Meteor) (rep : ImpactReport) :
  emitsImpact realistic simSpeed dt m m' rep ->
  ke rep = 0.5 * orElse (mass m') 1 * speedAtImpact m' * speedAtImpact m'
  /\ (forall pv, physVelocity m' = Some pv -> speedAtImpact m' = length pv)
  /\ (physVelocity m' = None ->
      forall v, velocity m' = Some v -> speedAtImpact m' = length v * SCENE_SCALE)
  /\ (realistic = true -> speedAtImpact m' = Spec.authoritativeSpeed true m')
  /\ (realistic = false -> physVelocity m' = physVelocity m).
Proof.
  intros He.
  destruct (emitsImpact_inv _ _ _ _ _ _ He) as (m1 & -> & -> & _ & Hm1).
  split; [reflexivity|].
  split; [intros pv Hpv; unfold speedAtImpact; rewrite Hpv; reflexivity|].
  split; [intros Hn v Hv; unfold speedAtImpact; rewrite Hn, Hv; reflexivity|].
  split.
  - intros ->. unfold Spec.authoritativeSpeed, speedAtImpact.
    destruct Hm1 as [-> | ->].
    + unfold MainJs.realisticStep. destruct (MainJs.rk4Step _ _ _ _); reflexivity.
    + unfold AppJs.ageMeteor, AppJs.realisticStep.
      repeat match goal with
             | |- context [if ?c then _ else _] => destruct c; simpl
             end; reflexivity.
  - intros ->. destruct Hm1 as [-> | ->].
    + unfold MainJs.gameStep. destruct (arcadeStep _ _ _); reflexivity.
    + unfold AppJs.ageMeteor, AppJs.gameStep. destruct (arcadeStep _ _ _).
      repeat match goal with
             | |- context [if ?c then _ else _] => destruct c; simpl
             end; reflexivity.
Qed.

(** C6, witness: the low meteor of the scenario. *)
Lemma C6_impact_speed_source_witness :
  let m' := setActive (MainJs.gameStep 1 lowMeteor) false in
  physVelocity m' = physVelocity lowMeteor
  /\ speedAtImpact m' = length (mk 0 0 (-50000)).
Proof.
  destruct (C6_impact_speed_source false 1 0 lowMeteor
              (setActive (MainJs.gameStep 1 lowMeteor) false)
              (impactEnergy (MainJs.gameStep 1 lowMeteor)
                            (position (MainJs.gameStep 1 lowMeteor)))
              (or_introl lowMeteor_impacts))
    as (_ & Hpv & _ & _ & Hsame).
  split; [exact (Hsame eq_refl)|].
  apply Hpv. rewrite (Hsame eq_refl). reflexivity.
Defined.

(** C6, counterexample: under the game-like model the low meteor hits
    with a scene velocity worth more than 50 km/s, yet the energy shown is
    that of its launch speed of 50 km/s. *)
Lemma C6_arcade_energy_from_launch_speed :
  exists m' rep,
    emitsImpact false 1 0 lowMeteor m' rep
    /\ ke rep <> 0.5 * orElse (mass m') 1
                 * Spec.authoritativeSpeed false m' * Spec.authoritativeSpeed false m'.
Proof.
  eexists; eexists; split; [left; apply lowMeteor_impacts|].
  rewrite (gameStep_axis 1 6.5 (-0.05)) by (reflexivity || lra).
  unfold impactEnergy, speedAtImpact, Spec.authoritativeSpeed, lowMeteor. simpl.
  rewrite (orElse_nonzero 196) by lra.
  rewrite !length_axis_neg by (unfold gravityStrength; lra).
  unfold gravityStrength, SCENE_SCALE. lra.
Qed.

(** ** Spawning *)

(** C10, as amended: [shootMeteor] has no rejection path.  For every
    request, whatever the diameter and the launch speed, it appends
    exactly one active meteor to the live set, with mass and cross-section
    computed from the diameter ([app.js] reads the diameter from its
    slider, [main.js] fixes it at 0.5), and reports nothing to its caller. *)
Theorem C10_spawn_always_appends (speedInput sizeInput : option R) (a : AppJs.App)
        (speed : R) (cameraPos cursorPos : Vec) (ms : list Meteor) :
  (exists m,
      AppJs.meteors (AppJs.shootMeteor speedInput sizeInput a) = AppJs.meteors a ++ [m]
      /\ active m = true
      /\ size m = match sizeInput with Some d => d | None => 0.5 end
      /\ mass m = 3000 * ((4 / 3) * PI * (size m / 2) ^ 3)
      /\ area m = PI * (size m / 2) ^ 2)
  /\ (exists m,
         MainJs.shootMeteor speed cameraPos cursorPos ms = ms ++ [m]
         /\ active m = true /\ size m = 0.5).
Proof.
  split; eexists; repeat split.
Qed.

(** C10, counterexample: a request with diameter -1 m grows the live set. *)
Lemma C10_negative_diameter_spawns :
  -1 <= 0
  /\ AppJs.meteors (AppJs.shootMeteor (Some 0.05) (Some (-1)) emptyApp)
     <> AppJs.meteors emptyApp.
Proof.
  split; [lra|]. simpl. discriminate.
Qed.

(** ** The bounded loop of the preview *)

Section ForSteps.

Variable body : Vec * Vec -> Vec * Vec.
Variable hit : Vec -> option Vec.
Variable escaped : Vec -> bool.

Let run := forSteps body hit escaped.
Let pos (s : Vec * Vec) (k : nat) : Vec := fst (Nat.iter k body s).
Let quiet (s : Vec * Vec) (k : nat) : Prop :=
  forall j, (1 <= j <= k)%nat -> hit (pos s j) = None /\ escaped (pos s j) = false.

Lemma pos_shift (s : Vec * Vec) (k : nat) : pos (body s) k = pos s (S k).
Proof. unfold pos. rewrite Nat.iter_succ_r. reflexivity. Qed.

Lemma quiet_shift (s : Vec * Vec) (k : nat) :
  quiet s (S k) <->
  (hit (fst (body s)) = None /\ escaped (fst (body s)) = false) /\ quiet (body s) k.
Proof.
  unfold quiet. split.
  - intros Hq. split.
    + apply (Hq 1%nat). lia.
    + intros j Hj. rewrite pos_shift. apply Hq. lia.
  - intros [H1 Hq] j Hj. destruct j as [|[|j]]; [lia | exact H1 |].
    rewrite <- pos_shift. apply Hq. lia.
Qed.

Lemma forSteps_count (n : nat) (s : Vec * Vec) : (snd (run n s) <= n)%nat.
Proof.
  unfold run. revert s. induction n as [|n IH]; intros s; simpl; [lia|].
  destruct (hit (fst (body s))); simpl; [lia|].
  destruct (escaped (fst (body s))); simpl; [lia|].
  specialize (IH (body s)).
  destruct (forSteps body hit escaped n (body s)); simpl in *. lia.
Qed.

Lemma forSteps_hit (n : nat) (s : Vec * Vec) (hitPos : Vec) :
  fst (run n s) = Some hitPos <->
  exists k, (k < n)%nat /\ quiet s k /\ hit (pos s (S k)) = Some hitPos.
Proof.
  unfold run. revert s. induction n as [|n IH]; intros s.
  - simpl. split; [discriminate | intros (k & Hk & _); lia].
  - simpl. destruct (hit (fst (body s))) as [h|] eqn:Hh.
    + simpl. split.
      * intros [= <-]. exists 0%nat. split; [lia|]. split; [intros j Hj; lia|].
        exact Hh.
      * intros (k & _ & Hq & Hk). destruct k as [|k].
        -- unfold pos in Hk. simpl in Hk. congruence.
        -- apply quiet_shift in Hq. destruct Hq as [[Hq _] _]. congruence.
    + destruct (escaped (fst (body s))) eqn:He.
      * simpl. split; [discriminate|].
        intros (k & _ & Hq & Hk). destruct k as [|k].
        -- unfold pos in Hk. simpl in Hk. congruence.
        -- apply quiet_shift in Hq. destruct Hq as [[_ Hq] _]. congruence.
      * specialize (IH (body s)).
        destruct (forSteps body hit escaped n (body s)) as [res c]; simpl in *.
        rewrite IH. split.
        -- intros (k & Hk & Hq & Hh'). exists (S k). split; [lia|].
           split; [apply quiet_shift; auto|]. rewrite <- pos_shift. exact Hh'.
        -- intros (k & Hk & Hq & Hh'). destruct k as [|k].
           ++ unfold pos in Hh'. simpl in Hh'. congruence.
           ++ exists k. split; [lia|]. apply quiet_shift in Hq.
              destruct Hq as [_ Hq]. split; [exact Hq|].
              rewrite pos_shift. exact Hh'.
Qed.

Lemma forSteps_escape (n : nat) (s : Vec * Vec) (k : nat) :
  (k < n)%nat -> quiet s k ->
  hit (pos s (S k)) = None -> escaped (pos s (S k)) = true ->
  fst (run n s) = None.
Proof.
  intros Hk Hq Hh He.
  destruct (fst (run n s)) as [hp|] eqn:Hr; [|reflexivity].
  apply forSteps_hit in Hr. destruct Hr as (k' & Hk' & Hq' & Hh').
  destruct (Nat.lt_trichotomy k k') as [Hlt | [-> | Hgt]].
  - destruct (Hq' (S k)) as [_ Hx]; [lia | congruence].
  - congruence.
  - destruct (Hq (S k')) as [Hx _]; [lia | congruence].
Qed.

Lemma forSteps_budget (n : nat) (s : Vec * Vec) :
  quiet s n -> fst (run n s) = None.
Proof.
  intros Hq.
  destruct (fst (run n s)) as [hp|] eqn:Hr; [|reflexivity].
  apply forSteps_hit in Hr. destruct Hr as (k & Hk & _ & Hh).
  destruct (Hq (S k)) as [Hx _]; [lia | congruence].
Qed.

End ForSteps.

Lemma forSteps_contract (body : Vec * Vec -> Vec * Vec) (hit : Vec -> option Vec)
      (escaped : Vec -> bool) (dist : Vec -> R) (conv : Vec -> Vec) (far : R)
      (s0 : Vec * Vec) :
  earthRadius + 0.2 <= far ->
  (forall p, hit p = if Rlt_dec (dist p) (earthRadius + 0.2)
                     then Some (conv p) else None) ->
  (forall p, escaped p = if Rlt_dec far (dist p) then true else false) ->
  Spec.previewContract body dist conv far s0
                       (forSteps body hit escaped 2000 s0).
Proof.
  intros Hfar Hhit Hesc. unfold Spec.previewContract.
  generalize 2000%nat as n. intros n.
  assert (Hquiet : forall k,
             (forall j, (1 <= j <= k)%nat ->
                        ~ dist (fst (Nat.iter j body s0)) < earthRadius + 0.2
                        /\ ~ far < dist (fst (Nat.iter j body s0)))
             <-> (forall j, (1 <= j <= k)%nat ->
                            hit (fst (Nat.iter j body s0)) = None
                            /\ escaped (fst (Nat.iter j body s0)) = false)).
  { intros k. split; intros Hq j Hj; specialize (Hq j Hj);
      rewrite Hhit, Hesc in *;
      destruct (Rlt_dec (dist _) _), (Rlt_dec far _);
      destruct Hq; try discriminate; try contradiction; auto. }
  split; [apply forSteps_count|]. split; [|split].
  - intros hp. rewrite forSteps_hit. split.
    + intros (k & Hk & Hq & Hh). exists k. split; [exact Hk|].
      split; [apply Hquiet; exact Hq|].
      rewrite Hhit in Hh. destruct (Rlt_dec _ _); [|discriminate].
      split; [assumption | congruence].
    + intros (k & Hk & Hq & Hd & ->). exists k. split; [exact Hk|].
      split; [apply Hquiet; exact Hq|].
      rewrite Hhit. destruct (Rlt_dec _ _); [reflexivity | contradiction].
  - intros (k & Hk & Hq & Hd).
    apply (forSteps_escape body hit escaped n s0 k Hk).
    + apply Hquiet; exact Hq.
    + rewrite Hhit. destruct (Rlt_dec _ _); [lra | reflexivity].
    + rewrite Hesc. destruct (Rlt_dec _ _); [reflexivity | contradiction].
  - intros Hq. apply forSteps_budget. apply Hquiet; exact Hq.
Qed.

(** C2: every run of the preview, in [main.js] under either model and in
    [app.js], takes at most 2000 steps; it returns an impact point exactly
    when one of its steps brings the previewed position within
    [earthRadius + 0.2] of the center, no earlier step having ended the
    run; a step that goes beyond the escape distance first, or 2000
    undecided steps, give no impact. *)
Theorem C2_preview_bounded_and_decided (realistic : bool) (simSpeed speed : R)
        (speedInput : option R) (cameraPos cursorPos : Vec) :
  Spec.previewContract
    (if realistic then MainJs.realisticBody (0.02 * simSpeed)
     else MainJs.sceneBody (0.02 * simSpeed))
    (fun p => if realistic then length p / SCENE_SCALE else length p)
    (fun p => if realistic then multiplyScalar p (1 / SCENE_SCALE) else p)
    (if realistic then 1e6 else 1e4)
    (MainJs.previewStart realistic speed cameraPos cursorPos)
    (MainJs.predictRun realistic simSpeed speed cameraPos cursorPos)
  /\ Spec.previewContract
       (AppJs.eulerBody (0.02 * simSpeed)) length (fun p => p) 1e4
       (AppJs.previewStart speedInput cameraPos cursorPos)
       (AppJs.predictRun simSpeed speedInput cameraPos cursorPos).
Proof.
  split.
  - unfold MainJs.predictRun, MainJs.steps. destruct realistic.
    + apply forSteps_contract; [unfold earthRadius; lra | reflexivity | reflexivity].
    + apply forSteps_contract; [unfold earthRadius; lra | reflexivity | reflexivity].
  - unfold AppJs.predictRun, AppJs.steps.
    apply forSteps_contract; [unfold earthRadius; lra | reflexivity | reflexivity].
Qed.

(** ** The realistic integrators *)

Lemma rk4Step_classical (acc : Vec -> Vec -> Vec) (dt : R) (pos vel : Vec) :
  MainJs.rk4Step acc dt pos vel = Spec.rk4 (Spec.coupled acc) dt (pos, vel).
Proof.
  unfold MainJs.rk4Step, Spec.rk4, Spec.coupled, Spec.padd, Spec.pscale.
  cbn [fst snd].
  set (a1 := acc pos vel).
  assert (Ep2 : add pos (multiplyScalar (multiplyScalar vel dt) 0.5)
                = add pos (multiplyScalar vel (dt / 2)))
    by (apply vec_ext; simpl; lra).
  assert (Ev2 : add vel (multiplyScalar (multiplyScalar a1 dt) 0.5)
                = add vel (multiplyScalar a1 (dt / 2)))
    by (apply vec_ext; simpl; lra).
  rewrite Ep2, Ev2.
  set (v2 := add vel (multiplyScalar a1 (dt / 2))).
  set (a2 := acc (add pos (multiplyScalar vel (dt / 2))) v2).
  assert (Ep3 : add pos (multiplyScalar (multiplyScalar v2 dt) 0.5)
                = add pos (multiplyScalar v2 (dt / 2)))
    by (apply vec_ext; simpl; lra).
  assert (Ev3 : add vel (multiplyScalar (multiplyScalar a2 dt) 0.5)
                = add vel (multiplyScalar a2 (dt / 2)))
    by (apply vec_ext; simpl; lra).
  rewrite Ep3, Ev3.
  set (v3 := add vel (multiplyScalar a2 (dt / 2))).
  set (a3 := acc (add pos (multiplyScalar v2 (dt / 2))) v3).
  set (v4 := add vel (multiplyScalar a3 dt)).
  set (a4 := acc (add pos (multiplyScalar v3 dt)) v4).
  f_equal; apply vec_ext; simpl; lra.
Qed.


Lemma accel_formula (m : Meteor) (p w : Vec) :
  MainJs.accel m p w
  = add (Spec.gravitationalAcceleration p)
        (multiplyScalar w
           (- 0.5 * (MainJs.rho0 * exp (- Spec.altitude p / MainJs.H))
            * Rmax 1e-6 (length w) * 1.0 * area m / mass m)).
Proof.
  unfold MainJs.accel, Spec.gravitationalAcceleration, Spec.altitude, MainJs.Cd.
  rewrite atmosphericDensity_exp. reflexivity.
Qed.

Lemma accel_is_spec_derivative (m : Meteor) (p w : Vec) :
  earthRadiusMeters <= length p -> 1e-6 <= length w ->
  Spec.coupled (MainJs.accel m) (p, w) = Spec.derivative m (p, w).
Proof.
  intros Hp Hw. unfold Spec.derivative, Spec.coupled. cbn [fst snd].
  rewrite accel_formula. unfold Spec.dragAcceleration, Spec.atmosphericDensity.
  destruct (Rle_dec 0 (Spec.altitude p)) as [_ | Hn];
    [| exfalso; apply Hn; unfold Spec.altitude; lra].
  rewrite Rmax_right by assumption. reflexivity.
Qed.

(** C1, as amended: in [main.js] every realistic step is one classical RK4
    step (four stages, weights 1/6, 2/6, 2/6, 1/6) of [dx/dt = v],
    [dv/dt = gravity(x) + drag(x, v)], where the drag is
    [-0.5 * rho * max(1e-6, |v|) * Cd * area / mass * v] with
    [rho = rho0 * exp(-altitude / H)] and [Cd = 1.0]; this is the system of
    the specification wherever the speed is at least 1e-6 and the position
    is not below the surface.  In [app.js] every realistic step is one
    semi-implicit Euler step under gravity alone. *)
Theorem C1_realistic_integrators (simSpeed : R) (m : Meteor) :
  let dt := 0.02 * simSpeed in
  let y := (multiplyScalar (position m) SCENE_SCALE, deref (physVelocity m)) in
  MainJs.realisticStep simSpeed m
  = (let y' := Spec.rk4 (Spec.coupled (MainJs.accel m)) dt y in
     setPosition (setPhysVelocity m (Some (snd y')))
                 (multiplyScalar (fst y') (1 / SCENE_SCALE)))
  /\ (forall p w,
         MainJs.accel m p w
         = add (Spec.gravitationalAcceleration p)
               (multiplyScalar w
                  (- 0.5 * (MainJs.rho0 * exp (- Spec.altitude p / MainJs.H))
                   * Rmax 1e-6 (length w) * 1.0 * area m / mass m)))
  /\ (forall p w,
         earthRadiusMeters <= length p -> 1e-6 <= length w ->
         Spec.coupled (MainJs.accel m) (p, w) = Spec.derivative m (p, w))
  /\ AppJs.realisticStep simSpeed m
     = (let y' := Spec.semiImplicitEuler Spec.gravitationalAcceleration dt y in
        setPosition (setPhysVelocity m (Some (snd y')))
                    (multiplyScalar (fst y') (1 / SCENE_SCALE))).
Proof.
  cbv zeta. split; [|split; [|split]].
  - unfold MainJs.realisticStep. rewrite rk4Step_classical.
    destruct (Spec.rk4 _ _ _); reflexivity.
  - apply accel_formula.
  - apply accel_is_spec_derivative.
  - reflexivity.
Qed.

Lemma add_axis a b : add (mk 0 0 a) (mk 0 0 b) = mk 0 0 (a + b).
Proof. apply vec_ext; simpl; ring. Qed.
Lemma scale_axis a s : multiplyScalar (mk 0 0 a) s = mk 0 0 (a * s).
Proof. apply vec_ext; simpl; ring. Qed.

Lemma gravity_axis c : 0 < c ->
  Spec.gravitationalAcceleration (mk 0 0 c) = mk 0 0 (- (G * earthMass) / (c * c)).
Proof.
  intros Hc. unfold Spec.gravitationalAcceleration.
  rewrite length_axis_pos by lra. rewrite scale_axis. f_equal. field. lra.
Qed.

Lemma drag_axis_falling rho m c w : 0 < c -> w <= 0 ->
  Spec.dragAcceleration rho m (mk 0 0 c) (mk 0 0 w)
  = mk 0 0 (0.5 * rho (c - earthRadiusMeters) * (w * w) * (area m / mass m)).
Proof.
  intros Hc Hw. unfold Spec.dragAcceleration, Spec.altitude.
  rewrite length_axis_pos by lra. rewrite length_axis_neg by lra.
  rewrite scale_axis. f_equal. unfold Rdiv. set (im := / mass m). lra.
Qed.

Lemma spec_density_bounds h : 0 <= h -> 0 <= Spec.atmosphericDensity h <= MainJs.rho0.
Proof.
  intros Hh. unfold Spec.atmosphericDensity.
  destruct (Rle_dec 0 h); [|contradiction].
  assert (0 < exp (- h / MainJs.H)) by apply exp_pos.
  assert (exp (- h / MainJs.H) <= 1).
  { rewrite <- exp_0. destruct (Req_dec h 0) as [->|Hn].
    - right. f_equal. unfold MainJs.H. lra.
    - left. apply exp_increasing. unfold MainJs.H. lra. }
  unfold MainJs.rho0. nra.
Qed.

Lemma derivative_axis_falling m c w :
  0 < c -> w <= 0 ->
  Spec.derivative m (mk 0 0 c, mk 0 0 w)
  = (mk 0 0 w,
     mk 0 0 (- (G * earthMass) / (c * c)
             + 0.5 * Spec.atmosphericDensity (c - earthRadiusMeters) * (w * w)
               * (area m / mass m))).
Proof.
  intros Hc Hw. unfold Spec.derivative, Spec.coupled. cbn [fst snd].
  rewrite gravity_axis, drag_axis_falling, add_axis by assumption. reflexivity.
Qed.


Lemma padd_axis a b c d :
  Spec.padd (mk 0 0 a, mk 0 0 b) (mk 0 0 c, mk 0 0 d) = (mk 0 0 (a + c), mk 0 0 (b + d)).
Proof. unfold Spec.padd; cbn [fst snd]; rewrite !add_axis; reflexivity. Qed.

Lemma pscale_axis s a b :
  Spec.pscale s (mk 0 0 a, mk 0 0 b) = (mk 0 0 (a * s), mk 0 0 (b * s)).
Proof. unfold Spec.pscale; cbn [fst snd]; rewrite !scale_axis; reflexivity. Qed.

Lemma app_rest_step_z :
  z (position (AppJs.realisticStep 1 restMeteor))
  = (7e6 + - (G * earthMass) / (7e6 * 7e6) * 0.02 * 0.02) / 1e6.
Proof.
  unfold AppJs.realisticStep, restMeteor.
  cbn [position physVelocity deref setPosition setPhysVelocity].
  replace (multiplyScalar (mk 0 0 7) SCENE_SCALE) with (mk 0 0 7e6)
    by (apply vec_ext; unfold SCENE_SCALE; simpl; lra).
  rewrite length_axis_pos by lra. unfold zero, SCENE_SCALE.
  rewrite !scale_axis, !add_axis, !scale_axis, add_axis, scale_axis.
  cbn [z]. lra.
Qed.

Lemma rk4_rest_step_z :
  exists d2 d3 : R,
    0 <= d2 /\ 0 <= d3 /\
    z (fst (Spec.rk4 (Spec.derivative restMeteor) (0.02 * 1)
              (multiplyScalar (position restMeteor) SCENE_SCALE,
               deref (physVelocity restMeteor))))
    = let g0 := - (G * earthMass) / (7e6 * 7e6) in
      let c3 := 7e6 + g0 * 0.01 * 0.01 in
      let g3 := - (G * earthMass) / (c3 * c3) in
      7e6 + 0.02 * (2 / 6 * (g0 * 0.01) + 2 / 6 * ((g0 + d2) * 0.01)
                    + 1 / 6 * ((g3 + d3) * 0.02)).
Proof.
  set (f := Spec.derivative restMeteor).
  assert (Hf : forall c w, 0 < c -> w <= 0 ->
                 f (mk 0 0 c, mk 0 0 w)
                 = (mk 0 0 w,
                    mk 0 0 (- (G * earthMass) / (c * c)
                            + 0.5 * Spec.atmosphericDensity (c - earthRadiusMeters)
                              * (w * w) * (0.2 / 196))))
    by (intros; apply derivative_axis_falling; assumption).
  replace (multiplyScalar (position restMeteor) SCENE_SCALE) with (mk 0 0 7e6)
    by (apply vec_ext; unfold SCENE_SCALE; simpl; lra).
  change (deref (physVelocity restMeteor)) with (mk 0 0 0).
  replace (0.02 * 1) with 0.02 by lra.
  set (g0 := - (G * earthMass) / (7e6 * 7e6)).
  assert (Hg0 : -9 < g0 < -8) by (unfold g0, G, earthMass; lra).
  unfold Spec.rk4. cbv zeta.
  (* stage 1 *)
  assert (E1 : f (mk 0 0 7e6, mk 0 0 0) = (mk 0 0 0, mk 0 0 g0)).
  { rewrite Hf by lra. do 2 f_equal. unfold g0. lra. }
  rewrite E1. rewrite !pscale_axis, !padd_axis.
  (* stage 2 *)
  replace (7e6 + 0 * (0.02 / 2)) with 7e6 by lra.
  replace (0 + g0 * (0.02 / 2)) with (g0 * 0.01) by lra.
  pose proof (spec_density_bounds (7e6 - earthRadiusMeters)
                ltac:(unfold earthRadiusMeters; lra)) as Hr2.
  set (d2 := 0.5 * Spec.atmosphericDensity (7e6 - earthRadiusMeters)
             * (g0 * 0.01 * (g0 * 0.01)) * (0.2 / 196)).
  assert (Hd2 : 0 <= d2 <= 0.001).
  { unfold d2. unfold MainJs.rho0 in Hr2. nra. }
  assert (E2 : f (mk 0 0 7e6, mk 0 0 (g0 * 0.01)) = (mk 0 0 (g0 * 0.01), mk 0 0 (g0 + d2))).
  { rewrite Hf by lra. reflexivity. }
  rewrite E2. rewrite !pscale_axis, !padd_axis.
  (* stage 3 *)
  replace (7e6 + g0 * 0.01 * (0.02 / 2)) with (7e6 + g0 * 0.01 * 0.01) by lra.
  replace (0 + (g0 + d2) * (0.02 / 2)) with ((g0 + d2) * 0.01) by lra.
  set (c3 := 7e6 + g0 * 0.01 * 0.01).
  set (d3 := 0.5 * Spec.atmosphericDensity (c3 - earthRadiusMeters)
             * ((g0 + d2) * 0.01 * ((g0 + d2) * 0.01)) * (0.2 / 196)).
  pose proof (spec_density_bounds (c3 - earthRadiusMeters)
                ltac:(unfold c3, earthRadiusMeters; lra)) as Hr3.
  assert (Hd3 : 0 <= d3).
  { unfold d3. apply Rmult_le_pos; [|lra].
    apply Rmult_le_pos; [|nra]. lra. }
  assert (E3 : f (mk 0 0 c3, mk 0 0 ((g0 + d2) * 0.01))
               = (mk 0 0 ((g0 + d2) * 0.01),
                  mk 0 0 (- (G * earthMass) / (c3 * c3) + d3))).
  { rewrite Hf by (unfold c3; lra). reflexivity. }
  rewrite E3. rewrite !pscale_axis, !padd_axis.
  (* stage 4: only its first component is read *)
  unfold f at 1. unfold Spec.derivative, Spec.coupled.
  unfold Spec.padd, Spec.pscale. cbn [fst snd z add multiplyScalar].
  exists d2, d3. split; [lra|]. split; [lra|]. lra.
Qed.

(** C1, counterexample: from rest at 7000 km from the center, the realistic
    step of [app.js] does not land where one RK4 step of the coupled
    system with drag lands. *)
Lemma C1_app_step_is_not_rk4 :
  let y' := Spec.rk4 (Spec.derivative restMeteor) (0.02 * 1)
              (multiplyScalar (position restMeteor) SCENE_SCALE,
               deref (physVelocity restMeteor)) in
  position (AppJs.realisticStep 1 restMeteor)
  <> multiplyScalar (fst y') (1 / SCENE_SCALE).
Proof.
  cbv zeta. intros Heq. apply (f_equal z) in Heq.
  rewrite app_rest_step_z in Heq. cbn [z multiplyScalar] in Heq.
  destruct rk4_rest_step_z as (d2 & d3 & Hd2 & Hd3 & Hz).
  rewrite Hz in Heq. cbv zeta in Heq. clear Hz.
  set (g0 := - (G * earthMass) / (7e6 * 7e6)) in *.
  assert (Hg0 : -8.2 < g0 < -8.1) by (unfold g0, G, earthMass; lra).
  set (c3 := 7e6 + g0 * 0.01 * 0.01) in *.
  assert (Hc3 : 6.9e6 < c3 < 7e6) by (unfold c3; lra).
  set (g3 := - (G * earthMass) / (c3 * c3)) in *.
  assert (Hg3 : -9 < g3).
  { unfold g3. assert (Hcc : 6.9e6 * 6.9e6 < c3 * c3) by nra.
    assert (HGM : 0 < G * earthMass < 3.99e14) by (unfold G, earthMass; lra).
    unfold Rdiv. rewrite <- Ropp_mult_distr_l.
    assert (/ (c3 * c3) < / (6.9e6 * 6.9e6)).
    { apply Rinv_lt_contravar; [nra | exact Hcc]. }
    assert (0 < / (c3 * c3)) by (apply Rinv_0_lt_compat; nra).
    nra. }
  unfold SCENE_SCALE in Heq. lra.
Qed.

(** ** The preview against the live simulation *)

Section Rk4OnAxis.

Variable f : Vec * Vec -> Vec * Vec.
Variable A : R -> R -> R.
Variable ok : R -> R -> Prop.
Hypothesis f_axis :
  forall c w, ok c w -> f (mk 0 0 c, mk 0 0 w) = (mk 0 0 w, mk 0 0 (A c w)).

Lemma rk4_axis (dt c w : R) :
  let a1 := A c w in
  let c2 := c + w * (dt / 2) in
  let w2 := w + a1 * (dt / 2) in
  let a2 := A c2 w2 in
  let c3 := c + w2 * (dt / 2) in
  let w3 := w + a2 * (dt / 2) in
  let a3 := A c3 w3 in
  let c4 := c + w3 * dt in
  let w4 := w + a3 * dt in
  let a4 := A c4 w4 in
  ok c w -> ok c2 w2 -> ok c3 w3 -> ok c4 w4 ->
  Spec.rk4 f dt (mk 0 0 c, mk 0 0 w)
  = (mk 0 0 (c + (w * (1 / 6) + w2 * (2 / 6) + w3 * (2 / 6) + w4 * (1 / 6)) * dt),
     mk 0 0 (w + (a1 * (1 / 6) + a2 * (2 / 6) + a3 * (2 / 6) + a4 * (1 / 6)) * dt)).
Proof.
  intros a1 c2 w2 a2 c3 w3 a3 c4 w4 a4 H1 H2 H3 H4.
  unfold Spec.rk4. cbv zeta.
  rewrite (f_axis c w H1). fold a1.
  rewrite !pscale_axis, !padd_axis. fold c2 w2.
  rewrite (f_axis c2 w2 H2). fold a2.
  rewrite !pscale_axis, !padd_axis. fold c3 w3.
  rewrite (f_axis c3 w3 H3). fold a3.
  rewrite !pscale_axis, !padd_axis. fold c4 w4.
  rewrite (f_axis c4 w4 H4). fold a4.
  rewrite !pscale_axis, !padd_axis. rewrite pscale_axis, padd_axis. reflexivity.
Qed.

End Rk4OnAxis.

Lemma accelScene_axis (c : R) :
  0 < c -> MainJs.accelScene (mk 0 0 c) = mk 0 0 (- gravityStrength / (c * c)).
Proof.
  intros Hc. unfold MainJs.accelScene.
  rewrite normalize_axis, length_axis_pos, scale_axis by lra. f_equal. lra.
Qed.

Lemma pull_bound (c : R) : 14 <= c -> -0.001 < - gravityStrength / (c * c) < 0.
Proof.
  intros Hc. unfold gravityStrength, Rdiv.
  assert (0 < / (c * c)) by (apply Rinv_0_lt_compat; nra).
  assert (/ (c * c) <= / 196) by (apply Rinv_le_contravar; nra).
  lra.
Qed.

Lemma sceneBody_is_not_arcadeStep :
  MainJs.sceneBody (0.02 * 1) (mk 0 0 15, mk 0 0 (-0.05))
  <> arcadeStep 1 (mk 0 0 15) (mk 0 0 (-0.05)).
Proof.
  unfold MainJs.sceneBody. cbn [fst snd]. rewrite rk4Step_classical.
  assert (Hf : forall c w, 0 < c ->
                 Spec.coupled (fun p _ => MainJs.accelScene p) (mk 0 0 c, mk 0 0 w)
                 = (mk 0 0 w, mk 0 0 (- gravityStrength / (c * c)))).
  { intros c w Hc. unfold Spec.coupled. cbn [fst snd].
    rewrite accelScene_axis by assumption. reflexivity. }
  pose proof (rk4_axis _ (fun c _ => - gravityStrength / (c * c))
                       (fun c _ => 0 < c) Hf (0.02 * 1) 15 (-0.05)) as Hr.
  cbv zeta in Hr.
  pose proof (pull_bound 15 ltac:(lra)) as B1.
  set (a1 := - gravityStrength / (15 * 15)) in *.
  set (c2 := 15 + -0.05 * (0.02 * 1 / 2)) in *.
  set (w2 := -0.05 + a1 * (0.02 * 1 / 2)) in *.
  pose proof (pull_bound c2 ltac:(unfold c2; lra)) as B2.
  set (a2 := - gravityStrength / (c2 * c2)) in *.
  set (c3 := 15 + w2 * (0.02 * 1 / 2)) in *.
  set (w3 := -0.05 + a2 * (0.02 * 1 / 2)) in *.
  pose proof (pull_bound c3 ltac:(unfold c3, w2; lra)) as B3.
  set (a3 := - gravityStrength / (c3 * c3)) in *.
  set (c4 := 15 + w3 * (0.02 * 1)) in *.
  set (w4 := -0.05 + a3 * (0.02 * 1)) in *.
  rewrite Hr by (unfold c2, c3, c4, w2, w3; lra). clear Hr.
  rewrite arcadeStep_axis by lra. fold a1. intros Heq.
  apply (f_equal (fun s => z (fst s))) in Heq. cbn [fst z] in Heq.
  unfold w2, w3, w4 in Heq. lra.
Qed.

(** Loops whose bodies agree on every state run alike. *)
Lemma forSteps_ext (body body' : Vec * Vec -> Vec * Vec) (hit : Vec -> option Vec)
      (escaped : Vec -> bool) :
  (forall s, body s = body' s) ->
  forall n s, forSteps body hit escaped n s = forSteps body' hit escaped n s.
Proof.
  intros Hb. induction n as [|n IH]; intros s; [reflexivity|].
  cbn [forSteps]. cbv zeta. rewrite (Hb s).
  destruct (hit (fst (body' s))); [reflexivity|].
  destruct (escaped (fst (body' s))); [reflexivity|].
  rewrite IH. reflexivity.
Qed.

Lemma accelPredict_formula (p w : Vec) :
  MainJs.accelPredict p w
  = add (Spec.gravitationalAcceleration p)
        (multiplyScalar w
           (- 0.5 * (MainJs.rho0 * exp (- Spec.altitude p / MainJs.H))
            * Rmax 1e-6 (length w) * 1.0 * 1.0 / 1.0)).
Proof.
  unfold MainJs.accelPredict, Spec.gravitationalAcceleration, Spec.altitude, MainJs.Cd.
  rewrite atmosphericDensity_exp. reflexivity.
Qed.

(** The preview's derivative is the live one exactly for a meteor whose
    cross-section equals its mass. *)
Lemma accelPredict_is_accel_iff (m : Meteor) :
  mass m <> 0 ->
  (forall p w, MainJs.accelPredict p w = MainJs.accel m p w) <-> area m = mass m.
Proof.
  intros Hm. split.
  - intros Hall. specialize (Hall (mk 0 0 earthRadiusMeters) (mk 0 0 1)).
    rewrite accelPredict_formula, accel_formula in Hall.
    apply (f_equal z) in Hall. cbn [z add multiplyScalar] in Hall.
    rewrite length_axis_pos in Hall by lra. rewrite Rmax_right in Hall by lra.
    pose proof (exp_pos (- Spec.altitude (mk 0 0 earthRadiusMeters) / MainJs.H)) as He.
    set (e := exp _) in *. unfold MainJs.rho0 in Hall.
    assert (Hq : area m / mass m = 1).
    { assert (Hk : e * (area m / mass m) = e * 1).
      { unfold Rdiv in *. lra. }
      apply Rmult_eq_reg_l in Hk; [exact Hk | lra]. }
    apply (f_equal (fun q => q * mass m)) in Hq.
    unfold Rdiv in Hq. rewrite Rmult_assoc, Rinv_l in Hq by exact Hm. lra.
  - intros Ham p w. unfold MainJs.accelPredict, MainJs.accel.
    do 2 f_equal. rewrite Ham. field. split; [exact Hm | lra].
Qed.

(** Every meteor [shootMeteor] of [main.js] makes has a cross-section of
    one thousandth of its mass. *)
Lemma fired_area_over_mass (speed : R) (cameraPos cursorPos : Vec) (m : Meteor) :
  MainJs.shootMeteor speed cameraPos cursorPos [] = [m] ->
  area m / mass m = 0.001 /\ mass m <> 0.
Proof.
  intros H. unfold MainJs.shootMeteor in H. cbn [app] in H. injection H as <-.
  cbn [area mass]. pose proof PI_RGT_0 as Hpi.
  destruct (spawn_mass_sign 0.5) as (_ & Hpos & _). specialize (Hpos ltac:(lra)).
  split; [|lra].
  apply Rmult_eq_reg_r with (3000 * (4 / 3 * PI * (0.5 / 2) ^ 3)); [|lra].
  unfold Rdiv at 1. rewrite Rmult_assoc, Rinv_l by lra. simpl. lra.
Qed.

Lemma accelPredict_is_not_accel (m : Meteor) :
  area m / mass m = 0.001 ->
  MainJs.accelPredict (mk 0 0 6.625e6) (mk 0 0 (-50000))
  <> MainJs.accel m (mk 0 0 6.625e6) (mk 0 0 (-50000)).
Proof.
  intros Hq Heq. apply (f_equal z) in Heq. revert Heq.
  rewrite accelPredict_formula, accel_formula.
  cbn [z add multiplyScalar].
  rewrite length_axis_neg by lra. rewrite Rmax_right by lra.
  pose proof (exp_pos (- Spec.altitude (mk 0 0 6.625e6) / MainJs.H)) as He.
  set (e := exp _) in *. unfold MainJs.rho0.
  replace (- 0.5 * (1.225 * e) * - -50000 * 1.0 * area m / mass m)
    with (- 0.5 * (1.225 * e) * - -50000 * 1.0 * (area m / mass m))
    by (unfold Rdiv; ring).
  rewrite Hq. lra.
Qed.

(** C4, as amended: in [main.js] the realistic preview loop is the
    classical RK4 step with [dt = 0.02 * simSpeed], the scheme and the
    [dt] of the live realistic step, over a derivative whose drag leaves
    out cross-section and mass; for a meteor with a mass this derivative
    is the live one if and only if the meteor's cross-section equals its
    mass.  The scene-unit preview loop is the classical RK4 step with
    [dt = 0.02 * simSpeed] in the inverse-square field in which the live
    game-like step is one semi-implicit Euler step with factor
    [simSpeed]. *)
Theorem C4_preview_integrators (simSpeed speed : R) (cameraPos cursorPos : Vec)
        (m : Meteor) :
  MainJs.predictRun true simSpeed speed cameraPos cursorPos
  = forSteps (Spec.rk4 (Spec.coupled MainJs.accelPredict) (0.02 * simSpeed))
             MainJs.hitMeters MainJs.escapedMeters 2000
             (MainJs.previewStart true speed cameraPos cursorPos)
  /\ MainJs.realisticStep simSpeed m
     = (let y' := Spec.rk4 (Spec.coupled (MainJs.accel m)) (0.02 * simSpeed)
                           (multiplyScalar (position m) SCENE_SCALE,
                            deref (physVelocity m)) in
        setPosition (setPhysVelocity m (Some (snd y')))
                    (multiplyScalar (fst y') (1 / SCENE_SCALE)))
  /\ (forall p w,
         MainJs.accelPredict p w
         = add (Spec.gravitationalAcceleration p)
               (multiplyScalar w
                  (- 0.5 * (MainJs.rho0 * exp (- Spec.altitude p / MainJs.H))
                   * Rmax 1e-6 (length w) * 1.0 * 1.0 / 1.0)))
  /\ (mass m <> 0 ->
      ((forall p w, MainJs.accelPredict p w = MainJs.accel m p w)
       <-> area m = mass m))
  /\ MainJs.predictRun false simSpeed speed cameraPos cursorPos
     = forSteps (Spec.rk4 (Spec.coupled (fun p _ => MainJs.accelScene p))
                          (0.02 * simSpeed))
                MainJs.hitScene MainJs.escapedScene 2000
                (MainJs.previewStart false speed cameraPos cursorPos)
  /\ MainJs.gameStep simSpeed m
     = (let y' := Spec.semiImplicitEuler MainJs.accelScene simSpeed
                    (position m, deref (velocity m)) in
        setPosition (setVelocity m (Some (snd y'))) (fst y')).
Proof.
  split.
  { unfold MainJs.predictRun, MainJs.steps. cbv zeta. apply forSteps_ext.
    intros [p v]. unfold MainJs.realisticBody. apply rk4Step_classical. }
  split.
  { unfold MainJs.realisticStep. cbv zeta. rewrite rk4Step_classical.
    destruct (Spec.rk4 _ _ _); reflexivity. }
  split; [apply accelPredict_formula|].
  split; [apply accelPredict_is_accel_iff|].
  split.
  { unfold MainJs.predictRun, MainJs.steps. cbv zeta. apply forSteps_ext.
    intros [p v]. unfold MainJs.sceneBody. apply rk4Step_classical. }
  reflexivity.
Qed.

(** C4, counterexample: from 15 scene units out at 0.05 per frame the
    scene-unit preview step and the live game-like step land apart; and
    for a meteor fired at slider speed 0.05 from 254 km above the surface
    straight at the center, the preview's derivative at the launch state,
    which is also the state the live meteor starts in, is not the
    meteor's own. *)
Lemma C4_preview_differs_from_live :
  MainJs.sceneBody (0.02 * 1) (mk 0 0 15, mk 0 0 (-0.05))
  <> arcadeStep 1 (mk 0 0 15) (mk 0 0 (-0.05))
  /\ exists m,
       MainJs.shootMeteor 0.05 (mk 0 0 6.625) zero [] = [m]
       /\ MainJs.previewStart true 0.05 (mk 0 0 6.625) zero
          = (mk 0 0 6.625e6, mk 0 0 (-50000))
       /\ (multiplyScalar (position m) SCENE_SCALE, deref (physVelocity m))
          = (mk 0 0 6.625e6, mk 0 0 (-50000))
       /\ MainJs.accelPredict (mk 0 0 6.625e6) (mk 0 0 (-50000))
          <> MainJs.accel m (mk 0 0 6.625e6) (mk 0 0 (-50000)).
Proof.
  split; [apply sceneBody_is_not_arcadeStep|].
  assert (Hdir : normalize (sub zero (mk 0 0 6.625)) = mk 0 0 (-1)).
  { replace (sub zero (mk 0 0 6.625)) with (mk 0 0 (-6.625))
      by (apply vec_ext; simpl; lra).
    apply normalize_axis_neg. lra. }
  eexists. split; [reflexivity|]. split; [|split].
  - unfold MainJs.previewStart. cbv zeta. rewrite Hdir.
    f_equal; apply vec_ext; unfold SCENE_SCALE; simpl; lra.
  - cbn [position physVelocity deref]. rewrite Hdir.
    f_equal; apply vec_ext; unfold SCENE_SCALE; simpl; lra.
  - apply accelPredict_is_not_accel.
    apply (fired_area_over_mass 0.05 (mk 0 0 6.625) zero). reflexivity.
Qed.

(** ** Infall under the game-like step *)

(** One step along the radius keeps the meteor outside the center, moves
    it inward and keeps its energy non-positive. *)
Lemma infall_scalar_step (s r w : R) :
  0 < s <= 50 -> earthRadius + 0.2 <= r -> 0 <= w -> w * w * r <= 2 * gravityStrength ->
  let w' := w + gravityStrength / (r * r) * s in
  let r' := r - w' * s in
  0 < r' /\ r' < r /\ 0 <= w' /\ w' * w' * r' <= 2 * gravityStrength.
Proof.
  intros Hs Hr Hw He. unfold earthRadius, gravityStrength in *.
  assert (Hr0 : 6.571 <= r) by lra.
  assert (Hrr : 0 < r * r) by nra.
  set (a := 0.02 / (r * r) * s).
  assert (Ha : a * (r * r) = 0.02 * s) by (unfold a; field; lra).
  assert (Ha0 : 0 < a) by (unfold a; apply Rmult_lt_0_compat; [apply Rdiv_lt_0_compat|]; lra).
  assert (Ha1 : a <= 0.0232).
  { assert (a * (r * r) <= 0.0232 * (r * r)) by nra. nra. }
  assert (Hw1 : w <= 0.0782).
  { destruct (Rle_dec w 0.0782); [assumption|]. exfalso. nra. }
  cbv zeta. fold a.
  assert (Hsw : (w + a) * s <= 5.07) by nra.
  split; [lra|]. split; [nra|]. split; [lra|].
  set (w' := w + a). set (r' := r - w' * s).
  assert (Hr' : 0 < r' <= r) by (unfold r', w'; nra).
  assert (Hw' : 0 <= w') by (unfold w'; lra).
  (* multiply the goal by r * r *)
  apply Rmult_le_reg_r with (r * r); [exact Hrr|].
  assert (T1 : w * w * r' * (r * r) <= 2 * 0.02 * r' * r).
  { assert (w * w * r * (r' * r) <= 2 * 0.02 * (r' * r)).
    { apply Rmult_le_compat_r; nra. }
    nra. }
  assert (T2 : a * (2 * w + a) * r' * (r * r) <= 2 * 0.02 * s * w' * r').
  { replace (a * (2 * w + a) * r' * (r * r)) with (a * (r * r) * ((2 * w + a) * r')) by ring.
    rewrite Ha. unfold w'.
    assert ((2 * w + a) * r' <= 2 * (w + a) * r') by nra.
    nra. }
  replace (w' * w' * r' * (r * r))
    with (w * w * r' * (r * r) + a * (2 * w + a) * r' * (r * r)) by (unfold w'; ring).
  assert (2 * 0.02 * r' * r + 2 * 0.02 * s * w' * r' <= 2 * 0.02 * (r * r)).
  { replace (2 * 0.02 * r' * r + 2 * 0.02 * s * w' * r')
      with (2 * 0.02 * (r' * (r + w' * s))) by ring.
    unfold r'. nra. }
  lra.
Qed.

Lemma length_radial (u : Vec) (r : R) :
  lengthSq u = 1 -> 0 <= r -> length (multiplyScalar u r) = r.
Proof.
  intros Hu Hr. unfold length.
  replace (lengthSq (multiplyScalar u r)) with (r * r).
  - apply sqrt_square; assumption.
  - unfold lengthSq in *; simpl. 
    replace (x u * r * (x u * r) + y u * r * (y u * r) + z u * r * (z u * r))
      with ((x u * x u + y u * y u + z u * z u) * (r * r)) by ring.
    rewrite Hu. ring.
Qed.

Lemma arcadeStep_radial (s r w : R) (u : Vec) :
  lengthSq u = 1 -> 0 < r ->
  arcadeStep s (multiplyScalar u r) (multiplyScalar u (- w))
  = (multiplyScalar u (r - (w + gravityStrength / (r * r) * s) * s),
     multiplyScalar u (- (w + gravityStrength / (r * r) * s))).
Proof.
  intros Hu Hr. unfold arcadeStep, normalize, divideScalar.
  rewrite length_radial by (assumption || lra).
  rewrite orElse_nonzero by lra.
  f_equal; apply vec_ext; simpl; field; lra.
Qed.

Lemma infall_succ (s : R) (p0 : Vec) (n : nat) :
  infall s p0 (S n) = arcadeStep s (fst (infall s p0 n)) (snd (infall s p0 n)).
Proof. reflexivity. Qed.

Lemma normalize_unit (p : Vec) : 0 < length p -> lengthSq (normalize p) = 1.
Proof.
  intros Hp. unfold normalize, divideScalar. rewrite orElse_nonzero by lra.
  pose proof (length_sq p) as Hsq. unfold lengthSq in *; simpl.
  replace (x p * (1 / length p) * (x p * (1 / length p))
           + y p * (1 / length p) * (y p * (1 / length p))
           + z p * (1 / length p) * (z p * (1 / length p)))
    with ((x p * x p + y p * y p + z p * z p) / (length p * length p))
    by (field; lra).
  rewrite <- Hsq. field. lra.
Qed.

Lemma normalize_scale (p : Vec) :
  0 < length p -> multiplyScalar (normalize p) (length p) = p.
Proof.
  intros Hp. unfold normalize, divideScalar. rewrite orElse_nonzero by lra.
  apply vec_ext; simpl; field; lra.
Qed.

Lemma infall_invariant (s : R) (p0 : Vec) :
  0 < s <= 50 ->
  forall n,
    (forall k, (k <= n)%nat -> earthRadius + 0.2 <= length (fst (infall s p0 k))) ->
    exists r w,
      infall s p0 n = (multiplyScalar (normalize p0) r, multiplyScalar (normalize p0) (- w))
      /\ earthRadius + 0.2 <= r /\ 0 <= w /\ w * w * r <= 2 * gravityStrength.
Proof.
  intros Hs n. induction n as [|n IH]; intros Hfar.
  - pose proof (Hfar 0%nat (Nat.le_refl _)) as H0. simpl in H0.
    assert (Hp : 0 < length p0) by (unfold earthRadius in H0; lra).
    exists (length p0), 0. split; [|split; [exact H0 | split; [lra | unfold gravityStrength; lra]]].
    simpl. rewrite normalize_scale by assumption. f_equal.
    apply vec_ext; simpl; ring.
  - destruct IH as (r & w & Hst & Hr & Hw & He).
    { intros k Hk. apply Hfar. lia. }
    pose proof (infall_scalar_step s r w Hs Hr Hw He) as (Hr' & Hlt & Hw' & He').
    pose proof (Hfar 0%nat ltac:(lia)) as H0. simpl in H0.
    assert (Hp : 0 < length p0) by (unfold earthRadius in H0; lra).
    pose proof (normalize_unit p0 Hp) as Hu.
    assert (Hnext : infall s p0 (S n)
                    = (multiplyScalar (normalize p0) (r - (w + gravityStrength / (r * r) * s) * s),
                       multiplyScalar (normalize p0) (- (w + gravityStrength / (r * r) * s)))).
    { rewrite infall_succ, Hst. cbn [fst snd].
      apply arcadeStep_radial; [exact Hu | unfold earthRadius in Hr; lra]. }
    eexists; eexists. split; [exact Hnext|].
    split; [|split; assumption].
    specialize (Hfar (S n) (Nat.le_refl _)). rewrite Hnext in Hfar. cbn [fst] in Hfar.
    rewrite length_radial in Hfar by (assumption || lra). exact Hfar.
Qed.

(** C9, as amended: for a simulation-speed multiplier in (0, 50], a
    meteor that starts at rest under the game-like model comes strictly
    closer to the center with every frame, as long as no frame so far found
    it inside the impact radius. *)
Theorem C9_infall (s : R) (p0 : Vec) (n : nat) :
  0 < s <= 50 ->
  (forall k, (k <= n)%nat -> earthRadius + 0.2 <= length (fst (infall s p0 k))) ->
  length (fst (infall s p0 (S n))) < length (fst (infall s p0 n)).
Proof.
  intros Hs Hfar.
  destruct (infall_invariant s p0 Hs n Hfar) as (r & w & Hst & Hr & Hw & He).
  pose proof (infall_scalar_step s r w Hs Hr Hw He) as (Hr' & Hlt & Hw' & He').
  pose proof (Hfar 0%nat ltac:(lia)) as H0. simpl in H0.
  assert (Hp : 0 < length p0) by (unfold earthRadius in H0; lra).
  pose proof (normalize_unit p0 Hp) as Hu.
  rewrite infall_succ, Hst. cbn [fst snd].
  rewrite arcadeStep_radial by (assumption || unfold earthRadius in Hr; lra).
  cbn [fst]. rewrite !length_radial by (assumption || unfold earthRadius in Hr; lra).
  exact Hlt.
Qed.

(** C9, witness: from 15 scene units out, at speed 1, the first frame. *)
Lemma C9_infall_witness :
  length (fst (infall 1 (mk 0 0 15) 1)) < length (fst (infall 1 (mk 0 0 15) 0)).
Proof.
  apply (C9_infall 1 (mk 0 0 15) 0).
  - lra.
  - intros k Hk. replace k with 0%nat by lia. simpl.
    rewrite length_axis_pos by lra. unfold earthRadius. lra.
Defined.

(** C9, counterexample: at simulation speed 1000 a meteor at rest 15 scene
    units out, not yet found inside the impact radius, is thrown through
    the center and ends the frame farther out than it started. *)
Lemma C9_fast_infall_overshoots :
  earthRadius + 0.2 <= length (fst (infall 1000 (mk 0 0 15) 0))
  /\ ~ length (fst (infall 1000 (mk 0 0 15) 1))
       < length (fst (infall 1000 (mk 0 0 15) 0)).
Proof.
  rewrite infall_succ. unfold infall, zero. cbn [Nat.iter nat_rect fst snd].
  rewrite arcadeStep_axis by lra. cbn [fst].
  rewrite length_axis_pos by lra.
  rewrite length_axis_neg by (unfold gravityStrength; lra).
  unfold earthRadius, gravityStrength. split; lra.
Qed.

(** ** Time to live and fade-out *)

Section Flight.
Variable realistic : bool.
Variable simSpeed : R.

Let step (m : Meteor) : Meteor :=
  if realistic then AppJs.realisticStep simSpeed m else AppJs.gameStep simSpeed m.

Lemma step_keeps (m : Meteor) :
  active (step m) = active m /\ ttl (step m) = ttl m
  /\ fading (step m) = fading m /\ opacity (step m) = opacity m.
Proof.
  unfold step. destruct realistic.
  - repeat split.
  - unfold AppJs.gameStep. destruct (arcadeStep _ _ _). repeat split.
Qed.

Lemma keepsClear_cons (f : R) (rest : list R) (m : Meteor) :
  keepsClear realistic simSpeed (f :: rest) m ->
  earthRadius + 0.2 <= length (position m)
  /\ keepsClear realistic simSpeed rest
                (fst (AppJs.animateMeteor realistic simSpeed (AppJs.frameDt simSpeed f) m)).
Proof.
  intros Hc. split.
  - apply (Hc 0%nat). simpl. lia.
  - intros k Hk. specialize (Hc (S k)). simpl in Hc.
    destruct (AppJs.animateMeteor realistic simSpeed (AppJs.frameDt simSpeed f) m) as [m1 rep].
    cbn [fst].
    destruct (flight realistic simSpeed (firstn k rest) m1) as [m2 reps] eqn:E.
    cbn [fst] in *. apply Hc. lia.
Qed.

Lemma flight_inactive (frames : list R) (m : Meteor) :
  active m = false -> flight realistic simSpeed frames m = (m, []).
Proof.
  intros Ha. induction frames as [|f rest IH]; [reflexivity|].
  simpl. unfold AppJs.animateMeteor. rewrite Ha. simpl. rewrite IH. reflexivity.
Qed.

(** A frame that leaves the meteor flying. *)
Lemma frame_flying (dt t : R) (m : Meteor) :
  active m = true -> fading m = false -> ttl m = Some t -> dt < t ->
  earthRadius + 0.2 <= length (position m) ->
  exists m', AppJs.animateMeteor realistic simSpeed dt m = (m', None)
             /\ active m' = true /\ fading m' = false
             /\ ttl m' = Some (t - dt) /\ opacity m' = opacity m.
Proof.
  intros Ha Hf Ht Hdt Hr. unfold AppJs.animateMeteor. rewrite Ha. cbn [negb].
  fold (step m). destruct (step_keeps m) as (Ka & Kt & Kf & Ko).
  destruct (Rlt_dec _ _) as [Hlt | _]; [lra|].
  eexists. split; [reflexivity|].
  unfold AppJs.ageMeteor. rewrite Kt, Ht.
  destruct (Rle_dec (t - dt) 0) as [Hle | _]; [lra|].
  cbn [fading setTtl]. rewrite Kf, Hf. cbn. rewrite Ka, Ko, Kf.
  repeat split; assumption.
Qed.

(** A frame in which the meteor fades: it was fading already, or its TTL
    runs out in this frame. *)
Lemma frame_fading (dt : R) (m : Meteor) :
  active m = true -> 0 < opacity m ->
  fading m = true \/ (exists t, ttl m = Some t /\ t - dt <= 0) ->
  earthRadius + 0.2 <= length (position m) ->
  exists m', AppJs.animateMeteor realistic simSpeed dt m = (m', None)
             /\ fading m' = true
             /\ opacity m' = Rmax 0 (opacity m - 0.5 * dt)
             /\ active m' = (if Rle_dec (opacity m') 0 then false else true).
Proof.
  intros Ha Ho Hf Hr. unfold AppJs.animateMeteor. rewrite Ha. cbn [negb].
  fold (step m). destruct (step_keeps m) as (Ka & Kt & Kf & Ko).
  destruct (Rlt_dec _ _) as [Hlt | _]; [lra|].
  eexists. split; [reflexivity|].
  unfold AppJs.ageMeteor.
  set (t' := match ttl (step m) with None => 8.0 | Some t => t - dt end).
  set (m2 := if Rle_dec t' 0
             then setFading (setTtl (step m) (Some t')) true
             else setTtl (step m) (Some t')).
  assert (Hfad : fading m2 = true).
  { unfold m2. destruct (Rle_dec t' 0) as [_ | Hn]; [reflexivity|].
    cbn. rewrite Kf. destruct Hf as [Hf | (t & Ht & Hle)]; [exact Hf|].
    exfalso. apply Hn. unfold t'. rewrite Kt, Ht. exact Hle. }
  assert (Hop : opacity m2 = opacity m)
    by (unfold m2; destruct (Rle_dec t' 0); cbn; exact Ko).
  assert (Hac : active m2 = true)
    by (unfold m2; destruct (Rle_dec t' 0); cbn; congruence).
  rewrite Hfad, Hop. rewrite orElse_nonzero by lra.
  set (o := Rmax 0 (opacity m - 0.5 * dt)).
  destruct (Rle_dec o 0) as [Hz | Hz]; cbn [fading opacity active setOpacity setActive];
    destruct (Rle_dec o 0); try contradiction; auto.
Qed.

Lemma flight_app (a b : list R) (m : Meteor) :
  flight realistic simSpeed (a ++ b) m
  = (let '(m1, r1) := flight realistic simSpeed a m in
     let '(m2, r2) := flight realistic simSpeed b m1 in
     (m2, r1 ++ r2)).
Proof.
  revert m. induction a as [|f a IH]; intros m; simpl.
  - destruct (flight realistic simSpeed b m); reflexivity.
  - destruct (AppJs.animateMeteor realistic simSpeed (AppJs.frameDt simSpeed f) m) as [m1 rep].
    rewrite IH.
    destruct (flight realistic simSpeed a m1) as [m2 r1].
    destruct (flight realistic simSpeed b m2) as [m3 r2].
    destruct rep; reflexivity.
Qed.

Lemma keepsClear_app (a b : list R) (m : Meteor) :
  keepsClear realistic simSpeed (a ++ b) m ->
  keepsClear realistic simSpeed a m
  /\ keepsClear realistic simSpeed b (fst (flight realistic simSpeed a m)).
Proof.
  revert m. induction a as [|f a IH]; intros m Hc.
  - split; [intros k Hk; simpl in Hk; lia | exact Hc].
  - change ((f :: a) ++ b) with (f :: (a ++ b)) in Hc.
    apply keepsClear_cons in Hc. destruct Hc as [H0 Hc].
    apply IH in Hc. destruct Hc as [Ha Hb]. split.
    + intros k Hk. destruct k as [|k]; [exact H0|].
      simpl. specialize (Ha k).
      destruct (AppJs.animateMeteor realistic simSpeed (AppJs.frameDt simSpeed f) m) as [m1 rep].
      cbn [fst] in Ha.
      destruct (flight realistic simSpeed (firstn k a) m1) as [m2 reps].
      cbn [fst] in *. apply Ha. simpl in Hk. lia.
    + simpl.
      destruct (AppJs.animateMeteor realistic simSpeed (AppJs.frameDt simSpeed f) m) as [m1 rep].
      cbn [fst] in Hb.
      destruct (flight realistic simSpeed a m1) as [m2 reps]. exact Hb.
Qed.

Lemma simTime_nonneg (frames : list R) :
  Forall (fun f => 0 <= AppJs.frameDt simSpeed f) frames -> 0 <= simTime simSpeed frames.
Proof.
  induction 1 as [|f rest Hf _ IH]; simpl; lra.
Qed.

Lemma simTime_app (a b : list R) :
  simTime simSpeed (a ++ b) = simTime simSpeed a + simTime simSpeed b.
Proof. induction a as [|f a IH]; simpl; [lra | rewrite IH; lra]. Qed.

Lemma flight_flying (frames : list R) :
  forall (m : Meteor) (t : R),
    active m = true -> fading m = false -> ttl m = Some t ->
    Forall (fun f => 0 <= AppJs.frameDt simSpeed f) frames ->
    keepsClear realistic simSpeed frames m ->
    simTime simSpeed frames < t ->
    exists m', flight realistic simSpeed frames m = (m', [])
               /\ active m' = true /\ fading m' = false
               /\ ttl m' = Some (t - simTime simSpeed frames)
               /\ opacity m' = opacity m.
Proof.
  induction frames as [|f rest IH]; intros m t Ha Hf Ht Hdt Hc HT.
  - exists m. simpl. rewrite Rminus_0_r. auto.
  - inversion Hdt as [|? ? Hf0 Hrest]; subst.
    apply keepsClear_cons in Hc. destruct Hc as [H0 Hc].
    pose proof (simTime_nonneg rest Hrest) as Hnn. simpl in HT.
    destruct (frame_flying (AppJs.frameDt simSpeed f) t m Ha Hf Ht ltac:(lra) H0)
      as (m1 & E1 & Ha1 & Hf1 & Ht1 & Ho1).
    rewrite E1 in Hc. cbn [fst] in Hc.
    destruct (IH m1 _ Ha1 Hf1 Ht1 Hrest Hc ltac:(lra))
      as (m' & E' & Ha' & Hf' & Ht' & Ho').
    exists m'. simpl. rewrite E1, E'. repeat split; try assumption.
    + rewrite Ht'. f_equal. lra.
    + congruence.
Qed.

Lemma flight_fading (frames : list R) :
  forall (m : Meteor),
    active m = true -> 0 < opacity m -> fading m = true ->
    Forall (fun f => 0 <= AppJs.frameDt simSpeed f) frames ->
    keepsClear realistic simSpeed frames m ->
    exists m', flight realistic simSpeed frames m = (m', [])
               /\ fading m' = true
               /\ opacity m' = Rmax 0 (opacity m - 0.5 * simTime simSpeed frames)
               /\ active m' = (if Rle_dec (opacity m') 0 then false else true).
Proof.
  induction frames as [|f rest IH]; intros m Ha Ho Hf Hdt Hc.
  - exists m. simpl. rewrite Rmult_0_r, Rminus_0_r, Rmax_right by lra.
    repeat split; try assumption.
    destruct (Rle_dec (opacity m) 0); [lra | assumption].
  - inversion Hdt as [|? ? Hf0 Hrest]; subst.
    apply keepsClear_cons in Hc. destruct Hc as [H0 Hc].
    pose proof (simTime_nonneg rest Hrest) as Hnn.
    destruct (frame_fading (AppJs.frameDt simSpeed f) m Ha Ho (or_introl Hf) H0)
      as (m1 & E1 & Hf1 & Ho1 & Ha1).
    rewrite E1 in Hc. cbn [fst] in Hc. simpl. rewrite E1.
    destruct (Rle_dec (opacity m1) 0) as [Hz | Hz].
    + rewrite (flight_inactive rest m1 Ha1). exists m1.
      repeat split; try assumption.
      * assert (opacity m1 = 0).
        { rewrite Ho1 in *. pose proof (Rmax_l 0 (opacity m - 0.5 * AppJs.frameDt simSpeed f)). lra. }
        assert (opacity m - 0.5 * AppJs.frameDt simSpeed f <= 0).
        { rewrite Ho1 in Hz. pose proof (Rmax_r 0 (opacity m - 0.5 * AppJs.frameDt simSpeed f)). lra. }
        rewrite Rmax_left by lra. assumption.
      * destruct (Rle_dec (opacity m1) 0); [assumption | contradiction].
    + assert (Hpos : 0 < opacity m1) by lra.
      assert (Ho1' : opacity m1 = opacity m - 0.5 * AppJs.frameDt simSpeed f).
      { rewrite Ho1 in *. unfold Rmax in *.
        destruct (Rle_dec 0 (opacity m - 0.5 * AppJs.frameDt simSpeed f)); lra. }
      destruct (IH m1 Ha1 Hpos Hf1 Hrest Hc) as (m' & E' & Hf' & Ho' & Ha').
      exists m'. rewrite E'. repeat split; try assumption.
      rewrite Ho', Ho1'. f_equal. lra.
Qed.

End Flight.

(** C8: a meteor of [app.js] with one second to live that keeps clear of
    the impact radius flies, untouched, through every frame before the
    simulated time reaches 1.0; in the frame in which it reaches 1.0 the
    meteor starts fading, and from the start of that frame its opacity
    falls by 0.5 per simulated second; it is removed (made inactive)
    exactly when the opacity has reached 0; no frame reports an impact. *)
Theorem C8_ttl_expiry (realistic : bool) (simSpeed : R)
        (pre : list R) (d : R) (post : list R) (m : Meteor) :
  active m = true -> fading m = false -> ttl m = Some 1 -> opacity m = 1 ->
  Forall (fun f => 0 <= AppJs.frameDt simSpeed f) (pre ++ d :: post) ->
  keepsClear realistic simSpeed (pre ++ d :: post) m ->
  simTime simSpeed pre < 1 <= simTime simSpeed (pre ++ [d]) ->
  (exists m1, flight realistic simSpeed pre m = (m1, [])
              /\ active m1 = true /\ fading m1 = false /\ opacity m1 = 1
              /\ ttl m1 = Some (1 - simTime simSpeed pre))
  /\ (exists m2, flight realistic simSpeed (pre ++ d :: post) m = (m2, [])
                 /\ fading m2 = true
                 /\ opacity m2 = Rmax 0 (1 - 0.5 * simTime simSpeed (d :: post))
                 /\ active m2 = (if Rle_dec (opacity m2) 0 then false else true)).
Proof.
  intros Ha Hf Ht Ho Hdt Hc [Hpre Hd].
  apply Forall_app in Hdt. destruct Hdt as [Hdt1 Hdt2].
  apply keepsClear_app in Hc. destruct Hc as [Hc1 Hc2].
  destruct (flight_flying realistic simSpeed pre m 1 Ha Hf Ht Hdt1 Hc1 Hpre)
    as (m1 & E1 & Ha1 & Hf1 & Ht1 & Ho1).
  split.
  - exists m1. repeat split; try assumption. congruence.
  - rewrite E1 in Hc2. cbn [fst] in Hc2.
    rewrite flight_app, E1.
    inversion Hdt2 as [|? ? Hd0 Hpost]; subst.
    pose proof (keepsClear_cons realistic simSpeed d post m1 Hc2) as [H0 Hc3].
    rewrite simTime_app in Hd. cbn [simTime] in Hd.
    assert (Hexp : exists t, ttl m1 = Some t /\ t - AppJs.frameDt simSpeed d <= 0)
      by (eexists; split; [exact Ht1 | lra]).
    destruct (frame_fading realistic simSpeed (AppJs.frameDt simSpeed d) m1 Ha1 ltac:(lra)
                (or_intror Hexp) H0)
      as (m2 & E2 & Hf2 & Ho2 & Ha2).
    rewrite E2 in Hc3. cbn [fst] in Hc3.
    pose proof (simTime_nonneg simSpeed post Hpost) as Hnn.
    cbn [flight simTime]. rewrite E2.
    destruct (Rle_dec (opacity m2) 0) as [Hz | Hz].
    + rewrite (flight_inactive realistic simSpeed post m2 Ha2). exists m2.
      repeat split; try assumption.
      * pose proof (Rmax_l 0 (opacity m1 - 0.5 * AppJs.frameDt simSpeed d)).
        pose proof (Rmax_r 0 (opacity m1 - 0.5 * AppJs.frameDt simSpeed d)).
        rewrite Rmax_left by lra. lra.
      * destruct (Rle_dec (opacity m2) 0); [assumption | contradiction].
    + assert (Hpos : 0 < opacity m2) by lra.
      assert (Ho2' : opacity m2 = 1 - 0.5 * AppJs.frameDt simSpeed d).
      { rewrite Ho2, Ho1, Ho in *. unfold Rmax in *.
        destruct (Rle_dec 0 (1 - 0.5 * AppJs.frameDt simSpeed d)); lra. }
      destruct (flight_fading realistic simSpeed post m2 Ha2 Hpos Hf2 Hpost Hc3)
        as (m' & E' & Hf' & Ho' & Ha').
      exists m'. rewrite E'. repeat split; try assumption.
      rewrite Ho', Ho2'. f_equal. lra.
Qed.

(** C8, witness: the meteor of the scenario through one frame of two
    seconds. *)
Lemma C8_ttl_expiry_witness :
  (exists m1, flight false 1 [] fadingMeteor = (m1, [])
              /\ active m1 = true /\ fading m1 = false /\ opacity m1 = 1
              /\ ttl m1 = Some (1 - simTime 1 []))
  /\ (exists m2, flight false 1 ([] ++ 2000 :: []) fadingMeteor = (m2, [])
                 /\ fading m2 = true
                 /\ opacity m2 = Rmax 0 (1 - 0.5 * simTime 1 (2000 :: []))
                 /\ active m2 = (if Rle_dec (opacity m2) 0 then false else true)).
Proof.
  apply (C8_ttl_expiry false 1 [] 2000 [] fadingMeteor); try reflexivity.
  - constructor; [unfold AppJs.frameDt; lra | constructor].
  - intros k Hk. simpl in Hk. replace k with 0%nat by lia. simpl.
    rewrite length_axis_pos by lra. unfold earthRadius. lra.
  - simpl. unfold AppJs.frameDt. lra.
Defined.

(** ** The preview on objects *)

(** *** The store *)

Lemma length_update (h : Heap) (r : Ref) (v : Vec) :
  List.length (update h r v) = List.length h.
Proof. revert r; induction h as [|a h IH]; intros [|r]; simpl; auto. Qed.

Lemma lookup_update_same (h : Heap) (r : Ref) (v : Vec) :
  (r < List.length h)%nat -> lookup (update h r v) r = v.
Proof.
  unfold lookup. revert r; induction h as [|a h IH]; intros [|r] Hr;
    simpl in *; try lia; auto.
  apply IH; lia.
Qed.

Lemma lookup_update_other (h : Heap) (r l : Ref) (v : Vec) :
  r <> l -> lookup (update h r v) l = lookup h l.
Proof.
  unfold lookup. revert r l; induction h as [|a h IH]; intros [|r] [|l] Hr;
    simpl in *; try lia; auto.
Qed.

Lemma lookup_app_base (H T : Heap) (r : Ref) :
  (r < List.length H)%nat -> lookup (H ++ T) r = lookup H r.
Proof. intros; unfold lookup; apply app_nth1; assumption. Qed.

Lemma lookup_app_tmp (H T : Heap) (n k : nat) :
  List.length H = n -> lookup (H ++ T) (n + k)%nat = nth k T Vector3.zero.
Proof. intros <-. unfold lookup. apply app_nth2_plus. Qed.

Lemma update_app_base (H T : Heap) (r : Ref) (v : Vec) :
  (r < List.length H)%nat -> update (H ++ T) r v = update H r v ++ T.
Proof.
  revert r; induction H as [|a H IH]; intros [|r] Hr; simpl in *; try lia; auto.
  f_equal. apply IH; lia.
Qed.

Lemma update_app_tmp (H T : Heap) (n k : nat) (v : Vec) :
  List.length H = n -> update (H ++ T) (n + k)%nat v = H ++ update T k v.
Proof.
  intros <-. induction H as [|a H IH]; simpl; [reflexivity | f_equal; exact IH].
Qed.

Lemma app_app_tmp (H T T' : Heap) : (H ++ T) ++ T' = H ++ (T ++ T').
Proof. symmetry; apply app_assoc. Qed.

(** *** One method call at a time

    Each lemma runs the first call of a computation; what it reads from
    the store and the store it leaves are premises, so that they can be
    worked out on their own. *)

Section Steps.

Context {B : Type}.
Variable f : Ref -> M B.

Lemma step_clone (r : Ref) (h h' : Heap) (a : Vec) (n : nat) :
  lookup h r = a -> List.length h = n -> h ++ [a] = h' ->
  bind (V3.clone r) f h = f n h'.
Proof. intros <- <- <-. reflexivity. Qed.

Lemma step_add (r s : Ref) (h h' : Heap) (a b : Vec) :
  lookup h r = a -> lookup h s = b -> update h r (Vector3.add a b) = h' ->
  bind (V3.add r s) f h = f r h'.
Proof. intros <- <- <-. reflexivity. Qed.

Lemma step_sub (r s : Ref) (h h' : Heap) (a b : Vec) :
  lookup h r = a -> lookup h s = b -> update h r (Vector3.sub a b) = h' ->
  bind (V3.sub r s) f h = f r h'.
Proof. intros <- <- <-. reflexivity. Qed.

Lemma step_multiplyScalar (r : Ref) (k : R) (h h' : Heap) (a : Vec) :
  lookup h r = a -> update h r (Vector3.multiplyScalar a k) = h' ->
  bind (V3.multiplyScalar r k) f h = f r h'.
Proof. intros <- <-. reflexivity. Qed.

Lemma step_normalize (r : Ref) (h h' : Heap) (a : Vec) :
  lookup h r = a -> update h r (Vector3.normalize a) = h' ->
  bind (V3.normalize r) f h = f r h'.
Proof. intros <- <-. reflexivity. Qed.

End Steps.

Lemma step_length {B : Type} (f : R -> M B) (r : Ref) (h : Heap) (a : Vec) :
  lookup h r = a -> bind (V3.length r) f h = f (Vector3.length a) h.
Proof. intros <-. reflexivity. Qed.

Lemma step_ret {A B : Type} (a : A) (f : A -> M B) (h : Heap) :
  bind (ret a) f h = f a h.
Proof. reflexivity. Qed.

Lemma step_assoc {A B C : Type} (m : M A) (k : A -> M B) (f : B -> M C) (h : Heap) :
  bind (bind m k) f h = bind m (fun a => bind (k a) f) h.
Proof. unfold bind. destruct (m h). reflexivity. Qed.

(** Side conditions on references, and the normal form [base ++ temps] of
    a store in which the temporaries are listed one by one. *)
Ltac heap_side :=
  rewrite ?length_app, ?length_update; cbn [List.length];
  (assumption || reflexivity || lia).

Ltac solve_lookup :=
  first
    [ rewrite lookup_app_tmp by heap_side; cbn [nth]; reflexivity
    | rewrite lookup_app_base by heap_side;
      repeat first [ rewrite lookup_update_same by heap_side
                   | rewrite lookup_update_other by heap_side ];
      reflexivity ].

Ltac solve_update :=
  first
    [ rewrite update_app_tmp by heap_side; cbn [update]; reflexivity
    | rewrite update_app_base by heap_side; reflexivity ].

Ltac solve_length :=
  rewrite length_app, ?length_update; cbn [List.length]; reflexivity.

Ltac solve_alloc := rewrite app_app_tmp; cbn [app]; reflexivity.

Ltac side :=
  first [ solve_lookup | solve_update | solve_length | solve_alloc | heap_side ].

Ltac heap_step :=
  first
    [ erewrite step_clone; [ | side .. ]
    | erewrite step_add; [ | side .. ]
    | erewrite step_sub; [ | side .. ]
    | erewrite step_multiplyScalar; [ | side .. ]
    | erewrite step_normalize; [ | side .. ]
    | erewrite step_length; [ | side .. ]
    | rewrite step_ret
    | rewrite step_assoc ];
  cbv beta zeta.

Lemma frame_refl (h : Heap) (ws : list Ref) : frame h h ws.
Proof. split; auto. Qed.

(** *** The acceleration closures *)

Lemma step_accel {B : Type} (f : Ref -> M B) (p vv : Ref) (h h' : Heap)
      (a b : Vec) (n : nat) :
  (p < List.length h)%nat -> (vv < List.length h)%nat ->
  lookup h p = a -> lookup h vv = b -> List.length h = n ->
  h ++ [MainJs.accelPredict a b;
        Vector3.multiplyScalar b
          (- 0.5 * MainJs.atmosphericDensity (Vector3.length a - earthRadiusMeters)
           * Rmax 1e-6 (Vector3.length b) * MainJs.Cd * 1.0 / 1.0)] = h' ->
  bind (MainJsObj.accel p vv) f h = f n h'.
Proof.
  intros Hp Hv <- <- <- <-. unfold MainJsObj.accel.
  rewrite <- (app_nil_r h) at 1.
  repeat heap_step.
  rewrite Nat.add_0_r. reflexivity.
Qed.

Lemma step_accelScene {B : Type} (f : Ref -> M B) (p v : Ref) (h h' : Heap)
      (a : Vec) (n : nat) :
  (p < List.length h)%nat ->
  lookup h p = a -> List.length h = n -> h ++ [MainJs.accelScene a] = h' ->
  bind (MainJsObj.accelScene p v) f h = f n h'.
Proof.
  intros Hp <- <- <-. unfold MainJsObj.accelScene.
  rewrite <- (app_nil_r h) at 1.
  repeat heap_step.
  rewrite Nat.add_0_r. reflexivity.
Qed.


Ltac heap_go :=
  first
    [ erewrite step_accel; [ | side .. ]
    | erewrite step_accelScene; [ | side .. ]
    | heap_step ].

Lemma from_base {A : Type} (m : M A) (h : Heap) : m h = m (h ++ []).
Proof. rewrite app_nil_r. reflexivity. Qed.

(** *** The loop bodies and tests *)

Lemma eulerBody_run (dt : R) (h : Heap) (p q : Ref) :
  (p < List.length h)%nat -> (q < List.length h)%nat -> p <> q ->
  exists T,
    AppJsObj.eulerBody dt p q h
    = (tt, update (update h q (snd (AppJs.eulerBody dt (lookup h p, lookup h q))))
                  p (fst (AppJs.eulerBody dt (lookup h p, lookup h q))) ++ T).
Proof.
  intros Hp Hq Hpq. eexists.
  unfold AppJs.eulerBody, arcadeStep. cbn [fst snd]. cbv zeta.
  rewrite from_base. unfold AppJsObj.eulerBody.
  repeat heap_go. unfold ret. reflexivity.
Qed.

Lemma realisticBody_run (dt : R) (h : Heap) (p q : Ref) :
  (p < List.length h)%nat -> (q < List.length h)%nat -> p <> q ->
  exists T,
    MainJsObj.rk4Body MainJsObj.accel dt p q h
    = (tt, update (update h p (fst (MainJs.realisticBody dt (lookup h p, lookup h q))))
                  q (snd (MainJs.realisticBody dt (lookup h p, lookup h q))) ++ T).
Proof.
  intros Hp Hq Hpq. eexists.
  unfold MainJs.realisticBody, MainJs.rk4Step. cbn [fst snd]. cbv zeta.
  rewrite from_base. unfold MainJsObj.rk4Body.
  repeat heap_go. unfold ret. reflexivity.
Qed.

Lemma sceneBody_run (dt : R) (h : Heap) (p q : Ref) :
  (p < List.length h)%nat -> (q < List.length h)%nat -> p <> q ->
  exists T,
    MainJsObj.sceneBody dt p q h
    = (tt, update (update h p (fst (MainJs.sceneBody dt (lookup h p, lookup h q))))
                  q (snd (MainJs.sceneBody dt (lookup h p, lookup h q))) ++ T).
Proof.
  intros Hp Hq Hpq. eexists.
  unfold MainJs.sceneBody, MainJs.rk4Step. cbn [fst snd]. cbv zeta.
  rewrite from_base. unfold MainJsObj.sceneBody, MainJsObj.rk4Body.
  repeat heap_go. unfold ret. reflexivity.
Qed.

Lemma frame_two_updates (h T : Heap) (p q : Ref) (a b : Vec) :
  frame h (update (update h p a) q b ++ T) [p; q].
Proof.
  split.
  - rewrite length_app, !length_update. lia.
  - intros l Hl Hn. cbn [In] in Hn.
    rewrite lookup_app_base by (rewrite !length_update; exact Hl).
    rewrite !lookup_update_other by tauto. reflexivity.
Qed.

Lemma frame_two_updates_swapped (h T : Heap) (p q : Ref) (a b : Vec) :
  frame h (update (update h q b) p a ++ T) [p; q].
Proof.
  split.
  - rewrite length_app, !length_update. lia.
  - intros l Hl Hn. cbn [In] in Hn.
    rewrite lookup_app_base by (rewrite !length_update; exact Hl).
    rewrite !lookup_update_other by tauto. reflexivity.
Qed.

Lemma refinesBody_of_run (bodyObj : Ref -> Ref -> M unit)
      (body : Vec * Vec -> Vec * Vec) :
  (forall h p q,
      (p < List.length h)%nat -> (q < List.length h)%nat -> p <> q ->
      exists T, bodyObj p q h
                = (tt, update (update h p (fst (body (lookup h p, lookup h q))))
                              q (snd (body (lookup h p, lookup h q))) ++ T)) ->
  refinesBody bodyObj body.
Proof.
  intros Hrun h p q u h' Hp Hq Hpq E.
  destruct (Hrun h p q Hp Hq Hpq) as [T R].
  assert (Eh : h' = update (update h p (fst (body (lookup h p, lookup h q))))
                           q (snd (body (lookup h p, lookup h q))) ++ T) by congruence.
  subst h'. split; [apply frame_two_updates|].
  rewrite !lookup_app_base by (rewrite !length_update; assumption).
  rewrite lookup_update_same by (rewrite length_update; assumption).
  rewrite lookup_update_other by (intros K; apply Hpq; symmetry; exact K).
  rewrite lookup_update_same by assumption.
  symmetry. apply surjective_pairing.
Qed.

Lemma refinesBody_of_run_swapped (bodyObj : Ref -> Ref -> M unit)
      (body : Vec * Vec -> Vec * Vec) :
  (forall h p q,
      (p < List.length h)%nat -> (q < List.length h)%nat -> p <> q ->
      exists T, bodyObj p q h
                = (tt, update (update h q (snd (body (lookup h p, lookup h q))))
                              p (fst (body (lookup h p, lookup h q))) ++ T)) ->
  refinesBody bodyObj body.
Proof.
  intros Hrun h p q u h' Hp Hq Hpq E.
  destruct (Hrun h p q Hp Hq Hpq) as [T R].
  assert (Eh : h' = update (update h q (snd (body (lookup h p, lookup h q))))
                           p (fst (body (lookup h p, lookup h q))) ++ T) by congruence.
  subst h'. split; [apply frame_two_updates_swapped|].
  rewrite !lookup_app_base by (rewrite !length_update; assumption).
  rewrite lookup_update_same by (rewrite length_update; assumption).
  rewrite lookup_update_other by exact Hpq.
  rewrite lookup_update_same by assumption.
  symmetry. apply surjective_pairing.
Qed.

Lemma realisticBody_refines (dt : R) :
  refinesBody (MainJsObj.rk4Body MainJsObj.accel dt) (MainJs.realisticBody dt).
Proof. apply refinesBody_of_run. exact (realisticBody_run dt). Qed.

Lemma sceneBody_refines (dt : R) :
  refinesBody (MainJsObj.sceneBody dt) (MainJs.sceneBody dt).
Proof. apply refinesBody_of_run. exact (sceneBody_run dt). Qed.

Lemma eulerBody_refines (dt : R) :
  refinesBody (AppJsObj.eulerBody dt) (AppJs.eulerBody dt).
Proof. apply refinesBody_of_run_swapped. exact (eulerBody_run dt). Qed.

(** The tests of the loops. *)

Lemma frame_alloc (h T : Heap) : frame h (h ++ T) [].
Proof.
  split; [rewrite length_app; lia|].
  intros l Hl _. apply lookup_app_base. exact Hl.
Qed.

Lemma hitMeters_refines : refinesHit MainJsObj.hitMeters MainJs.hitMeters.
Proof.
  intros h p res h' Hp E. revert E.
  unfold MainJsObj.hitMeters, MainJs.hitMeters. cbv zeta.
  rewrite from_base. rewrite (step_length _ p (h ++ []) (lookup h p))
    by (apply lookup_app_base; exact Hp).
  destruct (Rlt_dec _ _) as [Hlt | Hge].
  - repeat heap_go. unfold ret. intros E. injection E as <- <-.
    split; [apply frame_alloc|].
    exists (List.length h + 0)%nat. split; [reflexivity|]. split.
    + rewrite length_app. cbn [List.length]. lia.
    + rewrite lookup_app_tmp by reflexivity. reflexivity.
  - unfold ret. intros E. injection E as <- <-.
    split; [apply frame_alloc | reflexivity].
Qed.

Lemma hitScene_refines : refinesHit MainJsObj.hitScene MainJs.hitScene.
Proof.
  intros h p res h' Hp E. revert E.
  unfold MainJsObj.hitScene, MainJs.hitScene.
  rewrite from_base. rewrite (step_length _ p (h ++ []) (lookup h p))
    by (apply lookup_app_base; exact Hp).
  destruct (Rlt_dec _ _) as [Hlt | Hge].
  - repeat heap_go. unfold ret. intros E. injection E as <- <-.
    split; [apply frame_alloc|].
    exists (List.length h + 0)%nat. split; [reflexivity|]. split.
    + rewrite length_app. cbn [List.length]. lia.
    + rewrite lookup_app_tmp by reflexivity. reflexivity.
  - unfold ret. intros E. injection E as <- <-.
    split; [apply frame_alloc | reflexivity].
Qed.

Lemma app_hitScene_refines : refinesHit AppJsObj.hitScene AppJs.hitScene.
Proof.
  intros h p res h' Hp E. revert E.
  unfold AppJsObj.hitScene, AppJs.hitScene.
  rewrite from_base. rewrite (step_length _ p (h ++ []) (lookup h p))
    by (apply lookup_app_base; exact Hp).
  destruct (Rlt_dec _ _) as [Hlt | Hge].
  - repeat heap_go. unfold ret. intros E. injection E as <- <-.
    split; [apply frame_alloc|].
    exists (List.length h + 0)%nat. split; [reflexivity|]. split.
    + rewrite length_app. cbn [List.length]. lia.
    + rewrite lookup_app_tmp by reflexivity. reflexivity.
  - unfold ret. intros E. injection E as <- <-.
    split; [apply frame_alloc | reflexivity].
Qed.

Lemma escapedMeters_refines : refinesEscaped MainJsObj.escapedMeters MainJs.escapedMeters.
Proof. intros h p. reflexivity. Qed.

Lemma escapedScene_refines : refinesEscaped MainJsObj.escapedScene MainJs.escapedScene.
Proof. intros h p. reflexivity. Qed.

Lemma app_escapedScene_refines : refinesEscaped AppJsObj.escapedScene AppJs.escapedScene.
Proof. intros h p. reflexivity. Qed.

(** *** The loop *)

Section LoopRefinement.

Variable bodyObj : Ref -> Ref -> M unit.
Variable hitObj : Ref -> M (option Ref).
Variable escapedObj : Ref -> M bool.
Variable body : Vec * Vec -> Vec * Vec.
Variable hit : Vec -> option Vec.
Variable escaped : Vec -> bool.
Hypothesis Hbody : refinesBody bodyObj body.
Hypothesis Hhit : refinesHit hitObj hit.
Hypothesis Hesc : refinesEscaped escapedObj escaped.

Lemma forStepsObj_refines (n : nat) :
  forall h p q res h',
    (p < List.length h)%nat -> (q < List.length h)%nat -> p <> q ->
    forStepsObj bodyObj hitObj escapedObj n p q h = (res, h') ->
    frame h h' [p; q]
    /\ holds h h' res (fst (forSteps body hit escaped n (lookup h p, lookup h q))).
Proof.
  induction n as [|n IH]; intros h p q res h' Hp Hq Hpq E.
  - simpl in *. injection E as <- <-. split; [apply frame_refl | reflexivity].
  - cbn [forStepsObj forSteps] in *. unfold bind in E.
    destruct (bodyObj p q h) as [u h1] eqn:E1.
    destruct (Hbody h p q u h1 Hp Hq Hpq E1) as [[L1 F1] B1].
    rewrite <- B1. cbn [fst snd].
    destruct (hitObj p h1) as [r1 h2] eqn:E2.
    destruct (Hhit h1 p r1 h2 ltac:(lia) E2) as [[L2 F2] B2].
    assert (F12 : forall l, (l < List.length h)%nat -> ~ In l [p; q] ->
                            lookup h2 l = lookup h l).
    { intros l Hl Hn. rewrite F2; [apply F1; assumption | lia | auto]. }
    destruct (hit (lookup h1 p)) as [v|].
    + destruct B2 as (r & -> & Hr & Hv). injection E as <- <-. cbn [fst].
      split; [split; [lia | exact F12]|].
      exists r. split; [reflexivity|]. split; [lia | exact Hv].
    + cbn in B2. subst r1. rewrite (Hesc h2 p) in E.
      assert (Hp2 : lookup h2 p = lookup h1 p) by (apply F2; [lia | auto]).
      assert (Hq2 : lookup h2 q = lookup h1 q) by (apply F2; [lia | auto]).
      rewrite Hp2 in E.
      destruct (escaped (lookup h1 p)).
      * injection E as <- <-. cbn [fst].
        split; [split; [lia | exact F12] | reflexivity].
      * destruct (IH h2 p q res h' ltac:(lia) ltac:(lia) Hpq E) as [[L3 F3] B3].
        rewrite Hp2, Hq2 in B3.
        destruct (forSteps body hit escaped n (lookup h1 p, lookup h1 q)) as [r0 k].
        cbn [fst] in *. split.
        -- split; [lia|]. intros l Hl Hn.
           rewrite F3; [apply F12; assumption | lia | assumption].
        -- destruct r0 as [v|]; [|exact B3].
           destruct B3 as (r & -> & Hr & Hv). exists r. split; [reflexivity|].
           split; [lia | exact Hv].
Qed.

End LoopRefinement.

(** *** The preview as a whole *)

Lemma loop_from_temps (h T h' : Heap) (p q : Ref) (res : option Ref) (v : option Vec) :
  (List.length h <= p)%nat -> (List.length h <= q)%nat ->
  frame (h ++ T) h' [p; q] /\ holds (h ++ T) h' res v ->
  frame h h' [] /\ holds h h' res v.
Proof.
  intros Hp Hq [[L F] Hh]. rewrite length_app in L. split.
  - split; [lia|]. intros l Hl _.
    rewrite F.
    + apply lookup_app_base. exact Hl.
    + rewrite length_app. lia.
    + cbn [In]. intros [K | [K | []]]; lia.
  - destruct v as [a|]; [|exact Hh].
    destruct Hh as (r & -> & Hr & Hv). rewrite length_app in Hr.
    exists r. split; [reflexivity|]. split; [lia | exact Hv].
Qed.

Lemma main_predictHit_refines (realistic : bool) (simSpeed speed : R)
      (camera cursor : Ref) (h h' : Heap) (res : option Ref) :
  (camera < List.length h)%nat -> (cursor < List.length h)%nat ->
  MainJsObj.predictHit realistic simSpeed speed camera cursor h = (res, h') ->
  frame h h' []
  /\ holds h h' res
       (MainJs.updatePredictedImpact realistic simSpeed speed
          (lookup h camera) (lookup h cursor)).
Proof.
  intros Hc Hk.
  unfold MainJs.updatePredictedImpact, MainJs.predictRun, MainJs.previewStart.
  cbv zeta. unfold MainJsObj.predictHit. rewrite from_base.
  destruct realistic.
  - repeat heap_go. intros E.
    eapply forStepsObj_refines in E;
      [ | apply realisticBody_refines | apply hitMeters_refines
        | apply escapedMeters_refines | heap_side | heap_side | lia ].
    rewrite !lookup_app_tmp in E by reflexivity. cbn [nth] in E.
    eapply loop_from_temps; [| | exact E]; lia.
  - repeat heap_go. intros E.
    eapply forStepsObj_refines in E;
      [ | apply sceneBody_refines | apply hitScene_refines
        | apply escapedScene_refines | heap_side | heap_side | lia ].
    rewrite !lookup_app_tmp in E by reflexivity. cbn [nth] in E.
    eapply loop_from_temps; [| | exact E]; lia.
Qed.

Lemma app_predictHit_refines (simSpeed : R) (speedInput : option R)
      (camera cursor : Ref) (h h' : Heap) (res : option Ref) :
  (camera < List.length h)%nat -> (cursor < List.length h)%nat ->
  AppJsObj.predictHit simSpeed speedInput camera cursor h = (res, h') ->
  frame h h' []
  /\ holds h h' res
       (AppJs.updatePredictedImpact simSpeed speedInput
          (lookup h camera) (lookup h cursor)).
Proof.
  intros Hc Hk.
  unfold AppJs.updatePredictedImpact, AppJs.predictRun, AppJs.previewStart.
  cbv zeta. unfold AppJsObj.predictHit. cbv zeta. rewrite from_base.
  repeat heap_go. intros E.
  eapply forStepsObj_refines in E;
    [ | apply eulerBody_refines | apply app_hitScene_refines
      | apply app_escapedScene_refines | heap_side | heap_side | lia ].
  rewrite !lookup_app_tmp in E by reflexivity. cbn [nth] in E.
  eapply loop_from_temps; [| | exact E]; lia.
Qed.

(** Placing the marker: what the scene shows afterwards, and what it
    leaves as it was. *)
Lemma showPrediction_spec (s : Scene) (res : option Ref) (h' : Heap) (v : option Vec) :
  wellFormed s ->
  frame (heap s) h' [] -> holds (heap s) h' res v ->
  let s' := showPrediction s (res, h') in
  prediction s' = v
  /\ liveMeteors s' = liveMeteors s
  /\ (forall o, In o (liveMeteors s) -> snapshot (heap s') o = snapshot (heap s) o)
  /\ wellFormed s'
  /\ lookup (heap s') (cameraPosition s') = lookup (heap s) (cameraPosition s)
  /\ lookup (heap s') (cursorPosition s') = lookup (heap s) (cursorPosition s).
Proof.
  intros (Hcam & Hcur & Hmark & Hcm & Hkm & Hlive) [L F] Hh.
  assert (Fk : forall l, (l < List.length (heap s))%nat -> lookup h' l = lookup (heap s) l)
    by (intros l Hl; apply F; [exact Hl | intros []]).
  destruct v as [a|].
  - destruct Hh as (r & -> & Hr & Hv).
    unfold showPrediction. cbn [fst snd].
    unfold V3.copy, bind, read, write, ret. cbn [fst snd].
    unfold prediction, wellFormed, snapshot.
    cbn [heap liveMeteors cameraPosition cursorPosition markerPosition markerVisible].
    rewrite length_update. rewrite Hv.
    split; [rewrite lookup_update_same by lia; reflexivity|].
    split; [reflexivity|]. split.
    { intros o Ho. destruct (Hlive o Ho) as (H1 & H2 & H3 & H4 & H5 & H6).
      rewrite !lookup_update_other by (intros K; symmetry in K; contradiction).
      rewrite !Fk by assumption. reflexivity. }
    split.
    { repeat split; try lia; try assumption;
        destruct (Hlive o H) as (H1 & H2 & H3 & H4 & H5 & H6); try lia; assumption. }
    rewrite !lookup_update_other by (intros K; symmetry in K; contradiction).
    rewrite !Fk by assumption. split; reflexivity.
  - cbn in Hh. subst res. unfold showPrediction. cbn [fst snd].
    unfold prediction, wellFormed, snapshot.
    cbn [heap liveMeteors cameraPosition cursorPosition markerPosition markerVisible].
    split; [reflexivity|]. split; [reflexivity|]. split.
    { intros o Ho. destruct (Hlive o Ho) as (H1 & H2 & H3 & H4 & H5 & H6).
      rewrite !Fk by assumption. reflexivity. }
    split.
    { repeat split; try lia; try assumption;
        destruct (Hlive o H) as (H1 & H2 & H3 & H4 & H5 & H6); try lia; assumption. }
    rewrite !Fk by assumption. split; reflexivity.
Qed.

Lemma main_updatePredictedImpact_spec (realistic : bool) (simSpeed speed : R) (s : Scene) :
  wellFormed s ->
  let s' := MainJsObj.updatePredictedImpact realistic simSpeed speed s in
  prediction s'
  = MainJs.updatePredictedImpact realistic simSpeed speed
      (lookup (heap s) (cameraPosition s)) (lookup (heap s) (cursorPosition s))
  /\ liveMeteors s' = liveMeteors s
  /\ (forall o, In o (liveMeteors s) -> snapshot (heap s') o = snapshot (heap s) o)
  /\ wellFormed s'
  /\ lookup (heap s') (cameraPosition s') = lookup (heap s) (cameraPosition s)
  /\ lookup (heap s') (cursorPosition s') = lookup (heap s) (cursorPosition s).
Proof.
  intros W. cbv zeta. unfold MainJsObj.updatePredictedImpact.
  destruct (MainJsObj.predictHit realistic simSpeed speed (cameraPosition s)
              (cursorPosition s) (heap s)) as [res h'] eqn:E.
  destruct (main_predictHit_refines realistic simSpeed speed _ _ _ _ _
              (proj1 W) (proj1 (proj2 W)) E) as [F Hh].
  exact (showPrediction_spec s res h' _ W F Hh).
Qed.

Lemma app_updatePredictedImpact_spec (simSpeed : R) (speedInput : option R) (s : Scene) :
  wellFormed s ->
  let s' := AppJsObj.updatePredictedImpact simSpeed speedInput s in
  prediction s'
  = AppJs.updatePredictedImpact simSpeed speedInput
      (lookup (heap s) (cameraPosition s)) (lookup (heap s) (cursorPosition s))
  /\ liveMeteors s' = liveMeteors s
  /\ (forall o, In o (liveMeteors s) -> snapshot (heap s') o = snapshot (heap s) o)
  /\ wellFormed s'
  /\ lookup (heap s') (cameraPosition s') = lookup (heap s) (cameraPosition s)
  /\ lookup (heap s') (cursorPosition s') = lookup (heap s) (cursorPosition s).
Proof.
  intros W. cbv zeta. unfold AppJsObj.updatePredictedImpact.
  destruct (AppJsObj.predictHit simSpeed speedInput (cameraPosition s)
              (cursorPosition s) (heap s)) as [res h'] eqn:E.
  destruct (app_predictHit_refines simSpeed speedInput _ _ _ _ _
              (proj1 W) (proj1 (proj2 W)) E) as [F Hh].
  exact (showPrediction_spec s res h' _ W F Hh).
Qed.

Lemma exampleScene_wellFormed : wellFormed exampleScene.
Proof.
  unfold wellFormed, exampleScene.
  cbn [heap liveMeteors cameraPosition cursorPosition markerPosition List.length].
  repeat split; try lia; try discriminate;
    destruct H as [<- | []]; cbn [positionRef velocityRef physVelocityRef];
    try lia; discriminate.
Qed.

(** C3: the preview and the live meteors.  [updatePredictedImpact], run on
    the objects of a scene in which the marker's position is an object of
    its own, leaves the list of live meteors and the position, velocity and
    physical velocity of each of them as they were, also when a meteor
    shares a vector with the camera or the cursor: it writes only to the
    clones it makes and to the marker.  What it shows is the value-level
    preview of the camera position, the cursor position, the launch speed,
    the model flag and the simulation speed, so that a second run, and a
    run in any other scene with the same inputs, shows the same.  Both
    files. *)
Theorem C3_preview_leaves_meteors_alone (realistic : bool) (simSpeed speed : R)
        (speedInput : option R) (s : Scene) :
  wellFormed s ->
  let cam := lookup (heap s) (cameraPosition s) in
  let cur := lookup (heap s) (cursorPosition s) in
  let viaMain := MainJsObj.updatePredictedImpact realistic simSpeed speed in
  let viaApp := AppJsObj.updatePredictedImpact simSpeed speedInput in
  (liveMeteors (viaMain s) = liveMeteors s /\ liveMeteors (viaApp s) = liveMeteors s)
  /\ (forall o, In o (liveMeteors s) ->
                snapshot (heap (viaMain s)) o = snapshot (heap s) o
                /\ snapshot (heap (viaApp s)) o = snapshot (heap s) o)
  /\ prediction (viaMain s) = MainJs.updatePredictedImpact realistic simSpeed speed cam cur
  /\ prediction (viaApp s) = AppJs.updatePredictedImpact simSpeed speedInput cam cur
  /\ prediction (viaMain (viaMain s)) = prediction (viaMain s)
  /\ prediction (viaApp (viaApp s)) = prediction (viaApp s)
  /\ (forall s2, wellFormed s2 ->
                 lookup (heap s2) (cameraPosition s2) = cam ->
                 lookup (heap s2) (cursorPosition s2) = cur ->
                 prediction (viaMain s2) = prediction (viaMain s)
                 /\ prediction (viaApp s2) = prediction (viaApp s)).
Proof.
  intros W cam cur viaMain viaApp.
  destruct (main_updatePredictedImpact_spec realistic simSpeed speed s W)
    as (Pm & Lm & Sm & Wm & Cm & Km).
  destruct (app_updatePredictedImpact_spec simSpeed speedInput s W)
    as (Pa & La & Sa & Wa & Ca & Ka).
  fold viaMain in Pm, Lm, Sm, Wm, Cm, Km. fold viaApp in Pa, La, Sa, Wa, Ca, Ka.
  fold cam in Pm, Pa, Cm, Ca. fold cur in Pm, Pa, Km, Ka.
  split; [split; assumption|].
  split; [intros o Ho; split; [apply Sm | apply Sa]; exact Ho|].
  split; [exact Pm|]. split; [exact Pa|].
  split.
  { destruct (main_updatePredictedImpact_spec realistic simSpeed speed (viaMain s) Wm)
      as (P2 & _). fold viaMain in P2. rewrite P2, Cm, Km, Pm. reflexivity. }
  split.
  { destruct (app_updatePredictedImpact_spec simSpeed speedInput (viaApp s) Wa)
      as (P2 & _). fold viaApp in P2. rewrite P2, Ca, Ka, Pa. reflexivity. }
  intros s2 W2 Ec Ek.
  destruct (main_updatePredictedImpact_spec realistic simSpeed speed s2 W2) as (P2 & _).
  destruct (app_updatePredictedImpact_spec simSpeed speedInput s2 W2) as (P3 & _).
  fold viaMain in P2. fold viaApp in P3.
  rewrite P2, P3, Ec, Ek, Pm, Pa. split; reflexivity.
Qed.

(** C3, witness: a scene whose meteor shares its position object with the
    camera. *)
Lemma C3_preview_leaves_meteors_alone_witness :
  wellFormed exampleScene
  /\ forall o, In o (liveMeteors exampleScene) ->
               snapshot (heap (MainJsObj.updatePredictedImpact true 1 0.05 exampleScene)) o
               = snapshot (heap exampleScene) o
               /\ snapshot (heap (AppJsObj.updatePredictedImpact 1 (Some 0.05) exampleScene)) o
                  = snapshot (heap exampleScene) o.
Proof.
  split; [exact exampleScene_wellFormed|].
  apply (C3_preview_leaves_meteors_alone true 1 0.05 (Some 0.05) exampleScene).
  exact exampleScene_wellFormed.
Defined.

(** ** Visual size of a meteor and of its impact *)

Section VisualRadiusFacts.

Import VisualRadius.

Lemma Math_pow_unit (u g : R) : 0 < u <= 1 -> 0 < g -> 0 < Math_pow u g <= 1.
Proof.
  intros [Hu0 Hu1] Hg. unfold Math_pow.
  destruct (Req_dec_T g 0) as [E|_]; [lra|].
  destruct (Req_dec_T u 0) as [E|_]; [lra|].
  unfold Rpower. split; [apply exp_pos|].
  rewrite <- exp_0. 
  destruct (Rle_lt_or_eq_dec _ _ Hu1) as [Hlt|Heq].
  - left. apply exp_increasing.
    assert (ln u < 0) by (rewrite <- ln_1; apply ln_increasing; lra).
    nra.
  - subst u. rewrite ln_1. right. f_equal. ring.
Qed.

Lemma Math_pow_one (g : R) : Math_pow 1 g = 1.
Proof.
  unfold Math_pow. destruct (Req_dec_T g 0); [reflexivity|].
  destruct (Req_dec_T 1 0); [lra|].
  unfold Rpower. rewrite ln_1, Rmult_0_r. apply exp_0.
Qed.

Lemma Math_pow_mono (u v g : R) :
  0 < u <= v -> 0 < g -> Math_pow u g <= Math_pow v g.
Proof.
  intros [Hu Huv] Hg. unfold Math_pow.
  destruct (Req_dec_T g 0) as [E|_]; [lra|].
  destruct (Req_dec_T u 0) as [E|_]; [lra|].
  destruct (Req_dec_T v 0) as [E|_]; [lra|].
  apply Rle_Rpower_l; lra.
Qed.

Lemma radius_of_area_lt (a b : R) :
  0 <= a < b -> sqrt (a / PI) / 1000.0 < sqrt (b / PI) / 1000.0.
Proof.
  intros [Ha Hab]. pose proof PI_RGT_0 as Hpi.
  assert (H : sqrt (a / PI) < sqrt (b / PI)).
  { apply sqrt_lt_1.
    - apply Rmult_le_pos; [lra | left; apply Rinv_0_lt_compat; exact Hpi].
    - apply Rmult_le_pos; [lra | left; apply Rinv_0_lt_compat; exact Hpi].
    - apply Rmult_lt_compat_r; [apply Rinv_0_lt_compat; exact Hpi | exact Hab]. }
  lra.
Qed.

Lemma radiusAt_increasing :
  radiusAt 0 < radiusAt 1 /\ radiusAt 1 < radiusAt 2 /\ radiusAt 2 < radiusAt 3
  /\ radiusAt 3 < radiusAt 4 /\ radiusAt 4 < radiusAt 5.
Proof.
  unfold radiusAt, anchorRadii, anchors; cbn [map nth area].
  repeat split; apply radius_of_area_lt; lra.
Qed.

Lemma radiusAt_0_floor : 0.005 < radiusAt 0.
Proof.
  unfold radiusAt, anchorRadii, anchors; cbn [map nth area].
  pose proof PI_RGT_0 as Hpi. pose proof PI_4 as Hpi4.
  assert (H : 5 < sqrt (468 / PI)).
  { rewrite <- (sqrt_square 5) at 1 by lra.
    apply sqrt_lt_1; [lra | |].
    - apply Rmult_le_pos; [lra | left; apply Rinv_0_lt_compat; exact Hpi].
    - apply Rmult_lt_reg_r with PI; [exact Hpi|].
      replace (468 / PI * PI) with 468 by (field; lra). nra. }
  lra.
Qed.

Lemma Math_pow_zero (g : R) : 0 < g -> Math_pow 0 g = 0.
Proof.
  intros Hg. unfold Math_pow.
  destruct (Req_dec_T g 0); [lra|]. destruct (Req_dec_T 0 0); [reflexivity|lra].
Qed.

Lemma Math_pow_range (u g : R) : 0 <= u <= 1 -> 0 < g -> 0 <= Math_pow u g <= 1.
Proof.
  intros [Hu0 Hu1] Hg. destruct (Req_dec_T u 0) as [->|Hne].
  - rewrite Math_pow_zero by exact Hg. lra.
  - destruct (Math_pow_unit u g); [lra | exact Hg | lra].
Qed.

Lemma Math_pow_mono0 (u v g : R) :
  0 <= u <= v -> v <= 1 -> 0 < g -> Math_pow u g <= Math_pow v g.
Proof.
  intros [Hu Huv] Hv Hg. destruct (Req_dec_T u 0) as [->|Hne].
  - rewrite Math_pow_zero by exact Hg.
    apply (Math_pow_range v g); [lra | exact Hg].
  - apply Math_pow_mono; [lra | exact Hg].
Qed.

Lemma clampM_range (s : R) : 0.1 <= clampM s <= 80000.
Proof.
  unfold clampM, minM, maxM, anchorAt, anchors; cbn [List.length Nat.sub nth m].
  unfold Rmax, Rmin.
  destruct (Rle_dec 80000.0 s); destruct (Rle_dec 0.1 _); lra.
Qed.

Lemma clampM_mono (s s' : R) : s <= s' -> clampM s <= clampM s'.
Proof.
  intros H. unfold clampM.
  apply Rmax_case_strong; apply Rmax_case_strong;
  apply Rmin_case_strong; apply Rmin_case_strong; lra.
Qed.

Lemma clampM_inside (s : R) : 0.1 <= s <= 80000 -> clampM s = s.
Proof.
  intros H. unfold clampM, minM, maxM, anchorAt, anchors;
  cbn [List.length Nat.sub nth m].
  rewrite Rmin_right by lra. rewrite Rmax_right by lra. reflexivity.
Qed.

Lemma findSegment_cases (mm : R) :
  0.1 < mm < 80000 ->
  (mm <= 75 /\ findSegment mm 0 5 = 0%nat)
  \/ (75 < mm <= 100 /\ findSegment mm 0 5 = 1%nat)
  \/ (100 < mm <= 10000 /\ findSegment mm 0 5 = 2%nat)
  \/ (10000 < mm <= 40000 /\ findSegment mm 0 5 = 3%nat)
  \/ (40000 < mm /\ findSegment mm 0 5 = 4%nat).
Proof.
  intros H. cbn [findSegment]. unfold anchorAt, anchors; cbn [nth m].
  repeat match goal with
         | |- context [Rle_dec ?a ?b] => destruct (Rle_dec a b)
         end;
  try lra;
  first [ left; split; [lra | reflexivity]
        | right; left; split; [lra | reflexivity]
        | right; right; left; split; [lra | reflexivity]
        | right; right; right; left; split; [lra | reflexivity]
        | right; right; right; right; split; [lra | reflexivity] ].
Qed.

(** On which segment the clamped diameter falls, and the value the
    mapping takes there. *)
Lemma visualRadiusBase_segment (s : R) :
  exists i : nat,
    (i < 5)%nat
    /\ m (anchorAt i) <= clampM s <= m (anchorAt (S i))
    /\ ((0 < i)%nat -> m (anchorAt i) < clampM s)
    /\ visualRadiusBase s
       = radiusAt i
         + (radiusAt (S i) - radiusAt i)
           * Math_pow ((clampM s - m (anchorAt i))
                       / (m (anchorAt (S i)) - m (anchorAt i))) (gammaAt i).
Proof.
  pose proof (clampM_range s) as Hr.
  unfold visualRadiusBase. set (mm := clampM s) in *.
  cbv zeta.
  destruct (Rle_dec mm (m (anchorAt 0))) as [Hlo|Hlo].
  { exists 0%nat. unfold anchorAt, anchors in *; cbn [nth m] in *.
    assert (E : mm = 0.1) by lra. rewrite E.
    replace (0.1 - 0.1) with 0 by lra. unfold Rdiv at 1. rewrite Rmult_0_l.
    rewrite Math_pow_zero by (unfold gammaAt, gammas; cbn [nth]; lra).
    repeat split; try lra; try lia. }
  destruct (Rle_dec (m (anchorAt (List.length anchors - 1))) mm) as [Hhi|Hhi].
  { exists 4%nat.
    unfold anchorAt, anchors in *; cbn [List.length Nat.sub nth m] in *.
    assert (E : mm = 80000) by lra. rewrite E.
    replace (80000 - 40000.0) with (80000.0 - 40000.0) by lra.
    unfold Rdiv at 1. rewrite Rinv_r by lra.
    rewrite Math_pow_one.
    repeat split; try lra; try lia.
    unfold radiusAt, anchorRadii, anchors; cbn [List.length Nat.sub map nth]. ring. }
  unfold anchorAt, anchors in Hlo, Hhi; cbn [List.length Nat.sub nth m] in Hlo, Hhi.
  change (List.length anchors - 1)%nat with 5%nat.
  change (List.length gammas - 1)%nat with 4%nat.
  destruct (findSegment_cases mm) as [[Hm ->]|[[Hm ->]|[[Hm ->]|[[Hm ->]|[Hm ->]]]]];
    [lra | | | | | ];
    [ exists 0%nat | exists 1%nat | exists 2%nat | exists 3%nat | exists 4%nat ];
    unfold anchorAt, anchors, gammaAt, gammas; cbn [Nat.min nth m];
    rewrite Rmax_right by lra; rewrite orElse_nonzero by lra;
    repeat split; try lra; try lia.
Qed.

(** The anchors and their radii grow with the index. *)
Lemma anchorAt_mono (i j : nat) :
  (i <= j)%nat -> (j <= 5)%nat -> m (anchorAt i) <= m (anchorAt j).
Proof.
  intros Hij Hj. unfold anchorAt, anchors.
  do 6 (destruct i as [|i]; [do 6 (destruct j as [|j]; [cbn [nth m]; lra || lia|]); lia|]).
  lia.
Qed.

Lemma radiusAt_mono (i j : nat) :
  (i <= j)%nat -> (j <= 5)%nat -> radiusAt i <= radiusAt j.
Proof.
  intros Hij Hj. pose proof radiusAt_increasing as (H0 & H1 & H2 & H3 & H4).
  do 6 (destruct i as [|i]; [do 6 (destruct j as [|j]; [lra || lia|]); lia|]).
  lia.
Qed.

Lemma anchorAt_step (i : nat) : (i < 5)%nat -> m (anchorAt i) < m (anchorAt (S i)).
Proof.
  intros Hi. unfold anchorAt, anchors.
  do 5 (destruct i as [|i]; [cbn [nth m]; lra|]). lia.
Qed.

Lemma gammaAt_pos (i : nat) : (i < 5)%nat -> 0 < gammaAt i.
Proof.
  intros Hi. unfold gammaAt, gammas.
  do 5 (destruct i as [|i]; [cbn [nth]; lra|]). lia.
Qed.

(** The value on a segment lies between the radii of its two anchors. *)
Lemma segment_value_range (i : nat) (mm : R) :
  (i < 5)%nat -> m (anchorAt i) <= mm <= m (anchorAt (S i)) ->
  radiusAt i
  <= radiusAt i + (radiusAt (S i) - radiusAt i)
                  * Math_pow ((mm - m (anchorAt i))
                              / (m (anchorAt (S i)) - m (anchorAt i))) (gammaAt i)
  <= radiusAt (S i).
Proof.
  intros Hi Hm. pose proof (anchorAt_step i Hi) as Hs.
  pose proof (radiusAt_mono i (S i) ltac:(lia) ltac:(lia)) as Hr.
  set (d := m (anchorAt (S i)) - m (anchorAt i)) in *.
  assert (Hd : 0 < d) by (unfold d; lra).
  assert (Hu : 0 <= (mm - m (anchorAt i)) / d <= 1).
  { split.
    - apply Rmult_le_pos; [lra | left; apply Rinv_0_lt_compat; exact Hd].
    - apply Rmult_le_reg_r with d; [exact Hd|].
      unfold Rdiv. rewrite Rmult_assoc, Rinv_l by lra. unfold d. lra. }
  pose proof (Math_pow_range _ (gammaAt i) Hu (gammaAt_pos i Hi)) as Hp.
  nra.
Qed.

Lemma visualRadiusBase_range (s : R) :
  radiusAt 0 <= visualRadiusBase s <= radiusAt 5.
Proof.
  destruct (visualRadiusBase_segment s) as (i & Hi & Hm & _ & ->).
  pose proof (segment_value_range i (clampM s) Hi Hm) as Hv.
  pose proof (radiusAt_mono 0 i ltac:(lia) ltac:(lia)).
  pose proof (radiusAt_mono (S i) 5 ltac:(lia) ltac:(lia)).
  lra.
Qed.

Lemma visualRadiusBase_mono (s s' : R) :
  s <= s' -> visualRadiusBase s <= visualRadiusBase s'.
Proof.
  intros Hs. pose proof (clampM_mono s s' Hs) as Hc.
  destruct (visualRadiusBase_segment s) as (i & Hi & Hm & Hmi & ->).
  destruct (visualRadiusBase_segment s') as (j & Hj & Hm' & Hmj & ->).
  pose proof (segment_value_range i _ Hi Hm) as Hv.
  pose proof (segment_value_range j _ Hj Hm') as Hv'.
  destruct (Nat.lt_trichotomy i j) as [Hij|[Hij|Hij]].
  - pose proof (radiusAt_mono (S i) j ltac:(lia) ltac:(lia)). lra.
  - subst j. pose proof (anchorAt_step i Hi) as Hstep.
    pose proof (radiusAt_mono i (S i) ltac:(lia) ltac:(lia)) as Hr.
    set (d := m (anchorAt (S i)) - m (anchorAt i)) in *.
    assert (Hd : 0 < d) by (unfold d; lra).
    assert (Hinv : 0 < / d) by (apply Rinv_0_lt_compat; exact Hd).
    assert (Hp : Math_pow ((clampM s - m (anchorAt i)) / d) (gammaAt i)
                 <= Math_pow ((clampM s' - m (anchorAt i)) / d) (gammaAt i)).
    { apply Math_pow_mono0; [| | exact (gammaAt_pos i Hi)].
      - split.
        + apply Rmult_le_pos; lra.
        + unfold Rdiv. apply Rmult_le_compat_r; lra.
      - apply Rmult_le_reg_r with d; [exact Hd|].
        unfold Rdiv. rewrite Rmult_assoc, Rinv_l by lra. unfold d. lra. }
    nra.
  - exfalso. pose proof (anchorAt_mono (S j) i ltac:(lia) ltac:(lia)).
    assert (m (anchorAt i) < clampM s) by (apply Hmi; lia). lra.
Qed.

Lemma Math_pow_strict (u v g : R) :
  0 <= u < v -> 0 < g -> Math_pow u g < Math_pow v g.
Proof.
  intros [Hu Huv] Hg. unfold Math_pow.
  destruct (Req_dec_T g 0) as [E|_]; [lra|].
  destruct (Req_dec_T v 0) as [E|_]; [lra|].
  destruct (Req_dec_T u 0) as [E|Hne].
  - unfold Rpower. apply exp_pos.
  - apply Rlt_Rpower_l; lra.
Qed.

Lemma visualRadiusBase_strict (s s' : R) :
  0.1 <= s -> s < s' -> s' <= 80000 ->
  visualRadiusBase s < visualRadiusBase s'.
Proof.
  intros H1 Hs H2.
  pose proof (clampM_inside s ltac:(lra)) as Es.
  pose proof (clampM_inside s' ltac:(lra)) as Es'.
  destruct (visualRadiusBase_segment s) as (i & Hi & Hm & Hmi & ->).
  destruct (visualRadiusBase_segment s') as (j & Hj & Hm' & Hmj & ->).
  rewrite Es in *. rewrite Es' in *.
  pose proof (segment_value_range i _ Hi Hm) as Hv.
  pose proof (segment_value_range j _ Hj Hm') as Hv'.
  pose proof (anchorAt_step j Hj) as Hstep.
  pose proof radiusAt_increasing as (R0 & R1 & R2 & R3 & R4).
  assert (Hrj : radiusAt j < radiusAt (S j)).
  { do 5 (destruct j as [|j]; [lra|]). lia. }
  set (d := m (anchorAt (S j)) - m (anchorAt j)) in *.
  assert (Hd : 0 < d) by (unfold d; lra).
  assert (Hinv : 0 < / d) by (apply Rinv_0_lt_compat; exact Hd).
  destruct (Nat.lt_trichotomy i j) as [Hij|[Hij|Hij]].
  - pose proof (radiusAt_mono (S i) j ltac:(lia) ltac:(lia)).
    assert (Hgt : m (anchorAt j) < s') by (apply Hmj; lia).
    assert (Hp : Math_pow 0 (gammaAt j) < Math_pow ((s' - m (anchorAt j)) / d) (gammaAt j)).
    { apply Math_pow_strict; [| exact (gammaAt_pos j Hj)].
      split; [lra|]. apply Rmult_lt_0_compat; lra. }
    rewrite Math_pow_zero in Hp by exact (gammaAt_pos j Hj). nra.
  - subst i. fold d.
    assert (Hp : Math_pow ((s - m (anchorAt j)) / d) (gammaAt j)
                 < Math_pow ((s' - m (anchorAt j)) / d) (gammaAt j)).
    { apply Math_pow_strict; [| exact (gammaAt_pos j Hj)].
      split.
      - apply Rmult_le_pos; lra.
      - unfold Rdiv. apply Rmult_lt_compat_r; lra. }
    nra.
  - exfalso. pose proof (anchorAt_mono (S j) i ltac:(lia) ltac:(lia)).
    assert (m (anchorAt i) < s) by (apply Hmi; lia). lra.
Qed.

Lemma visualRadiusBase_at_anchor (i : nat) :
  (i <= 5)%nat -> visualRadiusBase (m (anchorAt i)) = radiusAt i.
Proof.
  intros Hi5.
  assert (Hin : 0.1 <= m (anchorAt i) <= 80000).
  { pose proof (anchorAt_mono 0 i ltac:(lia) Hi5) as H0.
    pose proof (anchorAt_mono i 5 Hi5 ltac:(lia)) as H5.
    unfold anchorAt at 1, anchors in H0; cbn [nth m] in H0.
    unfold anchorAt at 2, anchors in H5; cbn [nth m] in H5. lra. }
  pose proof (clampM_inside _ Hin) as Ec.
  destruct (visualRadiusBase_segment (m (anchorAt i))) as (j & Hj & Hm & Hmj & ->).
  rewrite Ec in *.
  pose proof (anchorAt_step j Hj) as Hstep.
  destruct (Nat.lt_trichotomy i j) as [Hij|[Hij|Hij]].
  - exfalso. destruct j as [|j]; [lia|].
    pose proof (anchorAt_mono i (S j) ltac:(lia) ltac:(lia)).
    assert (m (anchorAt (S j)) < m (anchorAt i)) by (apply Hmj; lia). lra.
  - subst j. replace (m (anchorAt i) - m (anchorAt i)) with 0 by ring.
    unfold Rdiv. rewrite Rmult_0_l, Math_pow_zero by exact (gammaAt_pos i Hj). ring.
  - assert (Hij' : i = S j).
    { destruct (Nat.eq_dec i (S j)) as [E|N]; [exact E|exfalso].
      pose proof (anchorAt_step (S j) ltac:(lia)).
      pose proof (anchorAt_mono (S (S j)) i ltac:(lia) ltac:(lia)). lra. }
    subst i.
    replace ((m (anchorAt (S j)) - m (anchorAt j))
             / (m (anchorAt (S j)) - m (anchorAt j))) with 1 by (field; lra).
    rewrite Math_pow_one. ring.
Qed.

End VisualRadiusFacts.

(** ** The scene of [main.js] *)

Section MainJsWorldFacts.

Import MainJsWorld.

Lemma active_main_realisticStep (s : R) (m : Meteor) :
  active (MainJs.realisticStep s m) = active m.
Proof.
  unfold MainJs.realisticStep.
  destruct (MainJs.rk4Step _ _ _ _) as [p v]. reflexivity.
Qed.

Lemma active_main_gameStep (s : R) (m : Meteor) :
  active (MainJs.gameStep s m) = active m.
Proof.
  unfold MainJs.gameStep. destruct (arcadeStep _ _ _) as [p v]. reflexivity.
Qed.

(** The callback on a live meteor either reports an impact and retires
    the meteor, or reports nothing and leaves it live. *)
Lemma main_animateMeteor_live (realistic : bool) (s : R) (m : Meteor) :
  active m = true ->
  (exists rep, snd (MainJs.animateMeteor realistic s m) = Some rep
               /\ active (fst (MainJs.animateMeteor realistic s m)) = false)
  \/ (snd (MainJs.animateMeteor realistic s m) = None
      /\ active (fst (MainJs.animateMeteor realistic s m)) = true).
Proof.
  intros Ha. unfold MainJs.animateMeteor. rewrite Ha. cbn [negb].
  destruct (Rlt_dec _ _).
  - left. eexists. split; reflexivity.
  - right. split; [reflexivity|]. cbn [fst].
    destruct realistic;
      [rewrite active_main_realisticStep | rewrite active_main_gameStep]; exact Ha.
Qed.

Lemma main_frame_accounting (realistic : bool) (s : R) (ms : list Meteor) :
  Forall (fun m => active m = true) ms ->
  (List.length (filter active (map fst (map (MainJs.animateMeteor realistic s) ms)))
   + List.length (reports (map (MainJs.animateMeteor realistic s) ms)))%nat
  = List.length ms.
Proof.
  induction 1 as [|m ms Hm _ IH]; [reflexivity|].
  cbn [map filter reports].
  destruct (main_animateMeteor_live realistic s m Hm) as [(rep & Hr & Ha)|[Hr Ha]];
    destruct (MainJs.animateMeteor realistic s m) as [m' r];
    cbn [fst snd] in *; subst r; rewrite Ha; cbn [List.length]; lia.
Qed.

Lemma filter_active_all (ms : list Meteor) :
  Forall (fun m => active m = true) (filter active ms).
Proof.
  apply Forall_forall. intros m Hin. apply filter_In in Hin. tauto.
Qed.

Lemma handle_invariant (n : nat) (w : World) (e : Event) :
  accounted n w -> accounted (launchedAfter n e) (handle w e).
Proof.
  intros [Hn Hall]. destruct e as [speed c p|size ap v| |r s speed c p];
    unfold accounted; cbn [handle launchedAfter].
  - unfold setMeteors, MainJs.shootMeteor; cbn [meteors impactCount]. split.
    + rewrite length_app. cbn [List.length]. lia.
    + apply Forall_app. split; [exact Hall|]. repeat constructor.
  - unfold setMeteors, spawnSelectedAsteroid; cbn [meteors impactCount]. split.
    + rewrite length_app. cbn [List.length]. lia.
    + apply Forall_app. split; [exact Hall|]. repeat constructor.
  - cbn. split; [reflexivity | constructor].
  - unfold animate; cbn [meteors impactCount]. split.
    + pose proof (main_frame_accounting r s (meteors w) Hall). lia.
    + apply filter_active_all.
Qed.

Lemma run_invariant (events : list Event) (n : nat) (w : World) :
  accounted n w ->
  accounted (fold_left launchedAfter events n) (fold_left handle events w).
Proof.
  revert n w. induction events as [|e events IH]; intros n w H; [exact H|].
  cbn [fold_left]. apply IH. apply handle_invariant. exact H.
Qed.

(** *** Rings *)

Lemma total_nonneg (l : list R) : Forall (fun s => 0 <= s) l -> 0 <= total l.
Proof. induction 1; cbn [total]; lra. Qed.

Lemma ringFlight_some (speeds : list R) (e e' : Effect) :
  ringFlight speeds e = Some e' ->
  ringOpacity e' = ringOpacity e - 0.02 * total speeds
  /\ ringScale e' = addScalar (ringScale e) (0.05 * total speeds)
  /\ ringPosition e' = ringPosition e.
Proof.
  revert e. induction speeds as [|s rest IH]; intros e H; cbn [ringFlight total] in *.
  - injection H as <-. repeat split; try lra.
    unfold addScalar. destruct (ringScale e) as [a b c]; cbn [x y z].
    f_equal; lra.
  - destruct (visible (animateEffect s e)); [|discriminate].
    destruct (IH _ H) as (Ho & Hs & Hp). cbn [animateEffect ringOpacity ringScale ringPosition] in *.
    repeat split.
    + rewrite Ho. lra.
    + rewrite Hs. unfold addScalar; cbn [x y z]. f_equal; lra.
    + exact Hp.
Qed.

Lemma ringFlight_alive (speeds : list R) (e : Effect) :
  Forall (fun s => 0 <= s) speeds -> 0 < ringOpacity e ->
  (ringFlight speeds e <> None <-> 0 < ringOpacity e - 0.02 * total speeds).
Proof.
  intros Hall. revert e. induction Hall as [|s rest Hs Hrest IH]; intros e He;
    cbn [ringFlight total].
  - split; [intros _; lra | intros _; discriminate].
  - pose proof (total_nonneg rest Hrest) as Ht.
    unfold visible. cbn [animateEffect ringOpacity].
    destruct (Rlt_dec 0 (ringOpacity e - 0.02 * s)) as [Hv|Hv].
    + rewrite IH by (cbn [animateEffect ringOpacity]; exact Hv).
      cbn [animateEffect ringOpacity]. split; intros; lra.
    + split; [intros N; exfalso; apply N; reflexivity | intros; lra].
Qed.

End MainJsWorldFacts.

(** ** Impact effects of [src/app.js] *)

Section AppJsEffectFacts.

Import AppJsWorld.

Variable simSpeed : R.

Lemma orUndef_some_zero (v : R) : orUndef (Some v) 0 = v.
Proof. unfold orUndef, orElse. destruct (Req_dec_T v 0); lra. Qed.

(** What one frame does to the fields the filter looks at. *)
Lemma animateEffect_fields (dt : R) (e : Effect) :
  let e' := animateEffect simSpeed dt e in
  let age' := orUndef (age e) 0 + dt in
  let life := orUndef (totalLife e) 2.0 in
  age e' = Some age'
  /\ totalLife e' = totalLife e
  /\ growRate e' = growRate e
  /\ ringOpacity e' = Rmax 0 (life - age') / life
  /\ scale e' = orElse (scale e) 1 + orUndef (growRate e) 0.25 * dt
  /\ axis e' = axis e
  /\ mushroomRiseSpeed e' = mushroomRiseSpeed e
  /\ mushroomMaxLift e' = mushroomMaxLift e
  /\ (life <= age' -> mushroomGroup e' = None)
  /\ (mushroomGroup e = None -> mushroomGroup e' = None).
Proof.
  cbv zeta. unfold animateEffect.
  destruct (mushroomGroup e) as [g|]; cbv zeta.
  - unfold animateMushroom.
    destruct (Rle_dec (orUndef (totalLife e) 2.0) (orUndef (age e) 0 + dt));
      cbn; repeat split; auto; try (intros; lra); try discriminate.
  - cbn. repeat split; auto.
Qed.

Lemma kept_after_frame (dt : R) (e : Effect) :
  0 < orUndef (totalLife e) 2.0 ->
  kept (animateEffect simSpeed dt e) = true
  <-> orUndef (age e) 0 + dt < orUndef (totalLife e) 2.0.
Proof.
  intros HL.
  destruct (animateEffect_fields dt e) as (_ & _ & _ & Eop & _ & _ & _ & _ & Egone & _).
  set (L := orUndef (totalLife e) 2.0) in *.
  set (a := orUndef (age e) 0 + dt) in *.
  unfold kept. rewrite Eop.
  destruct (Rlt_dec a L) as [Hlt|Hge].
  - split; [intros _; exact Hlt|intros _].
    destruct (Rlt_dec 0 (Rmax 0 (L - a) / L)) as [_|N]; [reflexivity|].
    exfalso; apply N. rewrite Rmax_right by lra.
    apply Rmult_lt_0_compat; [lra | apply Rinv_0_lt_compat; exact HL].
  - split; [|intros; lra]. intros Hk. exfalso.
    rewrite Egone in Hk by lra.
    rewrite Rmax_left in Hk by lra. unfold Rdiv in Hk. rewrite Rmult_0_l in Hk.
    destruct (Rlt_dec 0 0) as [N|_]; [lra | discriminate].
Qed.

(** An effect whose [totalLife] is missing lives two simulated seconds. *)
Lemma effectFlight_alive (dts : list R) (e : Effect) :
  totalLife e = None -> Forall (fun dt => 0 <= dt) dts ->
  orUndef (age e) 0 < 2 ->
  (effectFlight simSpeed dts e <> None <-> orUndef (age e) 0 + total dts < 2).
Proof.
  intros HL Hall. revert e HL.
  induction Hall as [|dt rest Hdt Hrest IH]; intros e HL Ha; cbn [effectFlight total].
  - split; [intros _; lra | intros _; discriminate].
  - pose proof (total_nonneg rest Hrest) as Ht.
    pose proof (kept_after_frame dt e) as Hk. rewrite HL in Hk. cbn [orUndef] in Hk.
    specialize (Hk ltac:(lra)).
    destruct (animateEffect_fields dt e) as (Eage & Elife & _).
    destruct (kept (animateEffect simSpeed dt e)) eqn:K.
    + assert (Hlt : orUndef (age e) 0 + dt < 2.0) by (apply Hk; reflexivity).
      clear K. rewrite IH.
      * rewrite Eage, orUndef_some_zero. split; intros; lra.
      * rewrite Elife. exact HL.
      * rewrite Eage, orUndef_some_zero. lra.
    + split; [intros N; exfalso; apply N; reflexivity|].
      intros Hlt. exfalso.
      assert (false = true) by (apply Hk; lra). discriminate.
Qed.

Lemma effectFlight_state (dts : list R) (e e' : Effect) :
  totalLife e = None -> growRate e = None -> 1 <= scale e ->
  Forall (fun dt => 0 <= dt) dts -> dts <> [] ->
  effectFlight simSpeed dts e = Some e' ->
  age e' = Some (orUndef (age e) 0 + total dts)
  /\ ringOpacity e' = (2 - (orUndef (age e) 0 + total dts)) / 2
  /\ scale e' = scale e + 0.25 * total dts.
Proof.
  intros HL HG HS Hall. revert e HL HG HS.
  induction Hall as [|dt rest Hdt Hrest IH]; intros e HL HG HS Hne H; [congruence|].
  cbn [effectFlight total] in *.
  pose proof (kept_after_frame dt e) as Hk. rewrite HL in Hk. cbn [orUndef] in Hk.
  specialize (Hk ltac:(lra)).
  destruct (kept (animateEffect simSpeed dt e)) eqn:K; [|discriminate].
  assert (Hlt : orUndef (age e) 0 + dt < 2.0) by (apply Hk; reflexivity).
  clear K Hk.
  destruct (animateEffect_fields dt e) as (Eage & Elife & Egrow & Eop & Esc & _).
  rewrite HL, HG in *. cbn [orUndef] in *.
  rewrite orElse_nonzero in Esc by lra.
  destruct rest as [|dt2 rest2].
  - cbn [effectFlight total] in *. injection H as <-.
    rewrite Eage, Eop, Esc. rewrite Rmax_right by lra.
    repeat split; f_equal; lra.
  - destruct (IH (animateEffect simSpeed dt e)) as (Ha' & Ho' & Hs');
      try assumption; try congruence.
    + rewrite Esc. nra.
    + rewrite Eage, orUndef_some_zero in *.
      rewrite Ha', Ho', Hs', Esc.
      repeat split; try lra; f_equal; lra.
Qed.

Lemma add_scaled_zero (p a : Vec) : add p (multiplyScalar a 0) = p.
Proof. destruct p, a. unfold add, multiplyScalar; cbn [x y z]. f_equal; ring. Qed.

Lemma add_scaled_twice (p a : Vec) (s t : R) :
  add (add p (multiplyScalar a s)) (multiplyScalar a t) = add p (multiplyScalar a (s + t)).
Proof. destruct p, a. unfold add, multiplyScalar; cbn [x y z]. f_equal; ring. Qed.

(** One frame of a mushroom that outlives it. *)
Lemma animateEffect_mushroom (dt : R) (e : Effect) (g : Mushroom) :
  mushroomGroup e = Some g ->
  orUndef (age e) 0 + dt < orUndef (totalLife e) 2.0 ->
  let l := orUndef (mushroomLiftSoFar e) 0 in
  let newLift := Rmin (orUndef (mushroomMaxLift e) 0.1)
                      (l + orUndef (mushroomRiseSpeed e) 0.002 * dt) in
  exists g',
    mushroomGroup (animateEffect simSpeed dt e) = Some g'
    /\ groupPosition g' = add (groupPosition g) (multiplyScalar (axis e) (newLift - l))
    /\ orUndef (mushroomLiftSoFar (animateEffect simSpeed dt e)) 0 = newLift.
Proof.
  intros Hg Hlt. cbv zeta. unfold animateEffect. rewrite Hg. cbv zeta.
  unfold animateMushroom.
  set (l := orUndef (mushroomLiftSoFar e) 0).
  set (nl := Rmin (orUndef (mushroomMaxLift e) 0.1)
                  (l + orUndef (mushroomRiseSpeed e) 0.002 * dt)).
  destruct (Rle_dec (orUndef (totalLife e) 2.0) (orUndef (age e) 0 + dt)) as [N|_];
    [lra|].
  cbn [mushroomGroup mushroomLiftSoFar]. eexists. split; [reflexivity|].
  cbn [groupPosition].
  destruct (Req_dec_T (nl - l) 0) as [E|E].
  - rewrite E, add_scaled_zero. split; [reflexivity | fold l; lra].
  - split; [reflexivity|]. apply orUndef_some_zero.
Qed.

(** The lift of the mushroom after a list of frames, in closed form. *)
Lemma effectFlight_mushroom (dts : list R) (e e' : Effect) (g : Mushroom) :
  totalLife e = None -> mushroomGroup e = Some g ->
  Forall (fun dt => 0 <= dt) dts ->
  0 <= orUndef (mushroomRiseSpeed e) 0.002 ->
  orUndef (mushroomLiftSoFar e) 0 <= orUndef (mushroomMaxLift e) 0.1 ->
  effectFlight simSpeed dts e = Some e' ->
  let l := orUndef (mushroomLiftSoFar e) 0 in
  let lift := Rmin (orUndef (mushroomMaxLift e) 0.1)
                   (l + orUndef (mushroomRiseSpeed e) 0.002 * total dts) in
  exists g',
    mushroomGroup e' = Some g'
    /\ orUndef (mushroomLiftSoFar e') 0 = lift
    /\ groupPosition g' = add (groupPosition g) (multiplyScalar (axis e) (lift - l)).
Proof.
  intros HL Hg Hall. revert e g HL Hg.
  induction Hall as [|dt rest Hdt Hrest IH]; intros e g HL Hg Hr Hl H; cbv zeta;
    cbn [effectFlight total] in *.
  - injection H as <-. exists g. rewrite Rmult_0_r, Rplus_0_r.
    rewrite Rmin_right by lra. repeat split; try assumption.
    replace (orUndef (mushroomLiftSoFar e) 0 - orUndef (mushroomLiftSoFar e) 0)
      with 0 by ring.
    symmetry. apply add_scaled_zero.
  - pose proof (total_nonneg rest Hrest) as Ht.
    pose proof (kept_after_frame dt e) as Hk. rewrite HL in Hk. cbn [orUndef] in Hk.
    specialize (Hk ltac:(lra)).
    destruct (kept (animateEffect simSpeed dt e)) eqn:K; [|discriminate].
    assert (Hlt : orUndef (age e) 0 + dt < 2.0) by (apply Hk; reflexivity).
    clear K Hk.
    destruct (animateEffect_fields dt e)
      as (_ & Elife & _ & _ & _ & Eax & Erise & Emax & _ & _).
    destruct (animateEffect_mushroom dt e g Hg) as (g1 & Hg1 & Hp1 & Hl1);
      [rewrite HL; exact Hlt|].
    set (r := orUndef (mushroomRiseSpeed e) 0.002) in *.
    set (M := orUndef (mushroomMaxLift e) 0.1) in *.
    set (l := orUndef (mushroomLiftSoFar e) 0) in *.
    destruct (IH (animateEffect simSpeed dt e) g1) as (g' & Hg' & Hl' & Hp');
      try assumption.
    + rewrite Elife. exact HL.
    + rewrite Erise. exact Hr.
    + rewrite Hl1, Emax. apply Rmin_l.
    + rewrite Erise, Emax, Eax, Hl1 in *. fold r in Hl', Hp'. fold M in Hl', Hp'.
      assert (Hrd : 0 <= r * dt) by (apply Rmult_le_pos; assumption).
      assert (Hrt : 0 <= r * total rest) by (apply Rmult_le_pos; assumption).
      assert (Emin : Rmin M (Rmin M (l + r * dt) + r * total rest)
                     = Rmin M (l + r * (dt + total rest))).
      { unfold Rmin.
        destruct (Rle_dec M (l + r * dt));
          destruct (Rle_dec M (l + r * (dt + total rest)));
          try destruct (Rle_dec M (M + r * total rest));
          try destruct (Rle_dec M (l + r * dt + r * total rest)); lra. }
      exists g'. repeat split.
      * exact Hg'.
      * rewrite Hl'. exact Emin.
      * rewrite Hp', Hp1, add_scaled_twice. rewrite Emin. f_equal. f_equal. ring.
Qed.

End AppJsEffectFacts.

(** ** Whole frames of [src/app.js] *)

Section AppJsWorldFacts.

Import AppJsWorld.

Lemma active_app_step (realistic : bool) (s : R) (m : Meteor) :
  active (if realistic then AppJs.realisticStep s m else AppJs.gameStep s m) = active m.
Proof.
  destruct realistic; [reflexivity|].
  unfold AppJs.gameStep. destruct (arcadeStep _ _ _). reflexivity.
Qed.

(** The callback on a live meteor reports an impact only when it retires
    the meteor. *)
Lemma app_animateMeteor_hit (realistic : bool) (s dt : R) (m : Meteor) :
  snd (AppJs.animateMeteor realistic s dt m) <> None ->
  active (fst (AppJs.animateMeteor realistic s dt m)) = false.
Proof.
  unfold AppJs.animateMeteor. destruct (negb (active m)); [intros N; elim N; reflexivity|].
  destruct (Rlt_dec _ _); [reflexivity | intros N; elim N; reflexivity].
Qed.

Lemma app_frame_accounting (realistic : bool) (s dt : R) (ms : list Meteor) :
  let rs := map (AppJs.animateMeteor realistic s dt) ms in
  (List.length (filter (fun r => match snd r with Some _ => true | None => false end) rs)
   + List.length (filter active (map fst rs)) <= List.length ms)%nat.
Proof.
  cbv zeta. induction ms as [|m ms IH]; [reflexivity|].
  cbn [map filter].
  pose proof (app_animateMeteor_hit realistic s dt m) as Hh.
  destruct (AppJs.animateMeteor realistic s dt m) as [m' [rep|]]; cbn [fst snd] in *.
  - rewrite Hh by discriminate. cbn [List.length]. lia.
  - destruct (active m'); cbn [List.length]; lia.
Qed.

Lemma app_handle_invariant (n : nat) (w : World) (e : Event) :
  accounted n w -> accounted (launchedAfter n e) (handle w e).
Proof.
  intros [Hn Hall].
  destruct e as [sp sz|sz v d ray| |i| | |v|p|p]; unfold accounted;
    cbn [handle launchedAfter setApp app AppJs.meteors AppJs.impactCount];
    try (split; assumption).
  - unfold AppJs.shootMeteor, AppJs.setMeteors; cbn [AppJs.meteors AppJs.impactCount].
    split.
    + rewrite length_app. cbn [List.length]. lia.
    + apply Forall_app. split; [exact Hall|]. repeat constructor.
  - unfold spawnSelectedAsteroid, AppJs.setMeteors; cbn [AppJs.meteors AppJs.impactCount].
    split.
    + rewrite length_app. cbn [List.length]. lia.
    + apply Forall_app. split; [exact Hall|]. repeat constructor.
  - cbn. split; [lia | constructor].
  - unfold animate. destruct (AppJs.paused (app w));
      cbn [app AppJs.meteors AppJs.impactCount].
    + split; assumption.
    + split; [|apply filter_active_all].
      pose proof (app_frame_accounting (AppJs.realistic (app w)) (AppJs.simSpeed (app w))
                    (AppJs.frameDt (AppJs.simSpeed (app w)) (dtMs i))
                    (AppJs.meteors (app w))) as H.
      cbv zeta in H. lia.
Qed.

Lemma app_run_invariant (events : list Event) (n : nat) (w : World) :
  accounted n w ->
  accounted (fold_left launchedAfter events n) (run events w).
Proof.
  revert n w. induction events as [|e events IH]; intros n w H; [exact H|].
  cbn [fold_left run]. apply IH. apply app_handle_invariant. exact H.
Qed.

End AppJsWorldFacts.

(** ** Where and how fast a meteor is launched *)

Lemma length_multiplyScalar (v : Vec) (k : R) :
  length (multiplyScalar v k) = Rabs k * length v.
Proof.
  unfold length.
  replace (lengthSq (multiplyScalar v k)) with (Rsqr k * lengthSq v)
    by (unfold lengthSq, multiplyScalar, Rsqr; cbn [x y z]; ring).
  rewrite sqrt_mult by (apply Rle_0_sqr || apply lengthSq_nonneg).
  rewrite sqrt_Rsqr_abs. reflexivity.
Qed.

Lemma length_zero : length zero = 0.
Proof.
  unfold length, lengthSq, zero; cbn [x y z].
  replace (0 * 0 + 0 * 0 + 0 * 0) with 0 by ring. apply sqrt_0.
Qed.

Lemma length_pos_of_nonzero (v : Vec) : v <> zero -> 0 < length v.
Proof.
  intros Hv. destruct (Rle_lt_or_eq_dec 0 (length v) (length_nonneg v)) as [H|H];
    [exact H|exfalso].
  apply Hv. symmetry in H. unfold length in H.
  apply sqrt_eq_0 in H; [|apply lengthSq_nonneg].
  unfold lengthSq in H. destruct v as [a b c]; cbn [x y z] in H.
  assert (a = 0) by nra. assert (b = 0) by nra. assert (c = 0) by nra.
  subst. reflexivity.
Qed.

Lemma length_zero_inv (v : Vec) : length v = 0 -> v = zero.
Proof.
  intros H. unfold length in H.
  apply sqrt_eq_0 in H; [|apply lengthSq_nonneg].
  unfold lengthSq in H. destruct v as [a b c]; cbn [x y z] in H.
  assert (a = 0) by nra. assert (b = 0) by nra. assert (c = 0) by nra.
  subst. reflexivity.
Qed.

Lemma sub_nonzero (a b : Vec) : a <> b -> sub a b <> zero.
Proof.
  intros Hab E. apply Hab. destruct a as [a1 a2 a3], b as [b1 b2 b3].
  unfold sub, zero in E; cbn [x y z] in E. injection E as E1 E2 E3.
  f_equal; lra.
Qed.

Lemma sub_self (a : Vec) : sub a a = zero.
Proof. destruct a. unfold sub, zero; cbn [x y z]. f_equal; ring. Qed.

Lemma normalize_zero : normalize zero = zero.
Proof.
  unfold normalize, divideScalar. rewrite length_zero.
  unfold orElse. destruct (Req_dec_T 0 0) as [_|N]; [|lra].
  unfold multiplyScalar, zero; cbn [x y z]. f_equal; lra.
Qed.

Lemma multiplyScalar_zero (k : R) : multiplyScalar zero k = zero.
Proof. unfold multiplyScalar, zero; cbn [x y z]. f_equal; ring. Qed.

Lemma length_normalize (v : Vec) : v <> zero -> length (normalize v) = 1.
Proof.
  intros Hv. unfold length. rewrite normalize_unit by (apply length_pos_of_nonzero; exact Hv).
  apply sqrt_1.
Qed.

(** The launch velocity along a direction of aim. *)
Lemma launch_speed (target origin : Vec) (k : R) :
  target <> origin ->
  length (multiplyScalar (normalize (sub target origin)) k) = Rabs k.
Proof.
  intros H. rewrite length_multiplyScalar, length_normalize by (apply sub_nonzero; exact H).
  ring.
Qed.


(** *** Backing off from the point the ray hits *)

Lemma sub_add_scaled_self (u hit : Vec) (k : R) :
  sub (add (multiplyScalar u k) hit) hit = multiplyScalar u k.
Proof.
  destruct u, hit. unfold sub, add, multiplyScalar; cbn [x y z]. f_equal; ring.
Qed.

Lemma length_sub_sym (a b : Vec) : length (sub a b) = length (sub b a).
Proof.
  unfold length. f_equal. unfold lengthSq, sub; cbn [x y z]. ring.
Qed.

Lemma backoff_from_camera (cam hit : Vec) (b : R) :
  0 < length (sub hit cam) ->
  sub (add (multiplyScalar (normalize (sub hit cam)) (- b)) hit) cam
  = multiplyScalar (normalize (sub hit cam)) (length (sub hit cam) - b).
Proof.
  intros Hd.
  pose proof (normalize_scale (sub hit cam) Hd) as Hn.
  set (u := normalize (sub hit cam)) in *. set (d := length (sub hit cam)) in *.
  assert (E : hit = add cam (multiplyScalar u d)).
  { rewrite Hn. destruct hit, cam. unfold add, sub; cbn [x y z]. f_equal; ring. }
  rewrite E at 1. destruct u, cam.
  unfold sub, add, multiplyScalar; cbn [x y z]. f_equal; ring.
Qed.

(** ** The seeded random numbers of [createMeteorMesh] *)

Section Bits32.

Local Open Scope Z_scope.

Lemma toUint32_range (n : Z) : 0 <= toUint32 n < 2 ^ 32.
Proof. unfold toUint32. apply Z.mod_pos_bound. reflexivity. Qed.

Lemma toUint32_toInt32 (n : Z) : toUint32 (toInt32 n) = toUint32 n.
Proof.
  unfold toUint32, toInt32.
  replace ((n + 2 ^ 31) mod 2 ^ 32 - 2 ^ 31)
    with ((n + 2 ^ 31) mod 2 ^ 32 + - 2 ^ 31) by ring.
  rewrite Z.add_mod_idemp_l by discriminate.
  f_equal. ring.
Qed.

Lemma toUint32_bit (n i : Z) :
  0 <= i -> Z.testbit (toUint32 n) i = if Z.ltb i 32 then Z.testbit n i else false.
Proof.
  intros Hi. unfold toUint32. destruct (Z.ltb_spec i 32).
  - apply Z.mod_pow2_bits_low. lia.
  - apply Z.mod_pow2_bits_high. lia.
Qed.

Lemma toInt32_bit_low (n i : Z) :
  0 <= i < 32 -> Z.testbit (toInt32 n) i = Z.testbit n i.
Proof.
  intros Hi.
  pose proof (toUint32_bit (toInt32 n) i ltac:(lia)) as H1.
  pose proof (toUint32_bit n i ltac:(lia)) as H2.
  rewrite toUint32_toInt32 in H1.
  destruct (Z.ltb_spec i 32); [congruence | lia].
Qed.

Lemma toUint32_xor (a b : Z) :
  toUint32 (xor a b) = Z.lxor (toUint32 a) (toUint32 b).
Proof.
  unfold xor. rewrite toUint32_toInt32. apply Z.bits_inj'. intros i Hi.
  rewrite Z.lxor_spec, !toUint32_bit by exact Hi.
  destruct (Z.ltb_spec i 32); [|reflexivity].
  rewrite Z.lxor_spec, !toInt32_bit_low by lia. reflexivity.
Qed.

Lemma toUint32_shl_bit (a k i : Z) :
  0 <= k -> 0 <= i ->
  Z.testbit (toUint32 (shl a k)) i
  = if Z.ltb i 32 then (if Z.ltb i k then false else Z.testbit (toUint32 a) (i - k))
    else false.
Proof.
  intros Hk Hi. unfold shl. rewrite toUint32_toInt32, toUint32_bit by exact Hi.
  destruct (Z.ltb_spec i 32); [|reflexivity].
  rewrite Z.shiftl_spec by exact Hi.
  destruct (Z.ltb_spec i k).
  - apply Z.testbit_neg_r. lia.
  - rewrite toInt32_bit_low by lia.
    rewrite toUint32_bit by lia.
    destruct (Z.ltb_spec (i - k) 32); [reflexivity | lia].
Qed.

Lemma ushr_bit (a k i : Z) :
  0 <= k -> 0 <= i ->
  Z.testbit (ushr a k) i = Z.testbit (toUint32 a) (i + k).
Proof. intros Hk Hi. unfold ushr. apply Z.shiftr_spec. exact Hi. Qed.

Lemma ushr_range (a k : Z) : 0 <= k -> 0 <= ushr a k < 2 ^ 32.
Proof.
  intros Hk. unfold ushr. pose proof (toUint32_range a) as [H0 H1].
  rewrite Z.shiftr_div_pow2 by exact Hk. split.
  - apply Z.div_pos; [exact H0 | apply Z.pow_pos_nonneg; lia].
  - apply Z.le_lt_trans with (toUint32 a); [|exact H1].
    apply Z.div_le_upper_bound; [apply Z.pow_pos_nonneg; lia|].
    assert (0 < 2 ^ k) by (apply Z.pow_pos_nonneg; lia). nia.
Qed.

Lemma toUint32_small (n : Z) : 0 <= n < 2 ^ 32 -> toUint32 n = n.
Proof. intros H. unfold toUint32. apply Z.mod_small. exact H. Qed.

(** [x ^ (x << k)] is zero on 32 bits only for [x] zero on 32 bits. *)
Lemma xor_shl_nonzero (s k : Z) :
  0 < k -> toUint32 (xor s (shl s k)) = 0 -> toUint32 s = 0.
Proof.
  intros Hk H0. rewrite toUint32_xor in H0.
  apply Z.lxor_eq in H0.
  assert (Hbits : forall (n : nat) (i : Z),
             0 <= i < Z.of_nat n -> Z.testbit (toUint32 s) i = false).
  { induction n as [|n IH]; intros i Hi; [lia|].
    rewrite H0, toUint32_shl_bit by lia.
    destruct (Z.ltb_spec i 32); [|reflexivity].
    destruct (Z.ltb_spec i k); [reflexivity|].
    apply IH. lia. }
  apply Z.bits_inj_0. intros i.
  destruct (Z.lt_ge_cases i 0) as [Hneg|Hi]; [apply Z.testbit_neg_r; exact Hneg|].
  apply (Hbits (S (Z.to_nat i))). lia.
Qed.

(** [x ^ (x >>> k)] is zero on 32 bits only for [x] zero on 32 bits. *)
Lemma xor_ushr_nonzero (s k : Z) :
  0 < k -> toUint32 (xor s (ushr s k)) = 0 -> toUint32 s = 0.
Proof.
  intros Hk H0. rewrite toUint32_xor in H0.
  apply Z.lxor_eq in H0.
  rewrite (toUint32_small (ushr s k)) in H0 by (apply ushr_range; lia).
  assert (Hbits : forall (n : nat) (i : Z),
             0 <= i -> 32 - Z.of_nat n <= i -> Z.testbit (toUint32 s) i = false).
  { induction n as [|n IH]; intros i Hi Hn.
    - rewrite toUint32_bit by exact Hi.
      destruct (Z.ltb_spec i 32); [lia | reflexivity].
    - rewrite H0, ushr_bit by lia. apply IH; lia. }
  apply Z.bits_inj_0. intros i.
  destruct (Z.lt_ge_cases i 0) as [Hneg|Hi]; [apply Z.testbit_neg_r; exact Hneg|].
  apply (Hbits 32%nat); lia.
Qed.

Lemma next_nonzero (s : Z) : toUint32 s <> 0 -> toUint32 (MakeRNG.next s) <> 0.
Proof.
  intros Hs. unfold MakeRNG.next. cbv zeta. intros H. apply Hs.
  pose proof (xor_shl_nonzero _ 5 eq_refl H) as H2.
  pose proof (xor_ushr_nonzero _ 17 eq_refl H2) as H1.
  exact (xor_shl_nonzero _ 13 eq_refl H1).
Qed.

Lemma stateAfter_nonzero (n : nat) (s : Z) :
  toUint32 s <> 0 -> toUint32 (MakeRNG.stateAfter n s) <> 0.
Proof.
  intros Hs. induction n as [|n IH]; [exact Hs|].
  unfold MakeRNG.stateAfter in *. cbn [Nat.iter]. apply next_nonzero. exact IH.
Qed.

End Bits32.

Lemma rng_range (s : Z) :
  toUint32 s <> 0%Z -> 0 < fst (MakeRNG.rng s) < 1.
Proof.
  intros Hs. unfold MakeRNG.rng. cbv zeta. cbn [fst].
  pose proof (next_nonzero s Hs) as Hn.
  pose proof (toUint32_range (MakeRNG.next s)) as [H0 H1].
  unfold ushr. rewrite Z.shiftr_0_r.
  set (u := toUint32 (MakeRNG.next s)) in *.
  assert (Hu0 : (0 < u)%Z) by lia.
  apply IZR_lt in Hu0. apply IZR_lt in H1.
  change (2 ^ 32)%Z with 4294967296%Z in H1.
  split.
  - apply Rmult_lt_0_compat; [exact Hu0 | apply Rinv_0_lt_compat; lra].
  - apply Rmult_lt_reg_r with 4294967296; [lra|].
    unfold Rdiv. rewrite Rmult_assoc, Rinv_l by lra. lra.
Qed.

(** ** [smoothstep] *)

Lemma smoothstep_cubic_range (t : R) : 0 <= t <= 1 -> 0 <= t * t * (3 - 2 * t) <= 1.
Proof.
  intros [H0 H1]. split.
  - apply Rmult_le_pos; [apply Rmult_le_pos; lra | lra].
  - assert (0 <= (1 - t) * (1 - t) * (1 + 2 * t))
      by (apply Rmult_le_pos; [apply Rmult_le_pos; lra | lra]).
    nra.
Qed.

Lemma smoothstep_cubic_mono (s t : R) :
  0 <= s <= t -> t <= 1 -> s * s * (3 - 2 * s) <= t * t * (3 - 2 * t).
Proof.
  intros [H0 Hst] H1.
  assert (E : t * t * (3 - 2 * t) - s * s * (3 - 2 * s)
              = (t - s) * (3 * (t + s) - 2 * (t * t + t * s + s * s))) by ring.
  assert (0 <= 3 * (t + s) - 2 * (t * t + t * s + s * s)).
  { assert (0 <= t * (1 - t)) by (apply Rmult_le_pos; lra).
    assert (0 <= s * (1 - s)) by (apply Rmult_le_pos; lra).
    assert (0 <= s * (1 - t)) by (apply Rmult_le_pos; lra).
    assert (0 <= t * (1 - s)) by (apply Rmult_le_pos; lra).
    nra. }
  assert (0 <= (t - s) * (3 * (t + s) - 2 * (t * t + t * s + s * s)))
    by (apply Rmult_le_pos; lra).
  lra.
Qed.

Lemma clamp01_range (u : R) : 0 <= Rmax 0 (Rmin 1 u) <= 1.
Proof.
  split; [apply Rmax_l|].
  apply Rmax_lub; [lra | apply Rmin_l].
Qed.

Lemma clamp01_mono (u v : R) : u <= v -> Rmax 0 (Rmin 1 u) <= Rmax 0 (Rmin 1 v).
Proof.
  intros H. apply Rmax_case_strong; apply Rmax_case_strong;
    apply Rmin_case_strong; apply Rmin_case_strong; lra.
Qed.

(** ** Time to live of a meteor spawned without one *)

Section FirstFrame.
Variable realistic : bool.
Variable simSpeed : R.

(** The first frame of a meteor whose [ttl] is missing sets it to 8,
    whatever the length of the frame. *)
Lemma frame_without_ttl (dt : R) (m : Meteor) :
  active m = true -> fading m = false -> ttl m = None ->
  earthRadius + 0.2 <= length (position m) ->
  exists m', AppJs.animateMeteor realistic simSpeed dt m = (m', None)
             /\ active m' = true /\ fading m' = false
             /\ ttl m' = Some 8.0 /\ opacity m' = opacity m.
Proof.
  intros Ha Hf Ht Hr. unfold AppJs.animateMeteor. rewrite Ha. cbn [negb].
  destruct (step_keeps realistic simSpeed m) as (Ka & Kt & Kf & Ko).
  set (st := if realistic then AppJs.realisticStep simSpeed m
             else AppJs.gameStep simSpeed m) in *.
  destruct (Rlt_dec _ _) as [Hlt | _]; [lra|].
  eexists. split; [reflexivity|].
  unfold AppJs.ageMeteor. rewrite Kt, Ht.
  destruct (Rle_dec 8.0 0) as [Hle | _]; [lra|].
  cbn [fading setTtl]. rewrite Kf, Hf. cbn. rewrite Ka, Ko, Kf.
  repeat split; assumption.
Qed.

End FirstFrame.

(** ** The energy of an impact under the game-like model *)

Lemma app_game_frame_keeps (simSpeed dt : R) (m : Meteor) :
  let m' := fst (AppJs.animateMeteor false simSpeed dt m) in
  physVelocity m' = physVelocity m /\ mass m' = mass m.
Proof.
  cbv zeta. unfold AppJs.animateMeteor.
  destruct (negb (active m)); [split; reflexivity|].
  destruct (Rlt_dec _ _); cbn [fst]; split.
  - transitivity (physVelocity (AppJs.ageMeteor dt (AppJs.gameStep simSpeed m)));
      [reflexivity | apply physVelocity_app_game].
  - transitivity (mass (AppJs.ageMeteor dt (AppJs.gameStep simSpeed m)));
      [reflexivity | rewrite mass_ageMeteor; apply (mass_app_step false)].
  - apply physVelocity_app_game.
  - rewrite mass_ageMeteor. apply (mass_app_step false).
Qed.

Lemma app_game_report (simSpeed dt : R) (m : Meteor) (pv : Vec) (rep : ImpactReport) :
  physVelocity m = Some pv ->
  snd (AppJs.animateMeteor false simSpeed dt m) = Some rep ->
  ke rep = 0.5 * orElse (mass m) 1 * length pv * length pv.
Proof.
  intros Hpv Hrep. unfold AppJs.animateMeteor in Hrep.
  destruct (negb (active m)); [discriminate|].
  destruct (Rlt_dec _ _); [|discriminate].
  cbn [snd] in Hrep. injection Hrep as <-.
  unfold impactEnergy. cbn [ke]. unfold speedAtImpact.
  rewrite physVelocity_app_game, Hpv, mass_ageMeteor.
  rewrite (mass_app_step false). reflexivity.
Qed.

Lemma flight_game_reports (simSpeed : R) (frames : list R) (m : Meteor) (pv : Vec) :
  physVelocity m = Some pv ->
  Forall (fun rep => ke rep = 0.5 * orElse (mass m) 1 * length pv * length pv)
         (snd (flight false simSpeed frames m)).
Proof.
  revert m. induction frames as [|f rest IH]; intros m Hpv; [constructor|].
  cbn [flight].
  pose proof (app_game_frame_keeps simSpeed (AppJs.frameDt simSpeed f) m) as [Kp Km].
  pose proof (app_game_report simSpeed (AppJs.frameDt simSpeed f) m pv) as Hrep.
  destruct (AppJs.animateMeteor false simSpeed (AppJs.frameDt simSpeed f) m) as [m1 rep].
  cbn [fst snd] in *.
  specialize (IH m1 ltac:(congruence)). rewrite Km in IH.
  destruct (flight false simSpeed rest m1) as [m2 reps]. cbn [snd] in *.
  destruct rep as [rep|]; [|exact IH].
  constructor; [apply Hrep; [exact Hpv | reflexivity] | exact IH].
Qed.

(** ** Properties of the code around the physics *)

(** X1: the scale [createMeteorMesh] gives a meteor's mesh is the mapped
    visual radius itself, for every diameter, negative ones included: the
    floor of 0.005 never applies, and the scale lies between the radii of
    the smallest and the largest anchor. *)
Theorem X1_mesh_scale_between_anchor_radii (sizeMeters : R) :
  VisualRadius.meshScale sizeMeters = VisualRadius.visualRadiusBase sizeMeters
  /\ sqrt (468 / PI) / 1000 <= VisualRadius.meshScale sizeMeters
     <= sqrt (9596961 / PI) / 1000
  /\ 0.005 < VisualRadius.meshScale sizeMeters.
Proof.
  pose proof (visualRadiusBase_range sizeMeters) as [Hlo Hhi].
  pose proof radiusAt_0_floor as Hfloor.
  assert (E : VisualRadius.meshScale sizeMeters
              = VisualRadius.visualRadiusBase sizeMeters).
  { unfold VisualRadius.meshScale, VisualRadius.VISUAL_AMPLIFIER. cbv zeta.
    replace (VisualRadius.visualRadiusBase sizeMeters * 1.0)
      with (VisualRadius.visualRadiusBase sizeMeters) by lra.
    apply Rmax_left. lra. }
  rewrite E.
  unfold VisualRadius.radiusAt, VisualRadius.anchorRadii, VisualRadius.anchors in *.
  cbn [map nth VisualRadius.area] in *.
  repeat split; lra.
Qed.

(** X2: the visual radius never shrinks when the diameter grows. *)
Theorem X2_visual_radius_monotone (d d' : R) :
  d <= d' ->
  VisualRadius.visualRadiusBase d <= VisualRadius.visualRadiusBase d'.
Proof. apply visualRadiusBase_mono. Qed.

(** X2, witness: 10 m against 20 km. *)
Lemma X2_visual_radius_monotone_witness :
  VisualRadius.visualRadiusBase 10 <= VisualRadius.visualRadiusBase 20000.
Proof. apply X2_visual_radius_monotone. lra. Defined.

(** X3: between the first anchor, 0.1 m, and the last, 80 km, a larger
    diameter always gets a strictly larger visual radius. *)
Theorem X3_visual_radius_strict (d d' : R) :
  0.1 <= d -> d < d' -> d' <= 80000 ->
  VisualRadius.visualRadiusBase d < VisualRadius.visualRadiusBase d'.
Proof. apply visualRadiusBase_strict. Qed.

(** X3, witness: 99 m against 101 m, across the anchor at 100 m. *)
Lemma X3_visual_radius_strict_witness :
  VisualRadius.visualRadiusBase 99 < VisualRadius.visualRadiusBase 101.
Proof. apply X3_visual_radius_strict; lra. Defined.

(** X4: at the diameter of each anchor the visual radius is that anchor's
    radius, the radius of a disc with the anchor's area, in thousands of
    kilometers. *)
Theorem X4_visual_radius_at_anchors :
  Forall (fun a => VisualRadius.visualRadiusBase (VisualRadius.m a)
                   = sqrt (VisualRadius.area a / PI) / 1000)
         VisualRadius.anchors.
Proof.
  assert (Ha : forall i, (i <= 5)%nat ->
                 VisualRadius.visualRadiusBase (VisualRadius.m (VisualRadius.anchorAt i))
                 = sqrt (VisualRadius.area (VisualRadius.anchorAt i) / PI) / 1000).
  { intros i Hi. rewrite visualRadiusBase_at_anchor by exact Hi.
    unfold VisualRadius.radiusAt, VisualRadius.anchorRadii, VisualRadius.anchorAt,
      VisualRadius.anchors.
    do 6 (destruct i as [|i]; [cbn [map nth VisualRadius.area]; lra|]). lia. }
  unfold VisualRadius.anchors.
  repeat constructor.
  - exact (Ha 0%nat ltac:(lia)).
  - exact (Ha 1%nat ltac:(lia)).
  - exact (Ha 2%nat ltac:(lia)).
  - exact (Ha 3%nat ltac:(lia)).
  - exact (Ha 4%nat ltac:(lia)).
  - exact (Ha 5%nat ltac:(lia)).
Qed.

(** X5: the ring [createImpact] builds has a positive inner radius below
    its outer radius whatever size it is given; a size of 0 or no size
    counts as 1 m, and every size below 0.1 m, negative ones included,
    gives the ring of the smallest anchor. *)
Theorem X5_impact_ring_radii (size : option R) :
  0 < VisualRadius.ringInner size < VisualRadius.ringOuter size
  /\ VisualRadius.visualBase (Some 0) = VisualRadius.visualBase (Some 1)
  /\ VisualRadius.visualBase None = VisualRadius.visualBase (Some 1)
  /\ (forall d, d <> 0 -> d <= 0.1 ->
                VisualRadius.visualBase (Some d) = sqrt (468 / PI) / 1000).
Proof.
  pose proof radiusAt_0_floor as Hfloor.
  split.
  { unfold VisualRadius.ringInner, VisualRadius.ringOuter, VisualRadius.visualBase.
    pose proof (visualRadiusBase_range (VisualRadius.impactSizeMeters size)) as [Hlo _].
    lra. }
  split.
  { unfold VisualRadius.visualBase, VisualRadius.impactSizeMeters, orElse.
    destruct (Req_dec_T 0 0) as [_|N]; [|lra].
    destruct (Req_dec_T 1 0) as [N|_]; [lra|]. reflexivity. }
  split; [reflexivity|].
  intros d Hd Hle.
  unfold VisualRadius.visualBase, VisualRadius.impactSizeMeters.
  rewrite orElse_nonzero by exact Hd.
  destruct (visualRadiusBase_segment (Rmax 0.01 d)) as (i & Hi & Hm & Hmi & E).
  assert (Hc : VisualRadius.clampM (Rmax 0.01 d) = 0.1).
  { unfold VisualRadius.clampM, VisualRadius.minM, VisualRadius.maxM,
      VisualRadius.anchorAt, VisualRadius.anchors;
    cbn [List.length Nat.sub nth VisualRadius.m].
    assert (Rmax 0.01 d <= 0.1) by (apply Rmax_lub; lra).
    rewrite Rmin_right by lra. apply Rmax_left. lra. }
  rewrite Hc in *.
  assert (i = 0%nat).
  { destruct i as [|i]; [reflexivity|exfalso].
    pose proof (anchorAt_mono 1 (S i) ltac:(lia) ltac:(lia)) as H1.
    assert (VisualRadius.m (VisualRadius.anchorAt (S i)) < 0.1) by (apply Hmi; lia).
    unfold VisualRadius.anchorAt at 1, VisualRadius.anchors in H1;
      cbn [nth VisualRadius.m] in H1. lra. }
  subst i. rewrite E.
  unfold VisualRadius.anchorAt, VisualRadius.anchors; cbn [nth VisualRadius.m].
  replace (0.1 - 0.1) with 0 by lra. unfold Rdiv at 1. rewrite Rmult_0_l.
  rewrite Math_pow_zero by (unfold VisualRadius.gammaAt, VisualRadius.gammas; cbn [nth]; lra).
  unfold VisualRadius.radiusAt, VisualRadius.anchorRadii, VisualRadius.anchors.
  cbn [map nth VisualRadius.area]. lra.
Qed.


(** X6: an impact effect of [app.js] lives two simulated seconds.  Through
    unpaused frames of non-negative length it stays in [impactEffects] as
    long as the frame times add up to less than 2, and is dropped by the
    frame in which they reach 2; while it lives, after at least one frame,
    its age is that sum, the opacity of its ring the remaining life
    divided by 2, and its in-plane scale has grown by a quarter of the
    sum.  [mushroomLife] plays no part. *)
Theorem X6_effect_lives_two_seconds (simSpeed : R) (pos : Vec) (size : option R)
        (maxRadius : R) (mushroomBuilt : bool) (dts : list R) :
  Forall (fun dt => 0 <= dt) dts ->
  let e0 := AppJsWorld.createImpact pos size maxRadius mushroomBuilt in
  (AppJsWorld.effectFlight simSpeed dts e0 <> None <-> total dts < 2)
  /\ (forall e', dts <> [] -> AppJsWorld.effectFlight simSpeed dts e0 = Some e' ->
                 AppJsWorld.age e' = Some (total dts)
                 /\ AppJsWorld.ringOpacity e' = (2 - total dts) / 2
                 /\ AppJsWorld.scale e' = 1 + 0.25 * total dts).
Proof.
  intros Hall e0.
  assert (HL : AppJsWorld.totalLife e0 = None) by reflexivity.
  assert (HG : AppJsWorld.growRate e0 = None) by reflexivity.
  assert (HA : AppJsWorld.age e0 = None) by reflexivity.
  assert (HS : AppJsWorld.scale e0 = 1) by reflexivity.
  split.
  - pose proof (effectFlight_alive simSpeed dts e0 HL Hall) as H.
    rewrite HA in H. cbn [orUndef] in H. rewrite Rplus_0_l in H. apply H. lra.
  - intros e' Hne He.
    pose proof (effectFlight_state simSpeed dts e0 e' HL HG ltac:(lra) Hall Hne He)
      as (Ha & Ho & Hs).
    rewrite HA in *. cbn [orUndef] in *. rewrite Rplus_0_l in *. rewrite HS in Hs.
    repeat split; assumption.
Qed.

(** X6, witness: two frames of half a second. *)
Lemma X6_effect_lives_two_seconds_witness :
  AppJsWorld.effectFlight 1 [0.5; 0.5]
    (AppJsWorld.createImpact (mk 0 0 6.5) (Some 0.5) 0.02 true) <> None
  <-> total [0.5; 0.5] < 2.
Proof.
  apply (X6_effect_lives_two_seconds 1 (mk 0 0 6.5) (Some 0.5) 0.02 true [0.5; 0.5]).
  repeat constructor; lra.
Defined.

(** X7: the mushroom of an impact effect rises along the impact normal at
    [mushroomRiseSpeed] per simulated second until it has risen by
    [mushroomMaxLift], and no further: after any frames of non-negative
    length that the effect survives, the lift is the smaller of the
    maximum and rise speed times elapsed time, and the group sits at its
    starting point displaced by that lift along the normal. *)
Theorem X7_mushroom_lift (simSpeed : R) (pos : Vec) (size : option R)
        (maxRadius : R) (dts : list R) :
  Forall (fun dt => 0 <= dt) dts ->
  let visualBase := VisualRadius.visualBase size in
  let maxLift := Rmax 0.02 (visualBase * 0.7) in
  let lift := Rmin maxLift (Rmax 0.0001 (visualBase * 0.035) * total dts) in
  forall e',
    AppJsWorld.effectFlight simSpeed dts
      (AppJsWorld.createImpact pos size maxRadius true) = Some e' ->
    exists g,
      AppJsWorld.mushroomGroup e' = Some g
      /\ orUndef (AppJsWorld.mushroomLiftSoFar e') 0 = lift
      /\ AppJsWorld.groupPosition g
         = add (setLength pos (earthRadius + 0.001))
               (multiplyScalar (normalize pos) lift)
      /\ 0 <= lift <= maxLift.
Proof.
  intros Hall visualBase maxLift lift e' He.
  set (e0 := AppJsWorld.createImpact pos size maxRadius true) in *.
  assert (Hrise : orUndef (AppJsWorld.mushroomRiseSpeed e0) 0.002
                  = Rmax 0.0001 (visualBase * 0.035)).
  { pose proof (Rmax_l 0.0001 (visualBase * 0.035)) as Hr.
    unfold e0, visualBase in *.
    cbn [AppJsWorld.createImpact AppJsWorld.mushroomRiseSpeed orUndef].
    apply orElse_nonzero. lra. }
  assert (Hmax : orUndef (AppJsWorld.mushroomMaxLift e0) 0.1 = maxLift).
  { pose proof (Rmax_l 0.02 (visualBase * 0.7)) as Hm.
    unfold e0, maxLift, visualBase in *.
    cbn [AppJsWorld.createImpact AppJsWorld.mushroomMaxLift orUndef].
    apply orElse_nonzero. lra. }
  assert (Hl0 : orUndef (AppJsWorld.mushroomLiftSoFar e0) 0 = 0) by reflexivity.
  pose proof (Rmax_l 0.0001 (visualBase * 0.035)) as Hr0.
  pose proof (Rmax_l 0.02 (visualBase * 0.7)) as Hm0. fold maxLift in Hm0.
  pose proof (total_nonneg dts Hall) as Ht.
  destruct (effectFlight_mushroom simSpeed dts e0 e' _ eq_refl eq_refl Hall)
    as (g & Hg & Hl & Hp); [rewrite Hrise; lra | rewrite Hl0, Hmax; lra | exact He |].
  rewrite Hrise, Hmax, Hl0 in Hl, Hp. rewrite Rplus_0_l in Hl, Hp.
  rewrite Rminus_0_r in Hp.
  exists g. repeat split; try assumption.
  - unfold lift. apply Rmin_glb; [lra|].
    apply Rmult_le_pos; lra.
  - apply Rmin_l.
Qed.

(** X7, witness: one frame of one second. *)
Lemma X7_mushroom_lift_witness :
  exists e' g,
    AppJsWorld.effectFlight 1 [1]
      (AppJsWorld.createImpact (mk 0 0 6.5) (Some 0.5) 0.02 true) = Some e'
    /\ AppJsWorld.mushroomGroup e' = Some g
    /\ orUndef (AppJsWorld.mushroomLiftSoFar e') 0
       = Rmin (Rmax 0.02 (VisualRadius.visualBase (Some 0.5) * 0.7))
              (Rmax 0.0001 (VisualRadius.visualBase (Some 0.5) * 0.035) * total [1]).
Proof.
  assert (Hall : Forall (fun dt => 0 <= dt) [1]) by (repeat constructor; lra).
  destruct (AppJsWorld.effectFlight 1 [1]
              (AppJsWorld.createImpact (mk 0 0 6.5) (Some 0.5) 0.02 true)) as [e'|] eqn:E.
  - destruct (X7_mushroom_lift 1 (mk 0 0 6.5) (Some 0.5) 0.02 [1] Hall e' E)
      as (g & Hg & Hl & _).
    exists e', g. repeat split; assumption.
  - exfalso. revert E.
    apply (effectFlight_alive 1 [1]
             (AppJsWorld.createImpact (mk 0 0 6.5) (Some 0.5) 0.02 true) eq_refl Hall).
    + cbn [AppJsWorld.createImpact AppJsWorld.age orUndef]. lra.
    + cbn [AppJsWorld.createImpact AppJsWorld.age orUndef total]. lra.
Defined.

(** X8: an impact ring of [main.js] starts at opacity 0.8 and loses
    [0.02 * simSpeed] in every frame, paused or not: with non-negative
    slider values it stays in [impactEffects] exactly while the values
    add up to less than 40, and while it stays its opacity and its scale
    are linear in that sum and its position does not move. *)
Theorem X8_ring_lifetime (pos : Vec) (speeds : list R) :
  Forall (fun s => 0 <= s) speeds ->
  let e0 := MainJsWorld.createImpact pos in
  (MainJsWorld.ringFlight speeds e0 <> None <-> total speeds < 40)
  /\ (forall e', MainJsWorld.ringFlight speeds e0 = Some e' ->
                 MainJsWorld.ringOpacity e' = 0.8 - 0.02 * total speeds
                 /\ MainJsWorld.ringScale e'
                    = mk (1 + 0.05 * total speeds) (1 + 0.05 * total speeds)
                         (1 + 0.05 * total speeds)
                 /\ MainJsWorld.ringPosition e'
                    = multiplyScalar (normalize pos) (earthRadius + 0.01)).
Proof.
  intros Hall e0. split.
  - pose proof (ringFlight_alive speeds e0 Hall) as H.
    cbn [e0 MainJsWorld.createImpact MainJsWorld.ringOpacity] in H.
    rewrite H by lra. split; intros; lra.
  - intros e' He. destruct (ringFlight_some speeds e0 e' He) as (Ho & Hs & Hp).
    cbn [e0 MainJsWorld.createImpact MainJsWorld.ringOpacity MainJsWorld.ringScale
         MainJsWorld.ringPosition] in *.
    repeat split; assumption.
Qed.

(** X8, witness: three frames at slider value 1. *)
Lemma X8_ring_lifetime_witness :
  MainJsWorld.ringFlight [1; 1; 1] (MainJsWorld.createImpact (mk 0 0 6.5)) <> None
  <-> total [1; 1; 1] < 40.
Proof.
  apply (X8_ring_lifetime (mk 0 0 6.5) [1; 1; 1]).
  repeat constructor; lra.
Defined.

(** X9: the bookkeeping of [main.js].  After any sequence of shots,
    asteroid spawns, resets and frames, the impact counter plus the number
    of meteors in the list is the number of meteors launched since the
    last reset, and every meteor in the list is live: a meteor leaves the
    list only by an impact that is counted. *)
Theorem X9_main_every_meteor_accounted (events : list MainJsWorld.Event) :
  let w := MainJsWorld.run events in
  (MainJsWorld.impactCount w + List.length (MainJsWorld.meteors w))%nat
  = MainJsWorld.launched events
  /\ Forall (fun m => active m = true) (MainJsWorld.meteors w).
Proof.
  cbv zeta. unfold MainJsWorld.run, MainJsWorld.launched.
  apply (run_invariant events 0 MainJsWorld.initial).
  split; [reflexivity | constructor].
Qed.

(** X10: the bookkeeping of [app.js].  After any sequence of events the
    impact counter plus the number of meteors in the list is at most the
    number of meteors launched since the last reset (a meteor may also
    leave by fading out), and every meteor in the list is live. *)
Theorem X10_app_every_meteor_accounted (events : list AppJsWorld.Event)
        (cameraPos cursorPos : Vec) :
  let w := AppJsWorld.run events (AppJsWorld.initial cameraPos cursorPos) in
  (AppJs.impactCount (AppJsWorld.app w)
   + List.length (AppJs.meteors (AppJsWorld.app w)) <= AppJsWorld.launched events)%nat
  /\ Forall (fun m => active m = true) (AppJs.meteors (AppJsWorld.app w)).
Proof.
  cbv zeta. unfold AppJsWorld.launched.
  apply (app_run_invariant events 0 (AppJsWorld.initial cameraPos cursorPos)).
  split; [cbn; lia | constructor].
Qed.



(** X12: where [app.js] puts a spawned asteroid when the ray from the
    camera hits something.  The spawn point lies on the segment from the
    camera to the hit point: its distance to the hit point is a quarter of
    the camera's distance, capped at 5 scene units, and its distances to
    the camera and to the hit point add up to the camera's distance.  This
    also holds when the hit point is the camera position. *)
Theorem X12_spawn_between_camera_and_hit (cameraPos forward hitPoint : Vec) :
  let p := AppJsWorld.spawnPosition cameraPos forward (AppJsWorld.Hits hitPoint) in
  let d := length (sub cameraPos hitPoint) in
  length (sub p hitPoint) = Rmin (d * 0.25) 5
  /\ length (sub p cameraPos) = d - Rmin (d * 0.25) 5
  /\ 0.75 * d <= length (sub p cameraPos) <= d.
Proof.
  cbv zeta. unfold AppJsWorld.spawnPosition.
  set (d := length (sub cameraPos hitPoint)).
  set (b := Rmin (d * 0.25) 5).
  assert (Hd0 : 0 <= d) by apply length_nonneg.
  assert (Hb : 0 <= b <= d * 0.25).
  { unfold b. split; [apply Rmin_glb; lra | apply Rmin_l]. }
  assert (Hsym : length (sub hitPoint cameraPos) = d) by apply length_sub_sym.
  assert (E1 : length (sub (add (multiplyScalar (normalize (sub hitPoint cameraPos)) (- b))
                                hitPoint) hitPoint) = b
               /\ length (sub (add (multiplyScalar (normalize (sub hitPoint cameraPos)) (- b))
                                   hitPoint) cameraPos) = d - b).
  { destruct (Rle_lt_or_eq_dec 0 d Hd0) as [Hpos | Hz].
    - assert (Hu : length (normalize (sub hitPoint cameraPos)) = 1).
      { unfold length at 1. rewrite normalize_unit by lra. apply sqrt_1. }
      split.
      + rewrite sub_add_scaled_self, length_multiplyScalar, Hu.
        rewrite Rabs_Ropp, Rabs_pos_eq by lra. ring.
      + rewrite backoff_from_camera by lra. rewrite Hsym, length_multiplyScalar, Hu.
        rewrite Rabs_pos_eq by lra. ring.
    - assert (Hb0 : b = 0) by lra.
      assert (Hh : sub hitPoint cameraPos = zero).
      { apply length_zero_inv. lra. }
      assert (Hc : sub cameraPos hitPoint = zero).
      { apply length_zero_inv. fold d. lra. }
      rewrite Hh, normalize_zero, multiplyScalar_zero.
      assert (Ez : forall v, add zero v = v).
      { intros [a1 a2 a3]. unfold add, zero; cbn [x y z]. f_equal; ring. }
      rewrite Ez, sub_self, length_zero.
      rewrite (length_sub_sym hitPoint cameraPos). fold d. split; lra. }
  destruct E1 as [E1 E2]. rewrite E1, E2. repeat split; lra.
Qed.

(** X13: the xorshift generator of [createMeteorMesh] never reaches the
    all-zero state from a non-zero seed: after any number of calls the
    32-bit state is non-zero, and the next number returned lies strictly
    between 0 and 1, so the generator never returns 0. *)
Theorem X13_rng_state_never_zero (s : Z) (n : nat) :
  toUint32 s <> 0%Z ->
  let s' := MakeRNG.stateAfter n s in
  toUint32 s' <> 0%Z
  /\ 0 < fst (MakeRNG.rng s') < 1
  /\ snd (MakeRNG.rng s') = MakeRNG.stateAfter (S n) s.
Proof.
  intros Hs. cbv zeta. pose proof (stateAfter_nonzero n s Hs) as Hn.
  split; [exact Hn|]. split; [exact (rng_range _ Hn)|].
  unfold MakeRNG.rng. cbv zeta. unfold snd, MakeRNG.stateAfter.
  rewrite Nat.iter_succ. reflexivity.
Qed.

(** X13, witness: seed 1, two calls. *)
Lemma X13_rng_state_never_zero_witness :
  toUint32 (MakeRNG.stateAfter 2 1) <> 0%Z
  /\ 0 < fst (MakeRNG.rng (MakeRNG.stateAfter 2 1)) < 1
  /\ snd (MakeRNG.rng (MakeRNG.stateAfter 2 1)) = MakeRNG.stateAfter 3 1.
Proof.
  apply (X13_rng_state_never_zero 1 2). vm_compute. discriminate.
Defined.

(** X14: [smoothstep] with [edge0 < edge1] maps into [0, 1], is 0 up to
    [edge0], 1 from [edge1] on, and never decreases. *)
Theorem X14_smoothstep_shape (edge0 edge1 : R) :
  edge0 < edge1 ->
  (forall xx, 0 <= smoothstep edge0 edge1 xx <= 1)
  /\ (forall xx, xx <= edge0 -> smoothstep edge0 edge1 xx = 0)
  /\ (forall xx, edge1 <= xx -> smoothstep edge0 edge1 xx = 1)
  /\ (forall xx yy, xx <= yy -> smoothstep edge0 edge1 xx <= smoothstep edge0 edge1 yy).
Proof.
  intros He.
  assert (Hinv : 0 < / (edge1 - edge0)) by (apply Rinv_0_lt_compat; lra).
  repeat split.
  - apply smoothstep_cubic_range, clamp01_range.
  - apply smoothstep_cubic_range, clamp01_range.
  - intros xx Hx. unfold smoothstep. cbv zeta.
    assert ((xx - edge0) / (edge1 - edge0) <= 0).
    { unfold Rdiv. assert (0 <= (edge0 - xx) * / (edge1 - edge0))
        by (apply Rmult_le_pos; lra). lra. }
    rewrite Rmin_right by lra. rewrite Rmax_left by lra. ring.
  - intros xx Hx. unfold smoothstep. cbv zeta.
    assert (1 <= (xx - edge0) / (edge1 - edge0)).
    { unfold Rdiv.
      assert (0 <= (xx - edge1) * / (edge1 - edge0)) by (apply Rmult_le_pos; lra).
      assert ((edge1 - edge0) * / (edge1 - edge0) = 1) by (apply Rinv_r; lra).
      lra. }
    rewrite Rmin_left by lra. rewrite Rmax_right by lra. ring.
  - intros xx yy Hxy. unfold smoothstep. cbv zeta.
    apply smoothstep_cubic_mono.
    + split; [apply clamp01_range|]. apply clamp01_mono.
      unfold Rdiv. apply Rmult_le_compat_r; lra.
    + apply clamp01_range.
Qed.

(** X14, witness: the crater thresholds 0.18 and 0.85. *)
Lemma X14_smoothstep_shape_witness :
  0 <= smoothstep 0.18 0.85 0.5 <= 1.
Proof.
  apply (X14_smoothstep_shape 0.18 0.85). lra.
Defined.

(** X15: the two screen conversions are inverse to each other.  A label
    whose anchor projects to the normalized device coordinates
    [onMouseMove] computes for the pointer is put by [updateLabels] at the
    pointer's own pixel, for every window of non-zero width and height. *)
Theorem X15_label_under_pointer (clientX clientY innerWidth innerHeight : R) :
  innerWidth <> 0 -> innerHeight <> 0 ->
  let mouse := mouseOf clientX clientY innerWidth innerHeight in
  labelPixel (fst mouse) (snd mouse) innerWidth innerHeight = (clientX, clientY).
Proof.
  intros Hw Hh. unfold mouseOf, labelPixel. cbv zeta. cbn [fst snd].
  f_equal.
  - replace ((clientX / innerWidth * 2 - 1) * 0.5 + 0.5) with (clientX / innerWidth) by lra.
    unfold Rdiv. rewrite Rmult_assoc, Rinv_l by exact Hw. ring.
  - replace (- (- (clientY / innerHeight) * 2 + 1) * 0.5 + 0.5)
      with (clientY / innerHeight) by lra.
    unfold Rdiv. rewrite Rmult_assoc, Rinv_l by exact Hh. ring.
Qed.

(** X15, witness: a window of 800 by 600 pixels. *)
Lemma X15_label_under_pointer_witness :
  labelPixel (fst (mouseOf 200 150 800 600)) (snd (mouseOf 200 150 800 600)) 800 600
  = (200, 150).
Proof.
  apply (X15_label_under_pointer 200 150 800 600); lra.
Defined.

(** X16: an asteroid [app.js] spawns carries no [ttl], unlike a fired
    meteor (800).  Its first frame, when it starts at least
    [earthRadius + 0.2] from the center, sets the [ttl] to 8 whatever the
    length of that frame, reports no impact and leaves it live and not
    fading. *)
Theorem X16_spawned_asteroid_ttl (size velocity : R) (lookDir : Vec)
        (ray : AppJsWorld.Raycast) (a : AppJs.App)
        (realistic : bool) (simSpeed dt : R) :
  exists m,
    AppJs.meteors (AppJsWorld.spawnSelectedAsteroid size velocity lookDir ray a)
    = AppJs.meteors a ++ [m]
    /\ ttl m = None
    /\ (earthRadius + 0.2 <= length (position m) ->
        exists m', AppJs.animateMeteor realistic simSpeed dt m = (m', None)
                   /\ ttl m' = Some 8.0 /\ active m' = true /\ fading m' = false).
Proof.
  unfold AppJsWorld.spawnSelectedAsteroid. cbv zeta.
  cbn [AppJs.meteors AppJs.setMeteors].
  eexists. split; [reflexivity|]. split; [reflexivity|].
  intros Hr.
  match type of Hr with
  | _ <= length (position ?m) =>
      destruct (frame_without_ttl realistic simSpeed dt m eq_refl eq_refl eq_refl Hr)
        as (m' & E & Ha & Hf & Ht & _)
  end.
  exists m'. repeat split; assumption.
Qed.

(** X17: under the game-like model of [app.js] the energy of an impact is
    fixed at launch.  A meteor fired toward a target other than the camera
    position reports, at whatever frame it hits, the kinetic energy of its
    launch speed [|speed| * SCENE_SCALE]: the fall toward the Earth does
    not enter. *)
Theorem X17_game_energy_fixed_at_launch (speedInput sizeInput : option R)
        (a : AppJs.App) (simSpeed : R) (frames : list R) :
  let speed := match speedInput with Some s => s | None => 0.05 end in
  let target := if AppJs.markerVisible a then AppJs.markerPosition a
                else AppJs.cursorPosition a in
  exists m,
    AppJs.meteors (AppJs.shootMeteor speedInput sizeInput a) = AppJs.meteors a ++ [m]
    /\ (target <> AppJs.cameraPosition a ->
        Forall (fun rep => ke rep = 0.5 * orElse (mass m) 1
                                    * (speed * SCENE_SCALE) * (speed * SCENE_SCALE))
               (snd (flight false simSpeed frames m))).
Proof.
  intros speed target. unfold AppJs.shootMeteor. cbv zeta. fold speed.
  cbn [AppJs.meteors AppJs.setMeteors].
  eexists. split; [reflexivity|]. intros Hne.
  assert (Hdir : (if AppJs.markerVisible a
                  then normalize (sub (AppJs.markerPosition a) (AppJs.cameraPosition a))
                  else normalize (sub (AppJs.cursorPosition a) (AppJs.cameraPosition a)))
                 = normalize (sub target (AppJs.cameraPosition a))).
  { unfold target. destruct (AppJs.markerVisible a); reflexivity. }
  rewrite Hdir.
  eapply Forall_impl; [|apply flight_game_reports; reflexivity].
  intros rep Hrep. cbv beta in Hrep. rewrite Hrep.
  rewrite launch_speed by exact Hne.
  set (k := speed * SCENE_SCALE). set (M := orElse _ 1).
  pose proof (Rsqr_abs k) as Hk. unfold Rsqr in Hk.
  rewrite !Rmult_assoc. rewrite <- Hk. reflexivity.
Qed.

(** X18: where [main.js] puts a spawned asteroid.  It starts on the z axis
    at its miss distance (kilometers over 1000 in scene units), heading
    for the center with [|velocity| * 1000] m/s; it is counted as an
    impact in its first frame exactly when that distance is below
    [earthRadius + 0.2] scene units, that is a miss distance under 6571 km
    in absolute value. *)
Theorem X18_main_asteroid_first_frame (size approach velocity : R)
        (ms : list Meteor) (realistic : bool) (simSpeed : R) :
  exists m,
    MainJsWorld.spawnSelectedAsteroid size approach velocity ms = ms ++ [m]
    /\ position m = mk 0 0 (approach * 1000 / SCENE_SCALE)
    /\ length (deref (physVelocity m)) = Rabs velocity * 1000
    /\ (snd (MainJs.animateMeteor realistic simSpeed m) <> None
        <-> Rabs approach < 6571).
Proof.
  unfold MainJsWorld.spawnSelectedAsteroid. cbv zeta.
  eexists. split; [reflexivity|]. cbn [position physVelocity deref].
  split; [reflexivity|]. split.
  - rewrite length_multiplyScalar.
    replace (length (normalize (mk 0 0 (-1)))) with 1.
    + rewrite Rabs_mult, (Rabs_pos_eq 1000) by lra. ring.
    + symmetry. apply length_normalize. intros E. injection E as E. lra.
  - unfold MainJs.animateMeteor. cbn [active negb position].
    rewrite length_axis.
    assert (Hab : Rabs (approach * 1000 / SCENE_SCALE) = Rabs approach / 1000).
    { unfold SCENE_SCALE. replace (approach * 1000 / 1e6) with (approach * / 1000) by lra.
      rewrite Rabs_mult, (Rabs_pos_eq (/ 1000)) by lra. reflexivity. }
    rewrite Hab. unfold earthRadius.
    destruct (Rlt_dec _ _) as [Hlt | Hge]; cbn [snd].
    + split; [intros _; lra | intros _; discriminate].
    + split; [intros N; exfalso; apply N; reflexivity | intros; lra].
Qed.
